(** * HUB-Assigner: the spreadsheet pipeline of [services/excelProcessor.ts]

    A shallow embedding of the data transformation pipeline
    ([runInitialProcessing], [assignAndGenerateExcel]) together with the
    JavaScript primitives it relies on, and the properties of the
    natural-language specification stated over it.

    The repository holds three copies of the processor.  The latest one
    (with the ZRAX filter, the pivot and the column-A extractor) is the one
    embedded in [Pipeline]; the earliest one, which has neither and which
    hands the rows of its input to the buckets without copying them, is
    embedded in [Heap.Aliasing] for the assignment step.

    Layout:
    - [Js]       : the JavaScript values and built-ins the code uses
                   ([Number], [String], truthiness, [===], [??],
                   [toUpperCase], [includes], [localeCompare], [sort]);
    - [Pipeline] : the processor on values: rows are lists of cells; the
                   two built-ins that depend on the host, [toUpperCase]
                   and [localeCompare], are parameters of the functions
                   named [...With], and the functions under the names of
                   the source are these at the ASCII models of [Js];
    - [Heap]     : the assignment step over a store of row objects, where
                   [unshift] and [splice] change an array in place;
    - [Spec]     : the notions of the specification, in its own words;
    - [Samples]  : small sheets for the scenarios;
    - [JsMore], [ColumnA], [Ui], [Middle], [MoreSpec] : the column-A
                   extractor, the dialog, the dashboard and the second
                   copy of the assignment step;
    - the facts  : [JsFacts], [NormalizerFacts], [EnricherFacts],
                   [AssignmentFacts], [HeapFacts], [RefinementFacts],
                   [CategorizerFacts], [NormalizerMore], [PipelineMore],
                   [AssignmentMore], [UiFacts], [ColumnAFacts],
                   [VersionFacts]. *)

From Stdlib Require Import ZArith List Ascii String Lia Permutation Sorted.
From Stdlib Require Import DecimalString.
From stdpp Require Import base decidable option list gmap strings.

Local Open Scope string_scope.
Local Open Scope list_scope.

(* ===================================================================== *)
(** * JavaScript values and built-ins                                     *)
(* ===================================================================== *)

Module Js.

(** ** Numbers

    A JavaScript number is [NaN], an infinity, or a finite value.  Finite
    values are kept as exact decimals [m * 10^e] in canonical form ([m] has
    no trailing zero digit; zero is [Fin 0 0], so [+0] and [-0] coincide, as
    they do under the SameValueZero comparison of [Set] and [Map]).
    Rounding to 53 bits of precision and overflow to an infinity are not
    modelled: the keys of the sheets are order numbers well inside the
    exact range. *)
Inductive JsNum : Type :=
  | NaN
  | Inf (neg : bool)
  | Fin (m e : Z).

#[global] Instance JsNum_eq_dec : EqDecision JsNum.
Proof. solve_decision. Defined.

#[global] Instance JsNum_countable : Countable JsNum.
Proof.
  refine (inj_countable'
    (fun n => match n with
              | NaN => inl tt
              | Inf b => inr (inl b)
              | Fin m e => inr (inr (m, e))
              end)
    (fun x => match x with
              | inl _ => NaN
              | inr (inl b) => Inf b
              | inr (inr (m, e)) => Fin m e
              end) _).
  intros []; reflexivity.
Defined.

Definition isNaN (n : JsNum) : bool :=
  match n with NaN => true | _ => false end.

(** Strip trailing decimal zeros of the mantissa. *)
Fixpoint strip10 (fuel : nat) (m e : Z) : Z * Z :=
  match fuel with
  | O => (m, e)
  | S f => if (m mod 10 =? 0)%Z then strip10 f (m / 10)%Z (e + 1)%Z else (m, e)
  end.

Definition mkFin (m e : Z) : JsNum :=
  if (m =? 0)%Z then Fin 0 0
  else let '(m', e') := strip10 (Z.to_nat (Z.log2 (Z.abs m))) m e in Fin m' e'.

(** ** Cells

    What [XLSX.utils.sheet_to_json (ws, {header: 1, defval})] puts in a row:
    strings, numbers and booleans, and [null] when that is the [defval].
    [CUndef] is what indexing a row past its end yields. *)
Inductive Cell : Type :=
  | CStr (s : string)
  | CNum (n : JsNum)
  | CBool (b : bool)
  | CNull
  | CUndef.

#[global] Instance Cell_eq_dec : EqDecision Cell.
Proof. solve_decision. Defined.

(** [type Row = any[]] *)
Abbreviation Row := (list Cell).

(** [row[i]] *)
Definition at_ (row : Row) (i : nat) : Cell :=
  match row !! i with Some c => c | None => CUndef end.

(** ** Characters and strings

    Strings are byte strings; the case mapping and the white space are the
    ASCII ones. *)
Definition chars (s : string) : list ascii := list_ascii_of_string s.

Definition code (c : ascii) : nat := nat_of_ascii c.

Definition isDigit (c : ascii) : bool :=
  (48 <=? code c)%nat && (code c <=? 57)%nat.

Definition isLower (c : ascii) : bool :=
  (97 <=? code c)%nat && (code c <=? 122)%nat.

Definition isUpper (c : ascii) : bool :=
  (65 <=? code c)%nat && (code c <=? 90)%nat.

Definition upperChar (c : ascii) : ascii :=
  if isLower c then ascii_of_nat (code c - 32) else c.

Definition lowerChar (c : ascii) : ascii :=
  if isUpper c then ascii_of_nat (code c + 32) else c.

(** [s.toUpperCase()] and [s.toLowerCase()] *)
Definition toUpperCase (s : string) : string :=
  string_of_list_ascii (map upperChar (chars s)).

Definition toLowerCase (s : string) : string :=
  string_of_list_ascii (map lowerChar (chars s)).

Fixpoint startsWith (p s : list ascii) : bool :=
  match p, s with
  | [], _ => true
  | _ :: _, [] => false
  | a :: p', b :: s' => if decide (a = b) then startsWith p' s' else false
  end.

Fixpoint includesL (p s : list ascii) : bool :=
  startsWith p s ||
  match s with
  | [] => false
  | _ :: s' => includesL p s'
  end.

(** [s.includes(p)] *)
Definition includes (s p : string) : bool := includesL (chars p) (chars s).

(** ** [Number(v)]: ToNumber *)

Definition isWhite (c : ascii) : bool :=
  match code c with
  | 9 | 10 | 11 | 12 | 13 | 32 => true
  | _ => false
  end.

Fixpoint dropWhite (s : list ascii) : list ascii :=
  match s with
  | c :: s' => if isWhite c then dropWhite s' else s
  | [] => []
  end.

Definition trim (s : list ascii) : list ascii :=
  rev (dropWhite (rev (dropWhite s))).

Fixpoint spanDigits (s : list ascii) : list ascii * list ascii :=
  match s with
  | c :: s' =>
      if isDigit c then let '(ds, r) := spanDigits s' in (c :: ds, r)
      else ([], s)
  | [] => ([], [])
  end.

Definition digitVal (c : ascii) : Z :=
  if isDigit c then Z.of_nat (code c) - 48
  else if isLower c then Z.of_nat (code c) - 87
  else if isUpper c then Z.of_nat (code c) - 55
  else 99.

Definition radixVal (radix : Z) (ds : list ascii) : Z :=
  fold_left (fun acc c => radix * acc + digitVal c)%Z ds 0%Z.

(** [e] or [E], an optional sign, digits; nothing may follow. *)
Definition parseExponent (s : list ascii) : option Z :=
  match s with
  | [] => Some 0%Z
  | c :: r =>
      if decide (lowerChar c = "e"%char) then
        let '(sg, r') :=
          match r with
          | "+"%char :: r' => (1%Z, r')
          | "-"%char :: r' => ((-1)%Z, r')
          | _ => (1%Z, r)
          end in
        match spanDigits r' with
        | ((_ :: _) as ds, []) => Some (sg * radixVal 10 ds)%Z
        | _ => None
        end
      else None
  end.

(** StrUnsignedDecimalLiteral, as mantissa and decimal exponent. *)
Definition parseUnsigned (s : list ascii) : option (Z * Z) :=
  let '(ip, r1) := spanDigits s in
  match r1 with
  | "."%char :: r2 =>
      let '(fp, r3) := spanDigits r2 in
      match ip, fp with
      | [], [] => None
      | _, _ =>
          match parseExponent r3 with
          | Some e => Some (radixVal 10 (ip ++ fp), e - Z.of_nat (length fp))%Z
          | None => None
          end
      end
  | _ =>
      match ip with
      | [] => None
      | _ => match parseExponent r1 with
             | Some e => Some (radixVal 10 ip, e)
             | None => None
             end
      end
  end.

Definition parseDecimal (neg : bool) (s : list ascii) : JsNum :=
  if decide (s = chars "Infinity") then Inf neg
  else match parseUnsigned s with
       | Some (m, e) => mkFin (if neg then - m else m) e
       | None => NaN
       end.

(** [0x], [0o] and [0b] literals: no sign, at least one digit. *)
Definition parseRadix (radix : Z) (ds : list ascii) : JsNum :=
  match ds with
  | [] => NaN
  | _ => if forallb (fun c => (digitVal c <? radix)%Z) ds
         then mkFin (radixVal radix ds) 0 else NaN
  end.

(** StringToNumber *)
Definition StringToNumber (s : string) : JsNum :=
  match trim (chars s) with
  | [] => Fin 0 0
  | "+"%char :: r => parseDecimal false r
  | "-"%char :: r => parseDecimal true r
  | "0"%char :: c :: r =>
      if decide (lowerChar c = "x"%char) then parseRadix 16 r
      else if decide (lowerChar c = "o"%char) then parseRadix 8 r
      else if decide (lowerChar c = "b"%char) then parseRadix 2 r
      else parseDecimal false ("0"%char :: c :: r)
  | t => parseDecimal false t
  end.

Definition Number (v : Cell) : JsNum :=
  match v with
  | CStr s => StringToNumber s
  | CNum n => n
  | CBool true => Fin 1 0
  | CBool false => Fin 0 0
  | CNull => Fin 0 0
  | CUndef => NaN
  end.

(** ** [String(v)]: ToString *)

Definition digitsOf (m : Z) : list ascii :=
  chars (NilZero.string_of_uint (N.to_uint (Z.abs_N m))).

Definition zeros (n : nat) : list ascii := repeat "0"%char n.

(** Number::toString for radix 10, on a canonical finite value. *)
Definition NumberToString (x : JsNum) : string :=
  match x with
  | NaN => "NaN"
  | Inf false => "Infinity"
  | Inf true => "-Infinity"
  | Fin m e =>
      if (m =? 0)%Z then "0"
      else
        let ds := digitsOf m in
        let k := Z.of_nat (length ds) in
        let n := (e + k)%Z in
        let body :=
          if ((k <=? n) && (n <=? 21))%Z then
            ds ++ zeros (Z.to_nat (n - k))
          else if ((0 <? n) && (n <=? 21))%Z then
            take (Z.to_nat n) ds ++ "."%char :: drop (Z.to_nat n) ds
          else if ((-6 <? n) && (n <=? 0))%Z then
            "0"%char :: "."%char :: zeros (Z.to_nat (- n)) ++ ds
          else
            let ex := (n - 1)%Z in
            let mant :=
              match ds with
              | d :: ((_ :: _) as r) => d :: "."%char :: r
              | _ => ds
              end in
            mant ++ "e"%char :: (if (ex <? 0)%Z then "-"%char else "+"%char)
                 :: digitsOf ex
        in
        string_of_list_ascii ((if (m <? 0)%Z then ["-"%char] else []) ++ body)
  end.

Definition ToString (v : Cell) : string :=
  match v with
  | CStr s => s
  | CNum n => NumberToString n
  | CBool true => "true"
  | CBool false => "false"
  | CNull => "null"
  | CUndef => "undefined"
  end.

(** ** Truthiness, [===], [??] *)

Definition truthy (v : Cell) : bool :=
  match v with
  | CStr s => negb (bool_decide (s = ""))
  | CNum NaN => false
  | CNum (Fin m _) => negb (m =? 0)%Z
  | CNum (Inf _) => true
  | CBool b => b
  | CNull | CUndef => false
  end.

(** Strict equality: same type and same value, [NaN] equal to nothing. *)
Definition strictEq (a b : Cell) : bool :=
  match a, b with
  | CNum NaN, _ | _, CNum NaN => false
  | _, _ => bool_decide (a = b)
  end.

(** [a ?? b] *)
Definition nullish (a b : Cell) : Cell :=
  match a with
  | CNull | CUndef => b
  | _ => a
  end.

(** [arr.findIndex(p)]: the first index, or [None] for [-1]. *)
Fixpoint findIndex {A} (p : A -> bool) (l : list A) : option nat :=
  match l with
  | [] => None
  | x :: l' => if p x then Some 0%nat else S <$> findIndex p l'
  end.

(** ** [a.localeCompare(b)]

    The comparison is the collation of the host's default locale.  It is
    modelled by the root collation restricted to ASCII: characters compare
    first by their primary weight, where punctuation precedes digits,
    digits precede letters and a letter weighs the same in both cases; only
    when two strings agree on all primary weights does case decide, lower
    case first.  Control characters and bytes outside ASCII carry no weight
    here. *)
Definition collationOrder : list nat :=
  [ 32; 95; 45; 44; 59; 58; 33; 63; 46; 39; 34; 40; 41; 91; 93; 123; 125;
    64; 42; 47; 92; 38; 35; 37; 96; 94; 43; 60; 61; 62; 124; 126; 36;
    48; 49; 50; 51; 52; 53; 54; 55; 56; 57;
    97; 98; 99; 100; 101; 102; 103; 104; 105; 106; 107; 108; 109; 110;
    111; 112; 113; 114; 115; 116; 117; 118; 119; 120; 121; 122 ].

Definition primaryWeight (c : ascii) : option nat :=
  findIndex (Nat.eqb (code (lowerChar c))) collationOrder.

Definition primaryKey (s : string) : list nat :=
  omap primaryWeight (chars s).

Definition caseWeight (c : ascii) : option nat :=
  match primaryWeight c with
  | Some _ => Some (if isUpper c then 1 else 0)%nat
  | None => None
  end.

Definition tertiaryKey (s : string) : list nat :=
  omap caseWeight (chars s).

Fixpoint lexCompare (a b : list nat) : comparison :=
  match a, b with
  | [], [] => Eq
  | [], _ :: _ => Lt
  | _ :: _, [] => Gt
  | x :: a', y :: b' =>
      match Nat.compare x y with
      | Eq => lexCompare a' b'
      | c => c
      end
  end.

Definition localeCompare (a b : string) : comparison :=
  match lexCompare (primaryKey a) (primaryKey b) with
  | Eq => lexCompare (tertiaryKey a) (tertiaryKey b)
  | c => c
  end.

(** ** [arr.sort(cmp)]

    The sort is stable; an element moves in front of another only when the
    comparator puts it strictly first. *)
Section Sort.
Context {A : Type} (cmp : A -> A -> comparison).

Fixpoint insertSorted (x : A) (l : list A) : list A :=
  match l with
  | [] => [x]
  | y :: l' =>
      match cmp x y with
      | Gt => y :: insertSorted x l'
      | _ => x :: l
      end
  end.

Definition sort (l : list A) : list A := foldr insertSorted [] l.

(** [x] may stand before [y]. *)
Definition notAfter (x y : A) : Prop := cmp x y ≠ Gt.
End Sort.

End Js.

(* ===================================================================== *)
(** * The processor, on values                                            *)
(* ===================================================================== *)

Module Pipeline.
Import Js.

Abbreviation Table := (list Row).

(** [type ZraxFilter = 'NONE' | 'ZOP' | 'OZ'] *)
Inductive ZraxFilter : Type := NONE | ZOP | OZ.

#[global] Instance ZraxFilter_eq_dec : EqDecision ZraxFilter.
Proof. solve_decision. Defined.

(** The [Error]s the two steps throw, by their message. *)
Inductive Error : Type :=
  | RawEmptyOrCorrupted        (* "Raw Data file is empty or corrupted." *)
  | NoInfoWorksheet            (* "Could not find a usable worksheet in the Information file. ..." *)
  | NoDupWorksheet             (* "Could not find a usable worksheet in the Duplicate file. ..." *)
  | DupColumnNotFound          (* "'Dup_VLOOKUP' column not found. Cannot perform filtering." *)
  | InfoColumnNotFound.        (* "'Info_VLOOKUP' column not found." *)

(** The text of each error. *)
Definition message (e : Error) : string :=
  match e with
  | RawEmptyOrCorrupted => "Raw Data file is empty or corrupted."
  | NoInfoWorksheet =>
      "Could not find a usable worksheet in the Information file. Please ensure it contains a sheet named 'Sheet3' or that the data is in the first sheet."
  | NoDupWorksheet =>
      "Could not find a usable worksheet in the Duplicate file. Please ensure it contains a sheet named 'Master Hold Report' or that the data is in the first sheet."
  | DupColumnNotFound => "'Dup_VLOOKUP' column not found. Cannot perform filtering."
  | InfoColumnNotFound => "'Info_VLOOKUP' column not found."
  end.

(** A workbook as [XLSX.read] returns it.  The codec is an external
    collaborator: a worksheet is identified with the array of arrays that
    [sheet_to_json (ws, {header: 1, defval: ""})] decodes it to. *)
Record Workbook : Type := {
  SheetNames : list string;
  Sheets : gmap string Table
}.

(** [wb.Sheets[name]], where [name] may be [undefined]. *)
Definition sheet (wb : Workbook) (name : option string) : option Table :=
  Sheets wb !! default "undefined" name.

(** [wb.SheetNames.find(name => name.toLowerCase().includes(target))
     || wb.SheetNames[0]] *)
Definition sheetNameFor (wb : Workbook) (target : string) : option string :=
  match List.find (fun name => includes (toLowerCase name) target) (SheetNames wb) with
  | Some name => if truthy (CStr name) then Some name else head (SheetNames wb)
  | None => head (SheetNames wb)
  end.

(** [!name || !wb.Sheets[name]] decides the throw; otherwise the sheet. *)
Definition usableSheet (wb : Workbook) (target : string) : option Table :=
  match sheetNameFor wb target with
  | Some name => if truthy (CStr name) then Sheets wb !! name else None
  | None => None
  end.

(** ** Step 2 of [runInitialProcessing]: the raw data *)

(** [rawData.length > 0 ? rawData[0] : []] *)
Definition headerOf (rawData : Table) : Row :=
  match rawData with
  | h :: _ => h
  | [] => []
  end.

(** 2.1: the "Only ZRAX" filter; column Z is index 25. *)
Definition onlyZrax (rawData : Table) : Table :=
  let headerRow := headerOf rawData in
  let dataRows := drop 1 rawData in
  let zraxOnlyData :=
    List.filter (fun row => strictEq (at_ row 25) (CStr "ZRAX")) dataRows in
  headerRow :: zraxOnlyData.

(** [row[0] = v] *)
Definition setFirst (row : Row) (v : Cell) : Row :=
  match row with
  | [] => [v]
  | _ :: r => v :: r
  end.

(** 2.2: one iteration of the loop over the data rows; the state is the
    [seen] set and the [uniqueData] array. *)
Definition dedupStep (st : gset JsNum * Table) (row : Row) : gset JsNum * Table :=
  let '(seen, uniqueData) := st in
  let valA := Number (at_ row 0) in
  if negb (isNaN valA) && negb (bool_decide (valA ∈ seen))
  then ({[ valA ]} ∪ seen, uniqueData ++ [setFirst row (CNum valA)])
  else (seen, uniqueData).

Definition dedupe (rawData : Table) : Table :=
  let header := headerOf rawData in
  snd (fold_left dedupStep (drop 1 rawData) (∅, [header])).

(** 2.3: [[row[0], ...row.slice(7)]] *)
Definition pruneColumns (row : Row) : Row := at_ row 0 :: drop 7 row.

(** 2.4: rename the cell now at index 1 of the header. *)
Definition renameCTR (rawData : Table) : Table :=
  match rawData with
  | h :: rest => if (1 <? length h)%nat then <[ 1%nat := CStr "CTR" ]> h :: rest
                 else rawData
  | [] => []
  end.

(** The Normalizer: steps 2.1 to 2.4. *)
Definition normalize (zraxFilter : ZraxFilter) (rawData : Table) : Table :=
  let rawData := if decide (zraxFilter = OZ) then onlyZrax rawData else rawData in
  renameCTR (map pruneColumns (dedupe rawData)).

(** ** Steps 3 and 4: the lookups *)

Definition infoStep (st : gmap JsNum Cell * gset JsNum) (row : Row)
  : gmap JsNum Cell * gset JsNum :=
  let '(infoLookup, infoSeen) := st in
  let key := Number (at_ row 1) in
  if negb (isNaN key) && negb (bool_decide (key ∈ infoSeen))
  then (<[ key := at_ row 6 ]> infoLookup, {[ key ]} ∪ infoSeen)
  else (infoLookup, infoSeen).

Definition buildInfoLookup (infoData : Table) : gmap JsNum Cell :=
  fst (fold_left infoStep (drop 1 infoData) (∅, ∅)).

Definition dupStep (dupLookup : gset JsNum) (row : Row) : gset JsNum :=
  let key := Number (at_ row 6) in
  if negb (isNaN key) then {[ key ]} ∪ dupLookup else dupLookup.

Definition buildDupLookup (dupData : Table) : gset JsNum :=
  fold_left dupStep (drop 1 dupData) ∅.

(** [infoLookup.get(key)] and [dupLookup.has(key)]: the collections hold
    numbers only, so any other key misses. *)
Definition mapGet (m : gmap JsNum Cell) (key : Cell) : Cell :=
  match key with
  | CNum k => default CUndef (m !! k)
  | _ => CUndef
  end.

Definition setHas (s : gset JsNum) (key : Cell) : bool :=
  match key with
  | CNum k => bool_decide (k ∈ s)
  | _ => false
  end.

(** ** Step 5: the two VLOOKUP columns *)
Definition enrichRow (infoLookup : gmap JsNum Cell) (dupLookup : gset JsNum)
    (index : nat) (row : Row) : Row :=
  match index with
  | O => row ++ [CStr "Info_VLOOKUP"; CStr "Dup_VLOOKUP"]
  | _ =>
      let key := at_ row 0 in
      let infoValue := nullish (mapGet infoLookup key) (CStr "#N/A") in
      let dupValue := if setHas dupLookup key then key else CStr "#N/A" in
      row ++ [infoValue; dupValue]
  end.

Definition enrich (infoLookup : gmap JsNum Cell) (dupLookup : gset JsNum)
    (rawData : Table) : Table :=
  imap (enrichRow infoLookup dupLookup) rawData.

(** The three files are taken as read and decoded ([XLSX] is loaded,
    [XLSX.read] has returned the three workbooks). *)
Definition runInitialProcessing (rawWb infoWb dupWb : Workbook)
    (zraxFilter : ZraxFilter) : Error + Table :=
  match sheet rawWb (head (SheetNames rawWb)) with
  | None => inl RawEmptyOrCorrupted
  | Some rawData =>
      let rawData := normalize zraxFilter rawData in
      match usableSheet infoWb "sheet3" with
      | None => inl NoInfoWorksheet
      | Some infoData =>
          let infoLookup := buildInfoLookup infoData in
          match usableSheet dupWb "master hold report" with
          | None => inl NoDupWorksheet
          | Some dupData =>
              let dupLookup := buildDupLookup dupData in
              inr (enrich infoLookup dupLookup rawData)
          end
      end
  end.

(** ** [assignAndGenerateExcel] *)

(** The four lists of names typed into the assignment dialog. *)
Record Assignees : Type := {
  cnAssignees : list string;
  jpAssignees : list string;
  specialAssignees : list string;
  generalAssignees : list string
}.

(** The four arrays [cnRows], [jpRows], [specialRows], [generalRows]. *)
Record Buckets : Type := {
  cnRows : list Row;
  jpRows : list Row;
  specialRows : list Row;
  generalRows : list Row
}.

Definition noRows : Buckets :=
  {| cnRows := []; jpRows := []; specialRows := []; generalRows := [] |}.

(** [new Set(['RU', 'UA', 'NI', 'VE', 'BY', 'CU', 'IR', 'KP', 'SY'])] *)
Definition specialCodes : list string :=
  ["RU"; "UA"; "NI"; "VE"; "BY"; "CU"; "IR"; "KP"; "SY"].

(** [row[i] ? String(row[i]).toUpperCase() : ''].  The case mapping is
    the host's; it is a parameter here, and [Js.toUpperCase] is its
    restriction to ASCII. *)
Definition infoValueOfWith (toUpperCase : string -> string)
    (infoLookupIndex : nat) (row : Row) : string :=
  if truthy (at_ row infoLookupIndex)
  then toUpperCase (ToString (at_ row infoLookupIndex))
  else "".

Abbreviation infoValueOf := (infoValueOfWith toUpperCase).

(** The body of [rowsToAssign.forEach], closed over the set of codes;
    [[...row]] is the row itself on values. *)
Definition categorizeStepWith (toUpperCase : string -> string)
    (codes : list string) (infoLookupIndex : nat)
    (b : Buckets) (row : Row) : Buckets :=
  let infoValue := infoValueOfWith toUpperCase infoLookupIndex row in
  if includes infoValue "CN" then
    {| cnRows := cnRows b ++ [row]; jpRows := jpRows b;
       specialRows := specialRows b; generalRows := generalRows b |}
  else if includes infoValue "JP" then
    {| cnRows := cnRows b; jpRows := jpRows b ++ [row];
       specialRows := specialRows b; generalRows := generalRows b |}
  else if existsb (fun code => includes infoValue code) codes then
    {| cnRows := cnRows b; jpRows := jpRows b;
       specialRows := specialRows b ++ [row]; generalRows := generalRows b |}
  else
    {| cnRows := cnRows b; jpRows := jpRows b;
       specialRows := specialRows b; generalRows := generalRows b ++ [row] |}.

Abbreviation categorizeStep := (categorizeStepWith toUpperCase).

Definition categorizeWith (toUpperCase : string -> string)
    (codes : list string) (infoLookupIndex : nat)
    (rowsToAssign : list Row) : Buckets :=
  fold_left (categorizeStepWith toUpperCase codes infoLookupIndex) rowsToAssign noRows.

Abbreviation categorize := (categorizeWith toUpperCase).

(** [names[i]] *)
Definition nameAt (names : list string) (i : nat) : Cell :=
  match names !! i with
  | Some name => CStr name
  | None => CUndef
  end.

(** [if (names.length > 0) rows.forEach((row, index) =>
       row.unshift(names[index % names.length]));
     else rows.forEach(row => row.unshift(sentinel))] *)
Definition assignNames (names : list string) (sentinel : string)
    (rows : list Row) : list Row :=
  if (0 <? length names)%nat
  then imap (fun index row => nameAt names (index mod length names) :: row) rows
  else map (fun row => CStr sentinel :: row) rows.

Definition isLabel (label : string) (h : Cell) : bool := strictEq h (CStr label).

Definition processAndAssign (header : Row) (a : Assignees)
    (rowsToAssign : list Row) : Error + list Row :=
  match findIndex (isLabel "Info_VLOOKUP") header with
  | None => inl InfoColumnNotFound
  | Some infoLookupIndex =>
      let b := categorize specialCodes infoLookupIndex rowsToAssign in
      inr (assignNames (cnAssignees a) "UNASSIGNED_CN" (cnRows b)
           ++ assignNames (jpAssignees a) "UNASSIGNED_JP" (jpRows b)
           ++ assignNames (specialAssignees a) "UNASSIGNED_SPECIAL" (specialRows b)
           ++ assignNames (generalAssignees a) "UNASSIGNED_GENERAL" (generalRows b))
  end.

(** The "ZRAX on priority" split: column Z is index 19 after the pruning. *)
Definition zColIndex : nat := 19.

Definition isZrax (row : Row) : bool :=
  (zColIndex <? length row)%nat && strictEq (at_ row zColIndex) (CStr "ZRAX").

Definition zraxStep (st : list Row * list Row) (row : Row) : list Row * list Row :=
  let '(zraxRows, otherRows) := st in
  if isZrax row then (zraxRows ++ [row], otherRows)
  else (zraxRows, otherRows ++ [row]).

Definition assignAll (header : Row) (a : Assignees) (zraxFilter : ZraxFilter)
    (filteredRows : list Row) : Error + list Row :=
  if decide (zraxFilter = ZOP) then
    let '(zraxRows, otherRows) := fold_left zraxStep filteredRows ([], []) in
    match processAndAssign header a zraxRows with
    | inl e => inl e
    | inr assignedZrax =>
        match processAndAssign header a otherRows with
        | inl e => inl e
        | inr assignedOthers => inr (assignedZrax ++ assignedOthers)
        end
    end
  else processAndAssign header a filteredRows.

(** [screenerCounts]: a [Map] keeps its keys in insertion order. *)
Fixpoint mapSet (m : list (string * nat)) (k : string) (v : nat) : list (string * nat) :=
  match m with
  | [] => [(k, v)]
  | (k', v') :: m' => if decide (k' = k) then (k, v) :: m' else (k', v') :: mapSet m' k v
  end.

Fixpoint mapGetCount (m : list (string * nat)) (k : string) : option nat :=
  match m with
  | [] => None
  | (k', v') :: m' => if decide (k' = k) then Some v' else mapGetCount m' k
  end.

(** [row[0] as string]: the first cell of an assigned row is a name or a
    sentinel (lemma [assigned_owner]). *)
Definition asString (c : Cell) : string := ToString c.

Definition tallyStep (screenerCounts : list (string * nat)) (row : Row)
  : list (string * nat) :=
  let screener := asString (at_ row 0) in
  mapSet screenerCounts screener (default 0%nat (mapGetCount screenerCounts screener) + 1).

(** [(a, b) => a.screener.localeCompare(b.screener)].  The collation is
    that of the host's default locale; it is a parameter here, and
    [Js.localeCompare] is one such collation. *)
Definition byScreenerWith (localeCompare : string -> string -> comparison)
    (a b : string * nat) : comparison :=
  localeCompare (fst a) (fst b).

Abbreviation byScreener := (byScreenerWith localeCompare).

Definition pivotWith (localeCompare : string -> string -> comparison)
    (finalAssignedRows : list Row) : list (string * nat) :=
  sort (byScreenerWith localeCompare) (fold_left tallyStep finalAssignedRows []).

Abbreviation pivotOf := (pivotWith localeCompare).

(** [arr.splice(i, 1)] *)
Definition spliceOut (i : nat) (row : Row) : Row := take i row ++ drop (S i) row.

(** What the step hands to the writer and to the dashboard. *)
Record Assigned : Type := {
  finalSheetData : Table;
  pivotData : list (string * nat)
}.

Definition assignAndGenerateExcelWith (localeCompare : string -> string -> comparison)
    (processedData : Table) (a : Assignees)
    (zraxFilter : ZraxFilter) : Error + Assigned :=
  let header := headerOf processedData in
  if (length processedData <? 2)%nat then
    inr {| finalSheetData := [header]; pivotData := [] |}
  else
    let dataRows := drop 1 processedData in
    match findIndex (isLabel "Dup_VLOOKUP") header with
    | None => inl DupColumnNotFound
    | Some dupLookupIndex =>
        let filteredRows :=
          List.filter (fun row => strictEq (at_ row dupLookupIndex) (CStr "#N/A"))
            dataRows in
        match assignAll header a zraxFilter filteredRows with
        | inl e => inl e
        | inr finalAssignedRows =>
            let pivotData := pivotWith localeCompare finalAssignedRows in
            let '(header, finalAssignedRows) :=
              match findIndex (isLabel "CTR") header with
              | Some ctrIndex =>
                  (spliceOut ctrIndex header,
                   map (spliceOut (ctrIndex + 1)) finalAssignedRows)
              | None => (header, finalAssignedRows)
              end in
            inr {| finalSheetData := (CStr "Screener" :: header) :: finalAssignedRows;
                   pivotData := pivotData |}
        end
    end.

Abbreviation assignAndGenerateExcel := (assignAndGenerateExcelWith localeCompare).

End Pipeline.

(* ===================================================================== *)
(** * The assignment step, on a store of row objects                      *)
(* ===================================================================== *)

(** Rows are JavaScript arrays: objects reached through references and
    changed in place by [unshift] and [splice].  Here a table is the list
    of the references it holds and the store maps each reference to the
    current contents of its array.  The outer array of a table is never
    written by the step ([slice], spread and array literals build new
    ones), so it is kept as a value. *)
Module Heap.
Import Js Pipeline.

Abbreviation loc := positive.
Abbreviation store := (gmap positive (list Cell)).

(** Computations over the store that may throw. *)
Definition M (A : Type) : Type := store → (Error + A) * store.

Definition ret {A} (x : A) : M A := λ h, (inr x, h).

Definition throw {A} (e : Error) : M A := λ h, (inl e, h).

Definition bind {A B} (m : M A) (f : A → M B) : M B :=
  λ h, match m h with
       | (inr x, h') => f x h'
       | (inl e, h') => (inl e, h')
       end.

Notation "'do' x <- m ; k" := (bind m (λ x, k))
  (at level 10, x name, m at level 100, k at level 200).
Notation "m ;; k" := (bind m (λ _, k))
  (at level 100, k at level 200, right associativity).

(** The contents of the array at [l] in the store [h]. *)
Definition cellsAt (h : store) (l : loc) : Row := default [] (h !! l).

Definition readRow (l : loc) : M Row := λ h, (inr (cellsAt h l), h).

(** [[...row]] and array literals: a new array. *)
Definition alloc (cells : Row) : M loc :=
  λ h, let l := fresh (dom h) in (inr l, <[ l := cells ]> h).

(** [row.unshift(c)] *)
Definition unshift (l : loc) (c : Cell) : M unit :=
  λ h, (inr tt, alter (cons c) l h).

(** [row.splice(i, 1)] *)
Definition splice (l : loc) (i : nat) : M unit :=
  λ h, (inr tt, alter (spliceOut i) l h).

(** [arr.forEach((x, index) => f(index, x))], from index [i]. *)
Fixpoint forEachFrom {A} (f : nat → A → M unit) (i : nat) (l : list A) : M unit :=
  match l with
  | [] => ret tt
  | x :: l' => f i x ;; forEachFrom f (S i) l'
  end.

Definition forEach {A} (f : nat → A → M unit) (l : list A) : M unit :=
  forEachFrom f 0 l.

(** [arr.filter(p)] *)
Fixpoint filterM {A} (p : A → M bool) (l : list A) : M (list A) :=
  match l with
  | [] => ret []
  | x :: l' =>
      do keep <- p x;
      do rest <- filterM p l';
      ret (if keep then x :: rest else rest)
  end.

(** A loop that threads an accumulator: [arr.forEach(x => { ... })]. *)
Fixpoint foldM {A S} (f : S → A → M S) (l : list A) (s : S) : M S :=
  match l with
  | [] => ret s
  | x :: l' => do s' <- f s x; foldM f l' s'
  end.

(** Bucket arrays hold references. *)
Record Buckets : Type := {
  cnRows : list loc;
  jpRows : list loc;
  specialRows : list loc;
  generalRows : list loc
}.

Definition noRows : Buckets :=
  {| cnRows := []; jpRows := []; specialRows := []; generalRows := [] |}.

Definition push (codes : list string) (b : Buckets) (infoValue : string)
    (l : loc) : Buckets :=
  if includes infoValue "CN" then
    {| cnRows := cnRows b ++ [l]; jpRows := jpRows b;
       specialRows := specialRows b; generalRows := generalRows b |}
  else if includes infoValue "JP" then
    {| cnRows := cnRows b; jpRows := jpRows b ++ [l];
       specialRows := specialRows b; generalRows := generalRows b |}
  else if existsb (fun code => includes infoValue code) codes then
    {| cnRows := cnRows b; jpRows := jpRows b;
       specialRows := specialRows b ++ [l]; generalRows := generalRows b |}
  else
    {| cnRows := cnRows b; jpRows := jpRows b;
       specialRows := specialRows b; generalRows := generalRows b ++ [l] |}.

(** [names.length > 0 ? rows.forEach((row, index) => row.unshift(...))
                       : rows.forEach(row => row.unshift(sentinel))] *)
Definition assignNames (names : list string) (sentinel : string)
    (rows : list loc) : M unit :=
  if (0 <? length names)%nat
  then forEach (λ index row, unshift row (nameAt names (index mod length names))) rows
  else forEach (λ _ row, unshift row (CStr sentinel)) rows.

Definition assignBuckets (a : Assignees) (b : Buckets) : M (list loc) :=
  assignNames (cnAssignees a) "UNASSIGNED_CN" (cnRows b) ;;
  assignNames (jpAssignees a) "UNASSIGNED_JP" (jpRows b) ;;
  assignNames (specialAssignees a) "UNASSIGNED_SPECIAL" (specialRows b) ;;
  assignNames (generalAssignees a) "UNASSIGNED_GENERAL" (generalRows b) ;;
  ret (cnRows b ++ jpRows b ++ specialRows b ++ generalRows b).

(** [dataRows.filter(row => row[dupLookupIndex] === '#N/A')] *)
Definition keepUnresolved (dupLookupIndex : nat) (dataRows : list loc) : M (list loc) :=
  filterM (λ row, do cells <- readRow row;
                  ret (strictEq (at_ cells dupLookupIndex) (CStr "#N/A")))
          dataRows.

(** ** The processor that copies: [[...row]] on every push *)
Module Copying.

Definition categorizeStep (infoLookupIndex : nat) (b : Buckets) (row : loc) : M Buckets :=
  do cells <- readRow row;
  do copy <- alloc cells;
  ret (push specialCodes b (infoValueOf infoLookupIndex cells) copy).

Definition processAndAssign (header : loc) (a : Assignees)
    (rowsToAssign : list loc) : M (list loc) :=
  do hdr <- readRow header;
  match findIndex (isLabel "Info_VLOOKUP") hdr with
  | None => throw InfoColumnNotFound
  | Some infoLookupIndex =>
      do b <- foldM (categorizeStep infoLookupIndex) rowsToAssign noRows;
      assignBuckets a b
  end.

Definition zraxStep (st : list loc * list loc) (row : loc) : M (list loc * list loc) :=
  do cells <- readRow row;
  ret (if isZrax cells then (fst st ++ [row], snd st)
       else (fst st, snd st ++ [row])).

Definition assignAll (header : loc) (a : Assignees) (zraxFilter : ZraxFilter)
    (filteredRows : list loc) : M (list loc) :=
  if decide (zraxFilter = ZOP) then
    do split <- foldM zraxStep filteredRows ([], []);
    do assignedZrax <- processAndAssign header a (fst split);
    do assignedOthers <- processAndAssign header a (snd split);
    ret (assignedZrax ++ assignedOthers)
  else processAndAssign header a filteredRows.

Definition tally (finalAssignedRows : list loc) : M (list (string * nat)) :=
  foldM (λ screenerCounts row,
           do cells <- readRow row; ret (tallyStep screenerCounts cells))
        finalAssignedRows [].

Definition removeCTR (header : loc) (finalAssignedRows : list loc) : M unit :=
  do hdr <- readRow header;
  match findIndex (isLabel "CTR") hdr with
  | Some ctrIndex =>
      splice header ctrIndex ;;
      forEach (λ _ row, splice row (ctrIndex + 1)) finalAssignedRows
  | None => ret tt
  end.

(** The sheet handed to the writer, as references, and the pivot. *)
Definition assignAndGenerateExcel (processedData : list loc) (a : Assignees)
    (zraxFilter : ZraxFilter) : M (list loc * list (string * nat)) :=
  do header <-
    match processedData with
    | h :: _ => do cells <- readRow h; alloc cells
    | [] => alloc []
    end;
  if (length processedData <? 2)%nat then ret ([header], [])
  else
    let dataRows := drop 1 processedData in
    do hdr <- readRow header;
    match findIndex (isLabel "Dup_VLOOKUP") hdr with
    | None => throw DupColumnNotFound
    | Some dupLookupIndex =>
        do filteredRows <- keepUnresolved dupLookupIndex dataRows;
        do finalAssignedRows <- assignAll header a zraxFilter filteredRows;
        do screenerCounts <- tally finalAssignedRows;
        let pivotData := sort byScreener screenerCounts in
        removeCTR header finalAssignedRows ;;
        unshift header (CStr "Screener") ;;
        ret (header :: finalAssignedRows, pivotData)
    end.

End Copying.

(** ** The earlier processor: [header = processedData[0]], [push(row)] *)
Module Aliasing.

(** [new Set(['RU', 'UA', 'NI', 'VE', 'BY'])] *)
Definition specialCodes : list string := ["RU"; "UA"; "NI"; "VE"; "BY"].

Definition categorizeStep (infoLookupIndex : nat) (b : Buckets) (row : loc) : M Buckets :=
  do cells <- readRow row;
  ret (push specialCodes b (infoValueOf infoLookupIndex cells) row).

(** The sheet handed to the writer, as references. *)
Definition assignAndGenerateExcel (processedData : list loc) (a : Assignees)
    : M (list loc) :=
  match processedData with
  | header :: ((_ :: _) as dataRows) =>
      do hdr <- readRow header;
      match findIndex (isLabel "Dup_VLOOKUP") hdr with
      | None => throw DupColumnNotFound
      | Some dupLookupIndex =>
          do filteredRows <- keepUnresolved dupLookupIndex dataRows;
          match findIndex (isLabel "Info_VLOOKUP") hdr with
          | None => throw InfoColumnNotFound
          | Some infoLookupIndex =>
              unshift header (CStr "Screener") ;;
              do b <- foldM (categorizeStep infoLookupIndex) filteredRows noRows;
              do assigned <- assignBuckets a b;
              ret (header :: assigned)
          end
      end
  | _ => ret processedData
  end.

End Aliasing.

(** A table of values laid out in a store, and read back from it. *)
Definition layout (t : Table) : list loc * store :=
  let ls := map Pos.of_succ_nat (seq 0 (length t)) in
  (ls, list_to_map (zip ls t)).

Definition readBack (h : store) (ls : list loc) : Table := map (cellsAt h) ls.

(** The store after [rows.forEach((row, j) => { row becomes g(i + j, row) })]. *)
Fixpoint alterAll (g : nat → Row → Row) (i : nat) (rows : list loc) (h : store)
  : store :=
  match rows with
  | [] => h
  | l :: rest => alterAll g (S i) rest (alter (g i) l h)
  end.

End Heap.

(* ===================================================================== *)
(** * Reference definitions: the specification's own words               *)
(* ===================================================================== *)

Module Spec.
Import Js Pipeline.

(** The key of a row: the numeric coercion of its first cell. *)
Definition key (row : Row) : JsNum := Number (at_ row 0).

(** A kept row: the row with its first cell replaced by the key. *)
Definition coerced (row : Row) : Row := setFirst row (CNum (key row)).

(** Position [i] holds the first occurrence of a numeric key. *)
Definition firstNumeric (rows : list Row) (i : nat) : Prop :=
  ∃ row, rows !! i = Some row ∧ isNaN (key row) = false ∧
         ∀ j row', (j < i)%nat → rows !! j = Some row' → key row' ≠ key row.

(** The info index in the specification's words: the column-G cell of the
    first data row of the info table whose column B coerces to [k]. *)
Definition firstSeenInfo (infoData : Table) (k : JsNum) : option Cell :=
  if isNaN k then None
  else (λ row, at_ row 6) <$>
       List.find (λ row, bool_decide (Number (at_ row 1) = k)) (drop 1 infoData).

(** The duplicate index: the numbers found in column G of the data rows. *)
Definition inDuplicates (dupData : Table) (k : JsNum) : Prop :=
  isNaN k = false ∧ ∃ row, row ∈ drop 1 dupData ∧ Number (at_ row 6) = k.

(** The info cell of a key: the column-G cell of the first data row of the
    info table with that key; "#N/A" when there is no such row, and also
    when that row has no cell in column G (or a [null] one). *)
Definition infoCell (infoData : Table) (key : Cell) : Cell :=
  match key with
  | CNum k =>
      match firstSeenInfo infoData k with
      | None | Some CUndef | Some CNull => CStr "#N/A"
      | Some value => value
      end
  | _ => CStr "#N/A"
  end.

Definition inDuplicatesb (dupData : Table) (k : JsNum) : bool :=
  negb (isNaN k) &&
  existsb (λ row, bool_decide (Number (at_ row 6) = k)) (drop 1 dupData).

Definition dupResult (dupData : Table) (key : Cell) : Cell :=
  match key with
  | CNum k => if inDuplicatesb dupData k then key else CStr "#N/A"
  | _ => CStr "#N/A"
  end.

(** The four work categories. *)
Inductive Bucket : Type := CN | JP | SPECIAL | GENERAL.

#[global] Instance Bucket_eq_dec : EqDecision Bucket.
Proof. solve_decision. Defined.

(** The first-match priority over an upper-cased value. *)
Definition bucketOf (v : string) : Bucket :=
  if includes v "CN" then CN
  else if includes v "JP" then JP
  else if existsb (λ code, includes v code)
            ["RU"; "UA"; "NI"; "VE"; "BY"; "CU"; "IR"; "KP"; "SY"] then SPECIAL
  else GENERAL.

(** The text a cell is judged by, for a case mapping [upper]: its string
    form, upper-cased; a cell that is missing, empty, zero or false counts
    as the empty text. *)
Definition judged (upper : string → string) (c : Cell) : string :=
  match c with
  | CStr "" | CNull | CUndef | CBool false | CNum NaN => ""
  | CNum (Fin m _) => if (m =? 0)%Z then "" else upper (ToString c)
  | _ => upper (ToString c)
  end.

(** The first-match priority over a text, for a set of special codes. *)
Definition firstMatch (codes : list string) (v : string) : Bucket :=
  if includes v "CN" then CN
  else if includes v "JP" then JP
  else if existsb (λ code, includes v code) codes then SPECIAL
  else GENERAL.

Definition bucketWith (upper : string → string) (codes : list string)
    (infoLookupIndex : nat) (row : Row) : Bucket :=
  firstMatch codes (judged upper (at_ row infoLookupIndex)).

(** The rows of one bucket, in their original relative order. *)
Definition rowsOf (upper : string → string) (codes : list string)
    (infoLookupIndex : nat) (c : Bucket) (rows : list Row) : list Row :=
  List.filter (λ row, bool_decide (bucketWith upper codes infoLookupIndex row = c)) rows.

(** The character [c] is the letter [u] of a code, in either case: the
    same character, or the small form of the capital letter [u]. *)
Definition meets (u c : ascii) : bool :=
  bool_decide (c = u)
  || ((65 <=? nat_of_ascii u)%nat && (nat_of_ascii u <=? 90)%nat
      && (nat_of_ascii c =? nat_of_ascii u + 32)%nat).

Fixpoint beginsWith (codeChars s : list ascii) : bool :=
  match codeChars, s with
  | [], _ => true
  | _ :: _, [] => false
  | u :: codeChars', c :: s' => meets u c && beginsWith codeChars' s'
  end.

(** The code occurs in the text, without regard to case. *)
Fixpoint occursIn (codeChars s : list ascii) : bool :=
  beginsWith codeChars s ||
  match s with
  | [] => false
  | _ :: s' => occursIn codeChars s'
  end.

(** The first-match priority over a text read without regard to case. *)
Definition firstMatchAnyCase (codes : list string) (v : string) : Bucket :=
  if occursIn (chars "CN") (chars v) then CN
  else if occursIn (chars "JP") (chars v) then JP
  else if existsb (λ code, occursIn (chars code) (chars v)) codes then SPECIAL
  else GENERAL.

(** A text of ASCII characters. *)
Definition ascii7 (v : string) : Prop :=
  Forall (λ c, (nat_of_ascii c < 128)%nat) (chars v).

(** The bucket of a row: decided by its upper-cased Info_VLOOKUP value. *)
Definition bucketOfRow (infoLookupIndex : nat) (row : Row) : Bucket :=
  bucketOf (toUpperCase (ToString (at_ row infoLookupIndex))).

(** The rows of one bucket, in their original relative order. *)
Definition bucketRows (infoLookupIndex : nat) (c : Bucket) (rows : list Row)
  : list Row :=
  List.filter (λ row, bool_decide (bucketOfRow infoLookupIndex row = c)) rows.

Definition namesFor (a : Assignees) (c : Bucket) : list string :=
  match c with
  | CN => cnAssignees a
  | JP => jpAssignees a
  | SPECIAL => specialAssignees a
  | GENERAL => generalAssignees a
  end.

Definition sentinelFor (c : Bucket) : string :=
  match c with
  | CN => "UNASSIGNED_CN"
  | JP => "UNASSIGNED_JP"
  | SPECIAL => "UNASSIGNED_SPECIAL"
  | GENERAL => "UNASSIGNED_GENERAL"
  end.

(** The number of rows owned by [name]. *)
Definition ownedBy (name : string) (rows : list Row) : nat :=
  length (List.filter (λ row, bool_decide (at_ row 0 = CStr name)) rows).

(** The loop of step 2.2 as a recursion on the remaining rows. *)
Fixpoint keptRows (seen : gset JsNum) (rows : list Row) : list Row :=
  match rows with
  | [] => []
  | row :: rest =>
      if negb (isNaN (key row)) && negb (bool_decide (key row ∈ seen))
      then coerced row :: keptRows ({[ key row ]} ∪ seen) rest
      else keptRows seen rest
  end.

Fixpoint seenAfter (seen : gset JsNum) (rows : list Row) : gset JsNum :=
  match rows with
  | [] => seen
  | row :: rest =>
      if negb (isNaN (key row)) && negb (bool_decide (key row ∈ seen))
      then seenAfter ({[ key row ]} ∪ seen) rest
      else seenAfter seen rest
  end.

(** The branch [categorizeStep] takes for a row. *)
Definition branchOf (codes : list string) (infoLookupIndex : nat) (row : Row)
  : Bucket :=
  let infoValue := infoValueOf infoLookupIndex row in
  if includes infoValue "CN" then CN
  else if includes infoValue "JP" then JP
  else if existsb (λ code, includes infoValue code) codes then SPECIAL
  else GENERAL.

Definition only (codes : list string) (idx : nat) (c : Bucket)
    (rows : list Row) : list Row :=
  List.filter (λ row, bool_decide (branchOf codes idx row = c)) rows.

(** Rows owned by [k], read the way the tally reads the owner. *)
Definition tallied (k : string) (rows : list Row) : nat :=
  length (List.filter (λ row, bool_decide (asString (at_ row 0) = k)) rows).

Definition getCount (m : list (string * nat)) (k : string) : nat :=
  default 0%nat (mapGetCount m k).

(** Every assigned row starts with its owner, a string. *)
Definition owned (row : Row) : Prop := ∃ o r, row = CStr o :: r.

(** [m] leaves every object of the store [h0] as it is, from any store
    that extends [h0], and what it returns satisfies [Q]. *)
Definition keeps {A} (h0 : Heap.store) (m : Heap.M A) (Q : A → Prop) : Prop :=
  ∀ h, h0 ⊆ h → h0 ⊆ snd (m h) ∧ ∀ x, fst (m h) = inr x → Q x.

(** A reference made by the step itself. *)
Definition madeAfter (h0 : Heap.store) (l : positive) : Prop := l ∉ dom h0.

(** Every reference in the buckets was made by the step itself. *)
Definition allMade (h0 : Heap.store) (b : Heap.Buckets) : Prop :=
  Forall (madeAfter h0) (Heap.cnRows b) ∧ Forall (madeAfter h0) (Heap.jpRows b) ∧
  Forall (madeAfter h0) (Heap.specialRows b) ∧
  Forall (madeAfter h0) (Heap.generalRows b).

(** What a run of the copying step returns, against the step on values:
    the same error, or references to new arrays that hold its rows. *)
Definition agrees (h h' : Heap.store) (r : Error + list positive)
    (v : Error + list Row)
  : Prop :=
  match v with
  | inl e => r = inl e
  | inr out =>
      ∃ final, r = inr final ∧ Heap.readBack h' final = out ∧ NoDup final ∧
               Forall (λ l, l ∉ dom h) final ∧ Forall (λ l, l ∈ dom h') final
  end.

End Spec.

(* ===================================================================== *)
(** * Sample sheets                                                       *)
(* ===================================================================== *)

Module Samples.
Import Js Pipeline.

(** A raw table with the keys 5, "5", "abc", 7. *)
Definition sampleRaw : Table :=
  [ [CStr "Order"; CStr "Note"];
    [CNum (Fin 5 0); CStr "p"];
    [CStr "5"; CStr "q"];
    [CStr "abc"; CStr "r"];
    [CStr "7"; CStr "s"] ].

(** Three small workbooks: keys 5, "5", "abc", 7 and a blank; an info
    sheet that knows key 5 twice; a duplicate sheet that knows key 7. *)
Definition wide (k : Cell) (h z : string) : Row :=
  [k; CStr "b"; CStr "c"; CStr "d"; CStr "e"; CStr "f"; CStr "g"; CStr h; CStr z].

Definition rawSheet : Table :=
  [ wide (CStr "Order") "Centre" "Z";
    wide (CNum (Fin 5 0)) "h1" "p";
    wide (CStr "5") "h2" "q";
    wide (CStr "abc") "h3" "r";
    wide (CStr "7") "h4" "s";
    wide (CStr "") "h5" "t" ].

Definition infoSheet : Table :=
  [ [CStr "A"; CStr "B"; CStr "C"; CStr "D"; CStr "E"; CStr "F"; CStr "G"];
    [CStr "x"; CNum (Fin 5 0); CStr ""; CStr ""; CStr ""; CStr ""; CStr "cn-1"];
    [CStr "x"; CStr "5"; CStr ""; CStr ""; CStr ""; CStr ""; CStr "jp"] ].

Definition dupSheet : Table :=
  [ [CStr "A"; CStr "B"; CStr "C"; CStr "D"; CStr "E"; CStr "F"; CStr "G"];
    [CStr "x"; CStr ""; CStr ""; CStr ""; CStr ""; CStr ""; CNum (Fin 7 0)] ].

Definition book (name : string) (t : Table) : Workbook :=
  {| SheetNames := [name]; Sheets := {[ name := t ]} |}.

(** A sheet for the assignment step: three CN rows, one JP row, one row
    already in the duplicate table, one general row. *)
Definition processedSheet : Table :=
  [ [CStr "Order"; CStr "CTR"; CStr "Info_VLOOKUP"; CStr "Dup_VLOOKUP"];
    [CNum (Fin 1 0); CStr "c1"; CStr "cn-x"; CStr "#N/A"];
    [CNum (Fin 2 0); CStr "c2"; CStr "jp"; CStr "#N/A"];
    [CNum (Fin 3 0); CStr "c3"; CStr "Cn/Jp"; CStr "#N/A"];
    [CNum (Fin 7 0); CStr "c7"; CStr "CN"; CNum (Fin 7 0)];
    [CNum (Fin 8 0); CStr "c8"; CStr "China CN"; CStr "#N/A"];
    [CNum (Fin 9 0); CStr "c9"; CStr "#N/A"; CStr "#N/A"] ].

Definition team : Assignees :=
  {| cnAssignees := ["Alice"; "Bob"]; jpAssignees := [];
     specialAssignees := ["Zed"]; generalAssignees := ["alice"] |}.

(** A processed sheet of twenty columns, column Z last: rows 2 and 3 are
    flagged ZRAX, rows 1 and 4 are not; all four are CN work. *)
Definition zrow (k : Z) (info z : string) : Row :=
  [CNum (Fin k 0); CStr info] ++ replicate 17 (CStr "") ++ [CStr z].

Definition zheader : Row :=
  [CStr "Order"; CStr "Info_VLOOKUP"] ++ replicate 17 (CStr "h") ++ [CStr "Z"].

Definition zrows : list Row :=
  [zrow 1 "cn" ""; zrow 2 "cn" "ZRAX"; zrow 3 "cn" "ZRAX"; zrow 4 "cn" ""].

(** A processed sheet whose header has two cells "CTR". *)
Definition twoCtrSheet : Table :=
  [ [CStr "Order"; CStr "CTR"; CStr "Info_VLOOKUP"; CStr "Dup_VLOOKUP"; CStr "CTR"];
    [CNum (Fin 1 0); CStr "c1"; CStr "cn-x"; CStr "#N/A"; CStr "d1"];
    [CNum (Fin 2 0); CStr "c2"; CStr "jp"; CStr "#N/A"; CStr "d2"] ].

End Samples.

(* ===================================================================== *)
(** * More of the code: the column-A extractor, the dialog, the dashboard *)
(* ===================================================================== *)

(** Further built-ins: numeric comparison, [trim], [split]. *)
Module JsMore.
Import Js.

(** The order of two finite values [m1 * 10^e1] and [m2 * 10^e2]. *)
Definition finCompare (m1 e1 m2 e2 : Z) : comparison :=
  let e := Z.min e1 e2 in
  (m1 * 10 ^ (e1 - e) ?= m2 * 10 ^ (e2 - e))%Z.

(** The comparator [(a, b) => a - b], as [sort] reads it: the sign of the
    difference, a [NaN] difference counting as 0. *)
Definition minus (a b : JsNum) : comparison :=
  match a, b with
  | NaN, _ | _, NaN => Eq
  | Inf false, Inf false | Inf true, Inf true => Eq
  | Inf false, _ => Gt
  | Inf true, _ => Lt
  | Fin _ _, Inf false => Lt
  | Fin _ _, Inf true => Gt
  | Fin m1 e1, Fin m2 e2 => finCompare m1 e1 m2 e2
  end.

(** [s.trim()] *)
Definition trimString (s : string) : string := string_of_list_ascii (trim (chars s)).

(** The character class [[\s,]]. *)
Definition isSeparator (c : ascii) : bool :=
  isWhite c || bool_decide (c = ","%char).

(** [s.split(/[\s,]+/)]: the pieces between the maximal runs of
    separators; [cur] is the piece being read, reversed, and [skipping]
    tells that the last character was a separator. *)
Fixpoint splitFrom (cur : list ascii) (skipping : bool) (s : list ascii)
  : list (list ascii) :=
  match s with
  | [] => [rev cur]
  | c :: s' =>
      if isSeparator c then
        if skipping then splitFrom [] true s'
        else rev cur :: splitFrom [] true s'
      else splitFrom (c :: cur) false s'
  end.

Definition split (s : string) : list string :=
  map string_of_list_ascii (splitFrom [] false (chars s)).

End JsMore.

(** [processColumnA]: the unique numbers of column A, ascending. *)
Module ColumnA.
Import Js JsMore Pipeline.

(** "File is empty or corrupted." *)
Inductive ColumnAError : Type := FileEmptyOrCorrupted.

(** [seen.add(x)] on a [Set] read in insertion order. *)
Definition setAdd (seen : list JsNum) (x : JsNum) : list JsNum :=
  if bool_decide (x ∈ seen) then seen else seen ++ [x].

(** The body of the loop over all rows, the first one included. *)
Definition columnAStep (seen : list JsNum) (row : Row) : list JsNum :=
  if (0 <? length row)%nat && negb (strictEq (at_ row 0) CNull) then
    let valA := Number (at_ row 0) in
    if negb (isNaN valA) then setAdd seen valA else seen
  else seen.

(** Here the sheet is decoded with [defval: null]: a blank cell is
    [CNull]. *)
Definition processColumnA (wb : Workbook) : ColumnAError + list JsNum :=
  match sheet wb (head (SheetNames wb)) with
  | None => inl FileEmptyOrCorrupted
  | Some data =>
      let seen := fold_left columnAStep data [] in
      inr (sort minus seen)
  end.

End ColumnA.

(** The assignment dialog and the dashboard. *)
Module Ui.
Import Js JsMore Pipeline.

(** [nameString.split(/[\s,]+/).filter(Boolean)] *)
Definition parseNames (nameString : string) : list string :=
  List.filter (λ piece, truthy (CStr piece)) (split nameString).

(** [onAssign(parseNames(cnNames), parseNames(jpNames), ...)] *)
Definition handleAssign (cnNames jpNames specialNames generalNames : string)
  : Assignees :=
  {| cnAssignees := parseNames cnNames; jpAssignees := parseNames jpNames;
     specialAssignees := parseNames specialNames;
     generalAssignees := parseNames generalNames |}.

(** [cnNames.trim().length > 0 || jpNames.trim().length > 0 || ...] *)
Definition canAssign (cnNames jpNames specialNames generalNames : string) : bool :=
  (0 <? String.length (trimString cnNames))%nat
  || (0 <? String.length (trimString jpNames))%nat
  || (0 <? String.length (trimString specialNames))%nat
  || (0 <? String.length (trimString generalNames))%nat.

(** [data.reduce((sum, item) => sum + item.count, 0)] *)
Definition grandTotal (data : list (string * nat)) : nat :=
  fold_left (λ sum item, (sum + snd item)%nat) data 0%nat.

End Ui.

(** The middle copy of the processor: [assignAndGenerateExcel] with the
    pivot and the row copies, before the ZRAX filter and the removal of
    the CTR column. *)
Module Middle.
Import Js Pipeline.

(** The errors of this copy: "'Dup_VLOOKUP' column not found. Cannot
    perform filtering." and "'Info_VLOOKUP' column not found. Cannot
    perform assignment." *)
Inductive AssignError : Type := NoDupColumn | NoInfoColumn.

Definition message (e : AssignError) : string :=
  match e with
  | NoDupColumn => "'Dup_VLOOKUP' column not found. Cannot perform filtering."
  | NoInfoColumn => "'Info_VLOOKUP' column not found. Cannot perform assignment."
  end.

(** [new Set(['RU', 'UA', 'NI', 'VE', 'BY'])] *)
Definition specialCodes : list string := ["RU"; "UA"; "NI"; "VE"; "BY"].

Definition assignAndGenerateExcel (processedData : Table) (a : Assignees)
    : AssignError + Assigned :=
  let header := headerOf processedData in
  if (length processedData <? 2)%nat then
    inr {| finalSheetData := [header]; pivotData := [] |}
  else
    let dataRows := drop 1 processedData in
    match findIndex (isLabel "Dup_VLOOKUP") header with
    | None => inl NoDupColumn
    | Some dupLookupIndex =>
        let filteredRows :=
          List.filter (fun row => strictEq (at_ row dupLookupIndex) (CStr "#N/A"))
            dataRows in
        match findIndex (isLabel "Info_VLOOKUP") header with
        | None => inl NoInfoColumn
        | Some infoLookupIndex =>
            let b := categorize specialCodes infoLookupIndex filteredRows in
            let finalAssignedRows :=
              assignNames (cnAssignees a) "UNASSIGNED_CN" (cnRows b)
              ++ assignNames (jpAssignees a) "UNASSIGNED_JP" (jpRows b)
              ++ assignNames (specialAssignees a) "UNASSIGNED_SPECIAL" (specialRows b)
              ++ assignNames (generalAssignees a) "UNASSIGNED_GENERAL" (generalRows b) in
            let pivotData := pivotOf finalAssignedRows in
            inr {| finalSheetData := (CStr "Screener" :: header) :: finalAssignedRows;
                   pivotData := pivotData |}
        end
    end.

End Middle.

(** Notions used to state the further properties. *)
Module MoreSpec.
Import Js JsMore Pipeline.

(** Every listed sheet name is a non-empty string with a sheet, and there
    is no other sheet. *)
Definition wellFormed (wb : Workbook) : Prop :=
  ("" ∉ SheetNames wb) ∧
  ∀ name, is_Some (Sheets wb !! name) ↔ name ∈ SheetNames wb.

(** [name.toLowerCase().includes(target)] *)
Definition matches (target name : string) : bool :=
  includes (toLowerCase name) target.

(** [a] is not after [b] in numeric order. *)
Definition numLe (a b : JsNum) : Prop := minus a b ≠ Gt.

(** A finite value scaled to the exponent [E]. *)
Definition scaled (E m e : Z) : Z := (m * 10 ^ (e - E))%Z.

(** Every row of the sheet is as wide as its header, as the decoder pads
    them ([defval: ""]). *)
Definition uniform (t : Table) : Prop :=
  Forall (λ row : Row, length row = length (headerOf t)) t.

(** A name as the dialog hands it on: not empty and free of separators. *)
Definition cleanName (name : string) : Prop :=
  name ≠ "" ∧ Forall (λ c, isSeparator c = false) (chars name).

(** A row the column-A extractor reads: it has a first cell, not [null]. *)
Definition readable (row : Row) : Prop := row ≠ [] ∧ at_ row 0 ≠ CNull.

(** The cell in column A of a row. *)
Definition firstCell (row : Row) : Cell := at_ row 0.

(** The number of positions [i < n] with [i mod m = j]. *)
Definition turns (m j n : nat) : nat :=
  length (List.filter (λ i, (i mod m =? j)%nat) (seq 0 n)).

End MoreSpec.

(* ===================================================================== *)
(** * Facts about the built-ins                                           *)
(* ===================================================================== *)

Module JsFacts.
Import Js.

(** ** The collation order is a total preorder *)

Lemma lexCompare_flip a : ∀ b, lexCompare b a = CompOpp (lexCompare a b).
Proof.
  induction a as [|x a IH]; intros [|y b]; simpl; try reflexivity.
  rewrite (Nat.compare_antisym x y).
  destruct (x ?= y)%nat; simpl; [apply IH|reflexivity|reflexivity].
Qed.

Lemma lexCompare_eq a : ∀ b, lexCompare a b = Eq → a = b.
Proof.
  induction a as [|x a IH]; intros [|y b]; simpl; try done.
  destruct (x ?= y)%nat eqn:E; try done.
  apply Nat.compare_eq in E. intros H. f_equal; [done|by apply IH].
Qed.

Lemma lexCompare_lt_le a : ∀ b c,
  lexCompare a b = Lt → lexCompare b c ≠ Gt → lexCompare a c = Lt.
Proof.
  induction a as [|x a IH]; intros [|y b] [|z c]; simpl; try done.
  destruct (Nat.compare_spec x y) as [->|Hxy|Hxy]; try done.
  - destruct (Nat.compare_spec y z) as [->|Hyz|Hyz]; try done.
    intros H1 H2. by apply (IH b c).
  - intros _. destruct (Nat.compare_spec y z) as [->|Hyz|Hyz]; try done.
    + intros _. destruct (Nat.compare_spec x z); [lia|done|lia].
    + intros _. destruct (Nat.compare_spec x z); [lia|done|lia].
Qed.

Lemma lexCompare_trans a b c :
  lexCompare a b ≠ Gt → lexCompare b c ≠ Gt → lexCompare a c ≠ Gt.
Proof.
  intros H1 H2. destruct (lexCompare a b) eqn:E; [| |done].
  - apply lexCompare_eq in E. by subst b.
  - by rewrite (lexCompare_lt_le a b c).
Qed.

Lemma localeCompare_flip a b : localeCompare b a = CompOpp (localeCompare a b).
Proof.
  unfold localeCompare.
  rewrite (lexCompare_flip (primaryKey a) (primaryKey b)).
  destruct (lexCompare (primaryKey a) (primaryKey b)); simpl; try reflexivity.
  apply lexCompare_flip.
Qed.

Lemma localeCompare_total a b :
  localeCompare a b = Gt → localeCompare b a ≠ Gt.
Proof. intros H. by rewrite localeCompare_flip, H. Qed.

Lemma localeCompare_trans a b c :
  localeCompare a b ≠ Gt → localeCompare b c ≠ Gt → localeCompare a c ≠ Gt.
Proof.
  unfold localeCompare. intros H1 H2.
  destruct (lexCompare (primaryKey a) (primaryKey b)) eqn:E1; [| |done].
  - apply lexCompare_eq in E1. rewrite E1.
    destruct (lexCompare (primaryKey b) (primaryKey c)); [|done|done].
    by apply (lexCompare_trans _ (tertiaryKey b)).
  - destruct (lexCompare (primaryKey b) (primaryKey c)) eqn:E2; [| |done].
    + by rewrite (lexCompare_lt_le _ _ (primaryKey c) E1) by (by rewrite E2).
    + by rewrite (lexCompare_lt_le _ _ (primaryKey c) E1) by (by rewrite E2).
Qed.

(** ** The sort *)

Section SortFacts.
Context {A : Type} (cmp : A → A → comparison).

Hypothesis cmp_total : ∀ x y, cmp x y = Gt → cmp y x ≠ Gt.
Hypothesis cmp_trans : ∀ x y z, notAfter cmp x y → notAfter cmp y z → notAfter cmp x z.

Lemma insertSorted_perm x l : Permutation (insertSorted cmp x l) (x :: l).
Proof.
  induction l as [|y l IH]; simpl; [done|].
  destruct (cmp x y); try done.
  rewrite IH. apply perm_swap.
Qed.

Lemma sort_perm l : Permutation (sort cmp l) l.
Proof.
  induction l as [|x l IH]; simpl; [done|].
  rewrite insertSorted_perm. by constructor.
Qed.

Lemma insertSorted_hd x y l :
  notAfter cmp y x → HdRel (notAfter cmp) y l → HdRel (notAfter cmp) y (insertSorted cmp x l).
Proof.
  intros Hyx Hhd. destruct l as [|z l]; simpl; [by constructor|].
  destruct (cmp x z); constructor; try done; by inversion Hhd.
Qed.

Lemma insertSorted_sorted x l :
  Sorted (notAfter cmp) l → Sorted (notAfter cmp) (insertSorted cmp x l).
Proof.
  induction 1 as [|y l Hs IH Hhd]; simpl; [by repeat constructor|].
  destruct (cmp x y) eqn:E.
  - constructor; [by constructor|]. constructor. unfold notAfter. by rewrite E.
  - constructor; [by constructor|]. constructor. unfold notAfter. by rewrite E.
  - constructor; [done|]. apply insertSorted_hd; [|done]. by apply cmp_total.
Qed.

Lemma sort_sorted l : StronglySorted (notAfter cmp) (sort cmp l).
Proof.
  apply Sorted_StronglySorted; [exact cmp_trans|].
  induction l as [|x l IH]; simpl; [constructor|]. by apply insertSorted_sorted.
Qed.
End SortFacts.

End JsFacts.

(* ===================================================================== *)
(** * The Normalizer                                                      *)
(* ===================================================================== *)

Module NormalizerFacts.
Import Js Pipeline Spec Samples.

Lemma dedup_fold rows : ∀ seen uniqueData,
  fold_left dedupStep rows (seen, uniqueData)
  = (seenAfter seen rows, uniqueData ++ keptRows seen rows).
Proof.
  induction rows as [|row rest IH]; intros seen u; simpl.
  - by rewrite app_nil_r.
  - fold (key row).
    destruct (negb (isNaN (key row)) && negb (bool_decide (key row ∈ seen))).
    + rewrite IH. by rewrite <- app_assoc.
    + apply IH.
Qed.

Lemma dedupe_cons header rows :
  dedupe (header :: rows) = header :: keptRows ∅ rows.
Proof. unfold dedupe. simpl. by rewrite dedup_fold. Qed.

Lemma dedupe_nil : dedupe [] = [[]].
Proof. reflexivity. Qed.


Lemma sorted_shift (idxs : list nat) :
  StronglySorted lt idxs → StronglySorted lt (map S idxs).
Proof.
  induction 1 as [|i idxs Hs IH Hall]; simpl; constructor; [done|].
  apply Forall_map. eapply Forall_impl; [exact Hall|]. simpl. lia.
Qed.

(** The kept rows are the coerced first occurrences of numeric keys not
    already in [seen], in the order of the table. *)
(** The coerced row, cell by cell. *)
Lemma coerced_eq row : coerced row = CNum (Number (at_ row 0)) :: drop 1 row.
Proof. by destruct row. Qed.

Lemma keptRows_spec rows : ∀ seen,
  ∃ idxs : list nat,
    StronglySorted lt idxs ∧
    (∀ i, i ∈ idxs ↔ firstNumeric rows i ∧
                      ∀ row, rows !! i = Some row → key row ∉ seen) ∧
    Forall2 (λ i out, ∃ row, rows !! i = Some row ∧ out = coerced row)
            idxs (keptRows seen rows).
Proof.
  induction rows as [|row rest IH]; intros seen; simpl.
  - exists []. split; [constructor|]. split; [|constructor].
    intros i. split; [intros H; by apply elem_of_nil in H|].
    intros [(r & Hr & _) _]. by rewrite lookup_nil in Hr.
  - destruct (isNaN (key row)) eqn:Hnan; simpl.
    + destruct (IH seen) as (idxs & Hs & Hm & Hf).
      exists (map S idxs). split; [by apply sorted_shift|]. split.
      * intros i. rewrite list_elem_of_fmap. split.
        -- intros (i' & -> & Hi'). apply Hm in Hi' as [(r & Hr & Hn & Hfst) Hseen].
           split; [|done]. exists r. split; [done|]. split; [done|].
           intros [|j] row' Hj Hrow'; simpl in Hrow'.
           ++ injection Hrow' as <-. congruence.
           ++ eapply Hfst; [|done]. lia.
        -- intros [(r & Hr & Hn & Hfst) Hseen].
           destruct i as [|i']; simpl in Hr; [injection Hr as <-; congruence|].
           exists i'. split; [done|]. apply Hm. split; [|done].
           exists r. split; [done|]. split; [done|].
           intros j row' Hj Hrow'. apply (Hfst (S j) row'); [lia|done].
      * apply Forall2_fmap_l. eapply Forall2_impl; [exact Hf|]. done.
    + destruct (bool_decide (key row ∈ seen)) eqn:Hin; simpl.
      * apply bool_decide_eq_true in Hin.
        destruct (IH seen) as (idxs & Hs & Hm & Hf).
        exists (map S idxs). split; [by apply sorted_shift|]. split.
        -- intros i. rewrite list_elem_of_fmap. split.
           ++ intros (i' & -> & Hi'). apply Hm in Hi' as [(r & Hr & Hn & Hfst) Hseen].
              split; [|done]. exists r. split; [done|]. split; [done|].
              intros [|j] row' Hj Hrow'; simpl in Hrow'.
              ** injection Hrow' as <-. intros Heq. apply (Hseen r Hr). congruence.
              ** eapply Hfst; [|done]. lia.
           ++ intros [(r & Hr & Hn & Hfst) Hseen].
              destruct i as [|i']; simpl in Hr.
              { injection Hr as <-. exfalso. by apply (Hseen row). }
              exists i'. split; [done|]. apply Hm. split; [|done].
              exists r. split; [done|]. split; [done|].
              intros j row' Hj Hrow'. apply (Hfst (S j) row'); [lia|done].
        -- apply Forall2_fmap_l. eapply Forall2_impl; [exact Hf|]. done.
      * apply bool_decide_eq_false in Hin.
        destruct (IH ({[ key row ]} ∪ seen)) as (idxs & Hs & Hm & Hf).
        exists (0%nat :: map S idxs). split; [|split].
        -- constructor; [by apply sorted_shift|].
           apply Forall_map, Forall_forall. intros; simpl; lia.
        -- intros i. rewrite elem_of_cons, list_elem_of_fmap. split.
           ++ intros [->|(i' & -> & Hi')].
              ** split.
                 --- exists row. split; [done|]. split; [done|]. intros; lia.
                 --- simpl. intros r [= <-]. done.
              ** apply Hm in Hi' as [(r & Hr & Hn & Hfst) Hseen].
                 split.
                 --- exists r. split; [done|]. split; [done|].
                     intros [|j] row' Hj Hrow'; simpl in Hrow'.
                     +++ injection Hrow' as <-. intros Heq.
                         apply (Hseen r Hr). rewrite Heq.
                         apply elem_of_union. left. by apply elem_of_singleton.
                     +++ eapply Hfst; [|done]. lia.
                 --- simpl. intros r' Hr' Hin'. apply (Hseen r' Hr').
                     apply elem_of_union. by right.
           ++ intros [(r & Hr & Hn & Hfst) Hseen].
              destruct i as [|i']; [by left|]. right. simpl in Hr.
              exists i'. split; [done|]. apply Hm. split.
              ** exists r. split; [done|]. split; [done|].
                 intros j row' Hj Hrow'. apply (Hfst (S j) row'); [lia|done].
              ** intros r' Hr'. rewrite Hr in Hr'. injection Hr' as <-.
                 rewrite elem_of_union, elem_of_singleton. intros [Heq|Hin'].
                 --- apply (Hfst 0%nat row); [lia|done|done].
                 --- by apply (Hseen r).
        -- constructor; [by exists row|].
           apply Forall2_fmap_l. eapply Forall2_impl; [exact Hf|]. done.
Qed.

(** C5. The Normalizer keeps the header row and then exactly the data rows
    that hold the first occurrence of a numeric key, in their original
    order, each with its first cell replaced by the coerced number: rows
    whose first cell does not coerce to a number and rows whose key was
    already seen are dropped. *)
Theorem normalizer_keeps_first_numeric_rows (header : Row) (rows : list Row) :
  ∃ (idxs : list nat) (kept : list Row),
    dedupe (header :: rows) = header :: kept ∧
    normalize NONE (header :: rows)
    = renameCTR (pruneColumns header :: map pruneColumns kept) ∧
    StronglySorted lt idxs ∧
    (∀ i, i ∈ idxs ↔ firstNumeric rows i) ∧
    Forall2 (λ i out, ∃ row, rows !! i = Some row ∧ out = coerced row ∧
                             at_ out 0 = CNum (Number (at_ row 0)) ∧
                             drop 1 out = drop 1 row ∧
                             length out = length row) idxs kept.
Proof.
  destruct (keptRows_spec rows ∅) as (idxs & Hs & Hm & Hf).
  assert (Hnum : ∀ i row, i ∈ idxs → rows !! i = Some row → row ≠ []).
  { intros i row Hi Hrow ->. apply Hm in Hi as [(r & Hr & Hn & _) _].
    rewrite Hrow in Hr. by injection Hr as <-. }
  exists idxs, (keptRows ∅ rows). split; [apply dedupe_cons|].
  split; [unfold normalize; simpl; by rewrite dedupe_cons|].
  split; [done|]. split.
  - intros i. rewrite Hm. split; [by intros [? _]|].
    intros H. split; [done|]. intros; set_solver.
  - apply Forall2_same_length_lookup. split; [by eapply Forall2_length|].
    intros j i out Hi Hout.
    destruct (Forall2_lookup_lr _ _ _ _ _ _ Hf Hi Hout) as (row & Hrow & ->).
    exists row. split; [done|]. split; [done|].
    pose proof (Hnum i row (list_elem_of_lookup_2 _ _ _ Hi) Hrow) as Hne.
    rewrite coerced_eq. split; [done|]. split; [done|].
    destruct row; [done|reflexivity].
Qed.

Lemma dedupe_unfold rawData :
  dedupe rawData = headerOf rawData :: keptRows ∅ (drop 1 rawData).
Proof. unfold dedupe. by rewrite dedup_fold. Qed.


Lemma keptRows_origin rows : ∀ seen,
  Forall (λ out, ∃ src, src ∈ rows ∧ isNaN (key src) = false ∧
                        (key src ∉ seen) ∧ out = coerced src)
         (keptRows seen rows).
Proof.
  induction rows as [|row rest IH]; intros seen; simpl; [constructor|].
  destruct (isNaN (key row)) eqn:Hnan; simpl.
  - eapply Forall_impl; [apply IH|]. intros out (src & ? & ? & ? & ?).
    exists src. split; [by apply list_elem_of_further|done].
  - destruct (bool_decide (key row ∈ seen)) eqn:Hin; simpl.
    + eapply Forall_impl; [apply IH|]. intros out (src & ? & ? & ? & ?).
      exists src. split; [by apply list_elem_of_further|done].
    + apply bool_decide_eq_false in Hin. constructor.
      * exists row. split; [apply list_elem_of_here|done].
      * eapply Forall_impl; [apply IH|]. intros out (src & ? & ? & Hs & ?).
        exists src. split; [by apply list_elem_of_further|].
        split; [done|]. split; [|done].
        intros ?. apply Hs. apply elem_of_union. by right.
Qed.

Lemma drop1_renameCTR t : drop 1 (renameCTR t) = drop 1 t.
Proof. destruct t as [|h rest]; simpl; [done|]. by destruct (1 <? length h)%nat. Qed.

Lemma onlyZrax_rows rawData row :
  row ∈ drop 1 (onlyZrax rawData) → row ∈ drop 1 rawData.
Proof.
  unfold onlyZrax. simpl. rewrite drop_0, list_elem_of_In, filter_In.
  intros [H _]. by apply list_elem_of_In.
Qed.

Lemma normalize_rows zf rawData :
  ∃ t, (t = rawData ∨ (zf = OZ ∧ t = onlyZrax rawData)) ∧
       normalize zf rawData
       = renameCTR (pruneColumns (headerOf t)
                    :: map pruneColumns (keptRows ∅ (drop 1 t))).
Proof.
  unfold normalize. destruct (decide (zf = OZ)) as [->|Hne].
  - exists (onlyZrax rawData). split; [by right|]. by rewrite dedupe_unfold.
  - exists rawData. split; [by left|]. by rewrite dedupe_unfold.
Qed.

(** C7 (as amended). A data row whose first cell cannot be coerced to a
    number is dropped by the Normalizer: every data row of its output is
    the pruned copy of an input data row whose first cell did coerce to a
    number, with that number as its first cell. *)
Theorem normalizer_output_rows_have_numeric_key
    (zf : ZraxFilter) (rawData : Table) (out : Row) :
  out ∈ drop 1 (normalize zf rawData) →
  ∃ src, src ∈ drop 1 rawData ∧ isNaN (key src) = false ∧
         out = pruneColumns (coerced src) ∧ at_ out 0 = CNum (key src).
Proof.
  destruct (normalize_rows zf rawData) as (t & Ht & ->).
  rewrite drop1_renameCTR. simpl. rewrite drop_0.
  intros (kept & -> & Hk)%list_elem_of_fmap.
  pose proof (keptRows_origin (drop 1 t) ∅) as Hall.
  rewrite Forall_forall in Hall.
  destruct (Hall kept Hk) as (src & Hsrc & Hn & _ & ->).
  exists src. split.
  - destruct Ht as [->|[_ ->]]; [done|by apply onlyZrax_rows].
  - split; [done|]. split; [done|].
    unfold pruneColumns, coerced, setFirst, at_. by destruct src.
Qed.

Lemma normalizer_output_rows_have_numeric_key_witness :
  [CNum (Fin 7 0)] ∈ drop 1 (normalize NONE sampleRaw) ∧
  ∃ src, src ∈ drop 1 sampleRaw ∧ isNaN (key src) = false ∧
         [CNum (Fin 7 0)] = pruneColumns (coerced src) ∧
         at_ [CNum (Fin 7 0)] 0 = CNum (key src).
Proof.
  assert (H : [CNum (Fin 7 0)] ∈ drop 1 (normalize NONE sampleRaw)).
  { vm_compute. apply list_elem_of_further, list_elem_of_here. }
  split; [exact H|].
  exact (normalizer_output_rows_have_numeric_key NONE sampleRaw _ H).
Defined.

(** The Normalizer scenario of the specification: header and rows with the keys
    5, 5, abc, 7 keep the first key-5 row and the key-7 row. *)
Example normalizer_scenario :
  dedupe sampleRaw =
  [ [CStr "Order"; CStr "Note"];
    [CNum (Fin 5 0); CStr "p"];
    [CNum (Fin 7 0); CStr "s"] ].
Proof. vm_compute. reflexivity. Qed.

(** C7 (as stated) fails: the row with first cell "abc" is a data row of
    the raw table, its first cell does not coerce to a number, and it is
    in the output neither of the key loop nor of the whole Normalizer. *)
Lemma non_numeric_row_is_removed :
  let row := [CStr "abc"; CStr "r"] in
  row ∈ drop 1 sampleRaw ∧
  isNaN (Number (at_ row 0)) = true ∧
  (row ∉ dedupe sampleRaw) ∧
  (pruneColumns row ∉ normalize NONE sampleRaw) ∧
  length (normalize NONE sampleRaw) = 3%nat.
Proof.
  simpl. split; [|split; [|split; [|split]]].
  - vm_compute. do 2 apply list_elem_of_further. apply list_elem_of_here.
  - vm_compute. reflexivity.
  - rewrite list_elem_of_In. vm_compute. intros [H|[H|[H|[]]]]; discriminate H.
  - rewrite list_elem_of_In. vm_compute. intros [H|[H|[H|[]]]]; discriminate H.
  - vm_compute. reflexivity.
Qed.

End NormalizerFacts.

(* ===================================================================== *)
(** * The lookups and the Enricher                                        *)
(* ===================================================================== *)

Module EnricherFacts.
Import Js Pipeline Spec Samples NormalizerFacts.

Lemma info_fold_lookup rows : ∀ (lk : gmap JsNum Cell) (seen : gset JsNum) k,
  (∀ k', k' ∈ seen ↔ is_Some (lk !! k')) →
  (fold_left infoStep rows (lk, seen)).1 !! k =
  match lk !! k with
  | Some v => Some v
  | None =>
      if isNaN k then None
      else (λ row, at_ row 6) <$>
           List.find (λ row, bool_decide (Number (at_ row 1) = k)) rows
  end.
Proof.
  induction rows as [|row rest IH]; intros lk seen k Hinv; simpl.
  - destruct (lk !! k); [done|]. by destruct (isNaN k).
  - set (kr := Number (at_ row 1)).
    destruct (isNaN kr) eqn:Hnan; simpl.
    { rewrite (IH lk seen k Hinv). destruct (lk !! k); [done|].
      destruct (isNaN k) eqn:Hk; [done|].
      rewrite bool_decide_eq_false_2; [done|]. intros ->. congruence. }
    destruct (bool_decide (kr ∈ seen)) eqn:Hin; simpl.
    { apply bool_decide_eq_true in Hin.
      rewrite (IH lk seen k Hinv). destruct (lk !! k) eqn:Hlk; [done|].
      destruct (isNaN k) eqn:Hk; [done|].
      rewrite bool_decide_eq_false_2; [done|]. intros ->.
      apply Hinv in Hin as [v Hv]. congruence. }
    apply bool_decide_eq_false in Hin.
    rewrite (IH (<[kr:=at_ row 6]> lk) ({[kr]} ∪ seen) k).
    + destruct (decide (kr = k)) as [<-|Hne].
      * rewrite lookup_insert_eq.
        assert (lk !! kr = None) as ->.
        { destruct (lk !! kr) eqn:E; [|done]. exfalso. apply Hin, Hinv. eauto. }
        rewrite Hnan. by rewrite bool_decide_eq_true_2.
      * rewrite lookup_insert_ne by done.
        destruct (lk !! k); [done|]. destruct (isNaN k); [done|].
        by rewrite bool_decide_eq_false_2.
    + intros k'. rewrite elem_of_union, elem_of_singleton.
      destruct (decide (kr = k')) as [<-|Hne].
      * rewrite lookup_insert_eq. split; eauto.
      * rewrite lookup_insert_ne by done. rewrite <- Hinv. split.
        -- intros [?|?]; [congruence|done].
        -- by right.
Qed.

(** The map built by step 3 is the info index of the specification. *)
Lemma buildInfoLookup_spec infoData k :
  buildInfoLookup infoData !! k = firstSeenInfo infoData k.
Proof.
  unfold buildInfoLookup, firstSeenInfo.
  rewrite (info_fold_lookup _ ∅ ∅ k).
  - by rewrite lookup_empty.
  - intros k'. rewrite lookup_empty. split; [set_solver|]. by intros [? ?].
Qed.

Lemma dup_fold rows : ∀ (s : gset JsNum) k,
  k ∈ fold_left dupStep rows s ↔
  k ∈ s ∨ (isNaN k = false ∧ ∃ row, row ∈ rows ∧ Number (at_ row 6) = k).
Proof.
  induction rows as [|row rest IH]; intros s k; simpl.
  - split; [auto|]. intros [?|(_ & r & Hr & _)]; [done|]. by apply elem_of_nil in Hr.
  - rewrite IH. unfold dupStep.
    destruct (isNaN (Number (at_ row 6))) eqn:Hnan; simpl.
    + split.
      * intros [?|(? & r & ? & ?)]; [by left|]. right. split; [done|].
        exists r. split; [by apply list_elem_of_further|done].
      * intros [?|(Hk & r & Hr & Hkr)]; [by left|].
        apply elem_of_cons in Hr as [->|Hr]; [congruence|]. right. eauto.
    + rewrite elem_of_union, elem_of_singleton. split.
      * intros [[->|?]|(? & r & ? & ?)].
        -- right. split; [done|]. exists row. split; [apply list_elem_of_here|done].
        -- by left.
        -- right. split; [done|]. exists r. split; [by apply list_elem_of_further|done].
      * intros [?|(Hk & r & Hr & Hkr)]; [by left; right|].
        apply elem_of_cons in Hr as [->|Hr]; [by left; left|]. right. eauto.
Qed.

(** The set built by step 4 is the duplicate index of the specification. *)
Lemma buildDupLookup_spec dupData k :
  k ∈ buildDupLookup dupData ↔ inDuplicates dupData k.
Proof.
  unfold buildDupLookup, inDuplicates. rewrite dup_fold. split.
  - intros [H|H]; [set_solver|done].
  - by right.
Qed.

Lemma inDuplicatesb_true dupData k :
  inDuplicatesb dupData k = true ↔ inDuplicates dupData k.
Proof.
  unfold inDuplicatesb, inDuplicates.
  rewrite andb_true_iff, negb_true_iff, existsb_exists.
  split; intros [Hn (row & Hr & Hk)]; (split; [done|]); exists row.
  - split; [by apply list_elem_of_In|]. by apply bool_decide_eq_true in Hk.
  - split; [by apply list_elem_of_In|]. by apply bool_decide_eq_true.
Qed.

Lemma inDuplicatesb_spec dupData k :
  bool_decide (k ∈ buildDupLookup dupData) = inDuplicatesb dupData k.
Proof.
  destruct (inDuplicatesb dupData k) eqn:E.
  - apply bool_decide_eq_true, buildDupLookup_spec, inDuplicatesb_true, E.
  - apply bool_decide_eq_false. rewrite buildDupLookup_spec, <- inDuplicatesb_true.
    congruence.
Qed.

(** One data row of step 5, against the two indexes of the specification. *)
Lemma enrichRow_data infoData dupData (n : nat) (row : Row) :
  enrichRow (buildInfoLookup infoData) (buildDupLookup dupData) (S n) row
  = row ++ [infoCell infoData (at_ row 0); dupResult dupData (at_ row 0)].
Proof.
  unfold enrichRow. f_equal. f_equal; [|f_equal].
  - unfold mapGet, infoCell. destruct (at_ row 0) as [| k | | |]; try done.
    rewrite buildInfoLookup_spec.
    destruct (firstSeenInfo infoData k) as [[| | | |]|]; reflexivity.
  - unfold setHas, dupResult. destruct (at_ row 0); try done.
    by rewrite inDuplicatesb_spec.
Qed.

Lemma enrich_cons infoLookup dupLookup (header : Row) (rows : list Row) :
  enrich infoLookup dupLookup (header :: rows)
  = (header ++ [CStr "Info_VLOOKUP"; CStr "Dup_VLOOKUP"])
    :: map (enrichRow infoLookup dupLookup 1) rows.
Proof.
  unfold enrich. rewrite imap_cons. simpl. f_equal.
  transitivity (imap (λ _, enrichRow infoLookup dupLookup 1) rows).
  - apply imap_ext. intros i row _. reflexivity.
  - apply imap_const.
Qed.

Lemma normalize_nonempty zf rawData :
  ∃ header rows, normalize zf rawData = header :: rows.
Proof.
  destruct (normalize_rows zf rawData) as (t & _ & ->). unfold renameCTR.
  destruct (1 <? length (pruneColumns (headerOf t)))%nat; eauto.
Qed.

(** C4 (as stated) fails: the info sheet below has no column G.  Key 5 is
    in the info index, the column-G value first seen for it is
    [undefined], and the cell appended to the row of key 5 is the text
    "#N/A", not that value. *)
Lemma info_value_without_column_G_is_not_appended :
  let infoData := [ [CStr "A"; CStr "B"]; [CStr "x"; CNum (Fin 5 0)] ] in
  is_Some (buildInfoLookup infoData !! Fin 5 0) ∧
  firstSeenInfo infoData (Fin 5 0) = Some CUndef ∧
  runInitialProcessing (book "Sheet1" rawSheet) (book "Sheet3" infoData)
    (book "Master Hold Report" dupSheet) NONE
  = inr [ [CStr "Order"; CStr "CTR"; CStr "Z"; CStr "Info_VLOOKUP"; CStr "Dup_VLOOKUP"];
          [CNum (Fin 5 0); CStr "h1"; CStr "p"; CStr "#N/A"; CStr "#N/A"];
          [CNum (Fin 7 0); CStr "h4"; CStr "s"; CStr "#N/A"; CNum (Fin 7 0)];
          [CNum (Fin 0 0); CStr "h5"; CStr "t"; CStr "#N/A"; CStr "#N/A"] ].
Proof. split; [by eexists|]. split; vm_compute; reflexivity. Qed.

(** C4 (as amended). Enrichment appends to every data row of the
    normalized table exactly two trailing cells: the first-seen column-G
    value of the row's key in the info table, or "#N/A" when the key is
    not in the info index or that value is [undefined] or [null]; then
    the key itself when it is in the duplicate index, or "#N/A".  The
    header row gains the labels "Info_VLOOKUP" and "Dup_VLOOKUP". *)
Theorem enricher_appends_the_two_lookup_cells
    (rawWb infoWb dupWb : Workbook) (zf : ZraxFilter)
    (rawData infoData dupData : Table) :
  sheet rawWb (head (SheetNames rawWb)) = Some rawData →
  usableSheet infoWb "sheet3" = Some infoData →
  usableSheet dupWb "master hold report" = Some dupData →
  ∃ header rows,
    normalize zf rawData = header :: rows ∧
    runInitialProcessing rawWb infoWb dupWb zf
    = inr ((header ++ [CStr "Info_VLOOKUP"; CStr "Dup_VLOOKUP"])
           :: map (λ row, row ++ [infoCell infoData (at_ row 0);
                                   dupResult dupData (at_ row 0)]) rows).
Proof.
  intros Hraw Hinfo Hdup.
  destruct (normalize_nonempty zf rawData) as (header & rows & Hn).
  exists header, rows. split; [done|].
  unfold runInitialProcessing. rewrite Hraw, Hinfo, Hdup, Hn, enrich_cons.
  do 2 f_equal. apply map_ext. intros row. by apply enrichRow_data.
Qed.

Lemma enricher_appends_the_two_lookup_cells_witness :
  ∃ header rows,
    normalize NONE rawSheet = header :: rows ∧
    runInitialProcessing (book "Sheet1" rawSheet) (book "Sheet3" infoSheet)
      (book "Master Hold Report" dupSheet) NONE
    = inr ((header ++ [CStr "Info_VLOOKUP"; CStr "Dup_VLOOKUP"])
           :: map (λ row, row ++ [infoCell infoSheet (at_ row 0);
                                   dupResult dupSheet (at_ row 0)]) rows).
Proof.
  apply (enricher_appends_the_two_lookup_cells
           (book "Sheet1" rawSheet) (book "Sheet3" infoSheet)
           (book "Master Hold Report" dupSheet) NONE rawSheet infoSheet dupSheet).
  - vm_compute. reflexivity.
  - vm_compute. reflexivity.
  - vm_compute. reflexivity.
Defined.

(** The scenarios of the specification on these workbooks: key 5 gets the
    first-seen info value, key 7 is found in the duplicate table, key 0
    (the blank cell) is in neither. *)
Example enricher_scenario :
  runInitialProcessing (book "Sheet1" rawSheet) (book "Sheet3" infoSheet)
    (book "Master Hold Report" dupSheet) NONE
  = inr [ [CStr "Order"; CStr "CTR"; CStr "Z"; CStr "Info_VLOOKUP"; CStr "Dup_VLOOKUP"];
          [CNum (Fin 5 0); CStr "h1"; CStr "p"; CStr "cn-1"; CStr "#N/A"];
          [CNum (Fin 7 0); CStr "h4"; CStr "s"; CStr "#N/A"; CNum (Fin 7 0)];
          [CNum (Fin 0 0); CStr "h5"; CStr "t"; CStr "#N/A"; CStr "#N/A"] ].
Proof. vm_compute. reflexivity. Qed.

(** C9 (as amended). The initial processing step fails with the error
    "Raw Data file is empty or corrupted." exactly when the raw workbook
    has no first worksheet; a worksheet that is there but has no rows at
    all does not raise it. *)
Theorem raw_error_iff_no_first_worksheet
    (rawWb infoWb dupWb : Workbook) (zf : ZraxFilter) :
  runInitialProcessing rawWb infoWb dupWb zf = inl RawEmptyOrCorrupted
  ↔ sheet rawWb (head (SheetNames rawWb)) = None.
Proof.
  unfold runInitialProcessing.
  destruct (sheet rawWb (head (SheetNames rawWb))) as [rawData|]; [|done].
  destruct (usableSheet infoWb "sheet3"); [|split; discriminate].
  destruct (usableSheet dupWb "master hold report"); split; discriminate.
Qed.

(** C9 (as stated) fails: the raw table has no header and no rows at all,
    and the step returns a table of one row instead of failing. *)
Lemma empty_raw_table_is_not_an_error :
  sheet (book "Sheet1" []) (head (SheetNames (book "Sheet1" []))) = Some [] ∧
  runInitialProcessing (book "Sheet1" []) (book "Sheet3" infoSheet)
    (book "Master Hold Report" dupSheet) NONE
  = inr [ [CUndef; CStr "Info_VLOOKUP"; CStr "Dup_VLOOKUP"] ].
Proof. split; vm_compute; reflexivity. Qed.




(** Blank first cells on a table: the blank row is kept with key 0; the rows holding 0
    and a lone space, which coerce to 0 as well, are dropped. *)
Example blank_first_cell_scenario :
  dedupe [ wide (CStr "Order") "Centre" "Z";
           wide (CStr "7") "h4" "s";
           wide (CStr "") "h5" "t";
           wide (CNum (Fin 0 0)) "h6" "u";
           wide (CStr " ") "h7" "v" ]
  = [ wide (CStr "Order") "Centre" "Z";
      wide (CNum (Fin 7 0)) "h4" "s";
      wide (CNum (Fin 0 0)) "h5" "t" ].
Proof. vm_compute. reflexivity. Qed.

End EnricherFacts.

(* ===================================================================== *)
(** * Filter, Categorizer and Assignment Engine                          *)
(* ===================================================================== *)

Module AssignmentFacts.
Import Js Pipeline Spec Samples.

Lemma categorizeStep_branch codes idx b row :
  categorizeStep codes idx b row =
  match branchOf codes idx row with
  | CN => {| cnRows := cnRows b ++ [row]; jpRows := jpRows b;
             specialRows := specialRows b; generalRows := generalRows b |}
  | JP => {| cnRows := cnRows b; jpRows := jpRows b ++ [row];
             specialRows := specialRows b; generalRows := generalRows b |}
  | SPECIAL => {| cnRows := cnRows b; jpRows := jpRows b;
                  specialRows := specialRows b ++ [row];
                  generalRows := generalRows b |}
  | GENERAL => {| cnRows := cnRows b; jpRows := jpRows b;
                  specialRows := specialRows b;
                  generalRows := generalRows b ++ [row] |}
  end.
Proof.
  unfold categorizeStep, branchOf.
  destruct (includes (infoValueOf idx row) "CN"); [done|].
  destruct (includes (infoValueOf idx row) "JP"); [done|].
  by destruct (existsb (λ code, includes (infoValueOf idx row) code) codes).
Qed.

Lemma only_cons codes idx c row rest :
  only codes idx c (row :: rest)
  = if bool_decide (branchOf codes idx row = c) then row :: only codes idx c rest
    else only codes idx c rest.
Proof. reflexivity. Qed.

(** The loop over the rows, for any set of codes: four stable filters. *)
Lemma categorize_fold codes idx rows : ∀ b,
  fold_left (categorizeStep codes idx) rows b
  = {| cnRows := cnRows b ++ only codes idx CN rows;
       jpRows := jpRows b ++ only codes idx JP rows;
       specialRows := specialRows b ++ only codes idx SPECIAL rows;
       generalRows := generalRows b ++ only codes idx GENERAL rows |}.
Proof.
  induction rows as [|row rest IH]; intros [cn jp sp ge].
  - simpl. by rewrite !app_nil_r.
  - cbn [fold_left]. rewrite IH, categorizeStep_branch, !only_cons.
    destruct (branchOf codes idx row); simpl; by rewrite <- app_assoc.
Qed.

(** A cell that is not truthy upper-cases to a text without any code, so
    the guard [row[i] ? ... : ''] does not change the bucket. *)
Lemma branchOf_spec idx row : branchOf specialCodes idx row = bucketOfRow idx row.
Proof.
  unfold branchOf, bucketOfRow, infoValueOf, bucketOf, specialCodes.
  destruct (truthy (at_ row idx)) eqn:Ht; [done|].
  destruct (at_ row idx) as [s|[| |m e]|[]| |]; simpl in Ht; try done.
  - apply negb_false_iff, bool_decide_eq_true in Ht. by subst s.
  - apply negb_false_iff, Z.eqb_eq in Ht. by subst m.
Qed.

Lemma only_spec idx c rows : only specialCodes idx c rows = bucketRows idx c rows.
Proof.
  unfold only, bucketRows. apply filter_ext. intros row.
  by rewrite branchOf_spec.
Qed.

Lemma categorize_spec idx rows :
  categorize specialCodes idx rows
  = {| cnRows := bucketRows idx CN rows;
       jpRows := bucketRows idx JP rows;
       specialRows := bucketRows idx SPECIAL rows;
       generalRows := bucketRows idx GENERAL rows |}.
Proof. unfold categorize. rewrite categorize_fold. simpl. by rewrite !only_spec. Qed.

Lemma bucketRows_length idx rows :
  (length (bucketRows idx CN rows) + length (bucketRows idx JP rows)
   + length (bucketRows idx SPECIAL rows) + length (bucketRows idx GENERAL rows)
   = length rows)%nat.
Proof.
  unfold bucketRows. induction rows as [|row rest IH]; simpl; [done|].
  destruct (bucketOfRow idx row); simpl; lia.
Qed.

Lemma bucketRows_perm idx rows :
  Permutation
    (bucketRows idx CN rows ++ bucketRows idx JP rows
     ++ bucketRows idx SPECIAL rows ++ bucketRows idx GENERAL rows) rows.
Proof.
  unfold bucketRows. induction rows as [|row rest IH]; simpl; [done|].
  destruct (bucketOfRow idx row); simpl.
  - by constructor.
  - rewrite <- Permutation_middle. by constructor.
  - rewrite app_assoc, <- Permutation_middle, <- app_assoc. by constructor.
  - rewrite !app_assoc, <- Permutation_middle, <- !app_assoc. by constructor.
Qed.

(** The earlier processor knows five codes only: a value such as "CU" is
    SPECIAL for the nine codes and GENERAL for the five. *)
Example earlier_code_set :
  branchOf specialCodes 0 [CStr "cu"] = SPECIAL ∧
  branchOf Heap.Aliasing.specialCodes 0 [CStr "cu"] = GENERAL ∧
  branchOf Heap.Aliasing.specialCodes 0 [CStr "Peru"] = SPECIAL.
Proof. vm_compute. repeat split. Qed.

(** The tie-breaks of the priority order, and a few values. *)
Example bucket_examples :
  bucketOf "CN-JP" = CN ∧ bucketOf "JP/RU" = JP ∧ bucketOf "PERU" = SPECIAL ∧
  bucketOf "SYRIA" = SPECIAL ∧ bucketOf "#N/A" = GENERAL ∧ bucketOf "" = GENERAL.
Proof. vm_compute. repeat split. Qed.

(** ** The Assignment Engine *)

Lemma nameAt_mod names i :
  names ≠ [] →
  ∃ name, names !! (i mod length names)%nat = Some name ∧
          nameAt names (i mod length names) = CStr name.
Proof.
  intros Hne. unfold nameAt.
  destruct (lookup_lt_is_Some_2 names (i mod length names)) as [name Hname].
  - apply Nat.mod_upper_bound. by destruct names.
  - exists name. by rewrite Hname.
Qed.

Lemma assignNames_length names sentinel rows :
  length (assignNames names sentinel rows) = length rows.
Proof.
  unfold assignNames. destruct (0 <? length names)%nat.
  - apply length_imap.
  - apply length_map.
Qed.

Lemma assignNames_empty sentinel rows i row :
  rows !! i = Some row →
  assignNames [] sentinel rows !! i = Some (CStr sentinel :: row).
Proof.
  intros Hrow. unfold assignNames. simpl.
  change (map ?f rows) with (f <$> rows). by rewrite list_lookup_fmap, Hrow.
Qed.

Lemma assignNames_cyclic names sentinel rows i row :
  names ≠ [] →
  rows !! i = Some row →
  ∃ name, names !! (i mod length names)%nat = Some name ∧
          assignNames names sentinel rows !! i = Some (CStr name :: row).
Proof.
  intros Hne Hrow. destruct (nameAt_mod names i Hne) as (name & Hname & Hat).
  exists name. split; [done|]. unfold assignNames.
  assert ((0 <? length names)%nat = true) as ->.
  { apply Nat.ltb_lt. destruct names; [done|simpl; lia]. }
  by rewrite list_lookup_imap, Hrow, <- Hat.
Qed.

Lemma processAndAssign_spec header a rows idx :
  findIndex (isLabel "Info_VLOOKUP") header = Some idx →
  processAndAssign header a rows
  = inr (assignNames (namesFor a CN) (sentinelFor CN) (bucketRows idx CN rows)
         ++ assignNames (namesFor a JP) (sentinelFor JP) (bucketRows idx JP rows)
         ++ assignNames (namesFor a SPECIAL) (sentinelFor SPECIAL)
              (bucketRows idx SPECIAL rows)
         ++ assignNames (namesFor a GENERAL) (sentinelFor GENERAL)
              (bucketRows idx GENERAL rows)).
Proof.
  intros Hidx. unfold processAndAssign. rewrite Hidx, categorize_spec. reflexivity.
Qed.

(** C1. Within each bucket, the row at position [i] gets the owner
    [names[i mod m]] of the bucket's list of [m > 0] names, prepended as a
    new first cell, the rows keeping their relative order; with an empty
    list every row of the bucket gets the bucket's sentinel. *)
Theorem assignment_is_round_robin
    (header : Row) (a : Assignees) (rows : list Row) (idx : nat) :
  findIndex (isLabel "Info_VLOOKUP") header = Some idx →
  ∃ seg : Bucket → list Row,
    processAndAssign header a rows
    = inr (seg CN ++ seg JP ++ seg SPECIAL ++ seg GENERAL) ∧
    ∀ c, length (seg c) = length (bucketRows idx c rows) ∧
         ∀ i row, bucketRows idx c rows !! i = Some row →
           match namesFor a c with
           | [] => seg c !! i = Some (CStr (sentinelFor c) :: row)
           | _ :: _ =>
               ∃ name,
                 namesFor a c !! (i mod length (namesFor a c))%nat = Some name ∧
                 seg c !! i = Some (CStr name :: row)
           end.
Proof.
  intros Hidx.
  exists (λ c, assignNames (namesFor a c) (sentinelFor c) (bucketRows idx c rows)).
  split; [by apply processAndAssign_spec|].
  intros c. split; [apply assignNames_length|].
  intros i row Hrow. destruct (namesFor a c) as [|n ns] eqn:Hnames.
  - by apply assignNames_empty.
  - by apply assignNames_cyclic.
Qed.

Lemma assignment_is_round_robin_witness :
  ∃ seg : Bucket → list Row,
    processAndAssign (headerOf processedSheet) team (drop 1 processedSheet)
    = inr (seg CN ++ seg JP ++ seg SPECIAL ++ seg GENERAL) ∧
    ∀ c, length (seg c) = length (bucketRows 2 c (drop 1 processedSheet)) ∧
         ∀ i row, bucketRows 2 c (drop 1 processedSheet) !! i = Some row →
           match namesFor team c with
           | [] => seg c !! i = Some (CStr (sentinelFor c) :: row)
           | _ :: _ =>
               ∃ name,
                 namesFor team c !! (i mod length (namesFor team c))%nat = Some name ∧
                 seg c !! i = Some (CStr name :: row)
           end.
Proof.
  apply (assignment_is_round_robin (headerOf processedSheet) team
           (drop 1 processedSheet) 2).
  vm_compute. reflexivity.
Defined.

(** The round-robin scenario of the specification: a CN bucket of three rows and
    the list Alice, Bob gives Alice, Bob, Alice. *)
Example round_robin_scenario :
  assignNames ["Alice"; "Bob"] "UNASSIGNED_CN"
    [ [CNum (Fin 1 0)]; [CNum (Fin 3 0)]; [CNum (Fin 8 0)] ]
  = [ [CStr "Alice"; CNum (Fin 1 0)];
      [CStr "Bob"; CNum (Fin 3 0)];
      [CStr "Alice"; CNum (Fin 8 0)] ] ∧
  assignNames [] "UNASSIGNED_GENERAL" [ [CNum (Fin 9 0)] ]
  = [ [CStr "UNASSIGNED_GENERAL"; CNum (Fin 9 0)] ].
Proof. vm_compute. split; reflexivity. Qed.

(** ** The duplicate filter *)

Lemma strictEq_string c s : strictEq c (CStr s) = bool_decide (c = CStr s).
Proof.
  destruct c as [| [| |] | | |]; try reflexivity.
Qed.

Lemma assignNames_tails names sentinel rows :
  map (drop 1) (assignNames names sentinel rows) = rows.
Proof.
  unfold assignNames. destruct (0 <? length names)%nat.
  - change (map ?f ?l) with (f <$> l). rewrite fmap_imap.
    transitivity (imap (const id) rows); [by apply imap_ext|].
    rewrite imap_const. apply list_fmap_id.
  - rewrite map_map. simpl. apply map_id.
Qed.

Lemma processAndAssign_tails header a rows out :
  processAndAssign header a rows = inr out →
  Permutation (map (drop 1) out) rows.
Proof.
  unfold processAndAssign.
  destruct (findIndex (isLabel "Info_VLOOKUP") header) as [idx|]; [|done].
  intros [= <-]. rewrite categorize_spec. simpl.
  rewrite !map_app, !assignNames_tails. apply bucketRows_perm.
Qed.

Lemma zrax_fold rows : ∀ z o,
  fold_left zraxStep rows (z, o)
  = (z ++ List.filter isZrax rows, o ++ List.filter (λ row, negb (isZrax row)) rows).
Proof.
  induction rows as [|row rest IH]; intros z o; simpl.
  - by rewrite !app_nil_r.
  - destruct (isZrax row); simpl; rewrite IH; by rewrite <- app_assoc.
Qed.

Lemma filter_split_perm {A} (p : A → bool) (l : list A) :
  Permutation (List.filter p l ++ List.filter (λ x, negb (p x)) l) l.
Proof.
  induction l as [|x l IH]; simpl; [done|].
  destruct (p x); simpl.
  - by constructor.
  - rewrite <- Permutation_middle. by constructor.
Qed.

Lemma assignAll_tails header a zf rows out :
  assignAll header a zf rows = inr out →
  Permutation (map (drop 1) out) rows.
Proof.
  unfold assignAll. destruct (decide (zf = ZOP)) as [_|_].
  - rewrite zrax_fold. simpl.
    destruct (processAndAssign header a (List.filter isZrax rows))
      as [|o1] eqn:H1; [done|].
    destruct (processAndAssign header a (List.filter (λ row, negb (isZrax row)) rows))
      as [|o2] eqn:H2; [done|].
    intros [= <-]. rewrite map_app.
    rewrite (processAndAssign_tails _ _ _ _ H1), (processAndAssign_tails _ _ _ _ H2).
    apply filter_split_perm.
  - apply processAndAssign_tails.
Qed.

(** What a successful run of the step returns. *)
Lemma assign_inversion_with collate processedData a zf out :
  assignAndGenerateExcelWith collate processedData a zf = inr out →
  (drop 1 processedData = [] ∧ finalSheetData out = [headerOf processedData] ∧
   pivotData out = [])
  ∨ ∃ dupIdx assigned hdr (final : Row → Row),
      findIndex (isLabel "Dup_VLOOKUP") (headerOf processedData) = Some dupIdx ∧
      assignAll (headerOf processedData) a zf
        (List.filter (λ row, bool_decide (at_ row dupIdx = CStr "#N/A"))
           (drop 1 processedData)) = inr assigned ∧
      finalSheetData out = hdr :: map final assigned ∧
      pivotData out = pivotWith collate assigned ∧
      (final = id ∨ ∃ ctr, final = spliceOut (S ctr)).
Proof.
  unfold assignAndGenerateExcelWith.
  destruct (length processedData <? 2)%nat eqn:Hlen.
  { intros [= <-]. left. apply Nat.ltb_lt in Hlen.
    split; [|done]. destruct processedData as [|h [|r rest]]; simpl in *; [done|done|lia]. }
  destruct (findIndex (isLabel "Dup_VLOOKUP") (headerOf processedData))
    as [dupIdx|]; [|done].
  erewrite (filter_ext _ (λ row, bool_decide (at_ row dupIdx = CStr "#N/A")));
    [|intros row; apply strictEq_string].
  destruct (assignAll _ a zf _) as [|assigned] eqn:Hall; [done|].
  destruct (findIndex (isLabel "CTR") (headerOf processedData)) as [ctr|];
    intros [= <-]; right.
  - exists dupIdx, assigned, (CStr "Screener" :: spliceOut ctr (headerOf processedData)),
      (spliceOut (S ctr)).
    split; [done|]. split; [done|]. simpl. rewrite Nat.add_1_r.
    split; [done|]. split; [done|]. right. by exists ctr.
  - exists dupIdx, assigned, (CStr "Screener" :: headerOf processedData), id.
    split; [done|]. split; [done|]. simpl. rewrite map_id.
    split; [done|]. split; [done|]. by left.
Qed.

Lemma assign_inversion processedData a zf out :
  assignAndGenerateExcel processedData a zf = inr out →
  (drop 1 processedData = [] ∧ finalSheetData out = [headerOf processedData] ∧
   pivotData out = [])
  ∨ ∃ dupIdx assigned hdr (final : Row → Row),
      findIndex (isLabel "Dup_VLOOKUP") (headerOf processedData) = Some dupIdx ∧
      assignAll (headerOf processedData) a zf
        (List.filter (λ row, bool_decide (at_ row dupIdx = CStr "#N/A"))
           (drop 1 processedData)) = inr assigned ∧
      finalSheetData out = hdr :: map final assigned ∧
      pivotData out = pivotOf assigned ∧
      (final = id ∨ ∃ ctr, final = spliceOut (S ctr)).
Proof. apply assign_inversion_with. Qed.

(** C3. The assignment step retains a data row of the enriched table if
    and only if its Dup_VLOOKUP cell is the string "#N/A": the assigned
    rows, less their owner cell, are a rearrangement of exactly those
    rows, and the final sheet holds the assigned rows (less the CTR
    column).  A row whose Dup_VLOOKUP cell holds its key, a number, is
    in neither. *)
Theorem only_rows_without_duplicate_are_assigned
    (header : Row) (dataRows : list Row) (a : Assignees) (zf : ZraxFilter)
    (dupIdx : nat) (out : Assigned) :
  findIndex (isLabel "Dup_VLOOKUP") header = Some dupIdx →
  assignAndGenerateExcel (header :: dataRows) a zf = inr out →
  ∃ (assigned : list Row) (final : Row → Row),
    drop 1 (finalSheetData out) = map final assigned ∧
    (final = id ∨ ∃ ctr, final = spliceOut (S ctr)) ∧
    Permutation (map (drop 1) assigned)
      (List.filter (λ row, bool_decide (at_ row dupIdx = CStr "#N/A")) dataRows) ∧
    (∀ row, row ∈ map (drop 1) assigned
            ↔ row ∈ dataRows ∧ at_ row dupIdx = CStr "#N/A") ∧
    (∀ row k, at_ row dupIdx = CNum k → row ∉ map (drop 1) assigned).
Proof.
  intros Hdup Hrun.
  apply assign_inversion in Hrun
    as [(Hnil & Hfin & _)|(dupIdx' & assigned & hdr & final & Hd & Hall & Hfin & _ & Hfinal)].
  - simpl in Hnil. rewrite drop_0 in Hnil. subst dataRows.
    exists [], id. rewrite Hfin. simpl. split; [done|]. split; [by left|].
    split; [done|]. split.
    + intros row. split; [by intros H%elem_of_nil|by intros [H%elem_of_nil _]].
    + intros row k _ H%elem_of_nil. done.
  - simpl in Hd, Hall. rewrite drop_0 in Hall.
    assert (dupIdx' = dupIdx) as -> by congruence.
    apply assignAll_tails in Hall.
    assert (Hmem : ∀ row, row ∈ map (drop 1) assigned
                          ↔ row ∈ dataRows ∧ at_ row dupIdx = CStr "#N/A").
    { intros row. rewrite !list_elem_of_In.
      rewrite (Permutation_in' (eq_refl row) Hall).
      rewrite filter_In, bool_decide_eq_true. reflexivity. }
    exists assigned, final. rewrite Hfin. simpl. rewrite drop_0.
    split; [done|]. split; [done|]. split; [done|]. split; [done|].
    intros row k Hk [_ Hna]%Hmem. congruence.
Qed.

Lemma only_rows_without_duplicate_are_assigned_witness :
  ∃ (assigned : list Row) (final : Row → Row),
    drop 1 (finalSheetData
              {| finalSheetData :=
                   [ [CStr "Screener"; CStr "Order"; CStr "Info_VLOOKUP"; CStr "Dup_VLOOKUP"];
                     [CStr "Alice"; CNum (Fin 1 0); CStr "cn-x"; CStr "#N/A"];
                     [CStr "Bob"; CNum (Fin 3 0); CStr "Cn/Jp"; CStr "#N/A"];
                     [CStr "Alice"; CNum (Fin 8 0); CStr "China CN"; CStr "#N/A"];
                     [CStr "UNASSIGNED_JP"; CNum (Fin 2 0); CStr "jp"; CStr "#N/A"];
                     [CStr "alice"; CNum (Fin 9 0); CStr "#N/A"; CStr "#N/A"] ];
                 pivotData :=
                   [("alice", 1%nat); ("Alice", 2%nat); ("Bob", 1%nat);
                    ("UNASSIGNED_JP", 1%nat)] |})
    = map final assigned ∧
    (final = id ∨ ∃ ctr, final = spliceOut (S ctr)) ∧
    Permutation (map (drop 1) assigned)
      (List.filter (λ row, bool_decide (at_ row 3 = CStr "#N/A"))
         (drop 1 processedSheet)) ∧
    (∀ row, row ∈ map (drop 1) assigned
            ↔ row ∈ drop 1 processedSheet ∧ at_ row 3 = CStr "#N/A") ∧
    (∀ row k, at_ row 3 = CNum k → row ∉ map (drop 1) assigned).
Proof.
  apply (only_rows_without_duplicate_are_assigned
           (headerOf processedSheet) (drop 1 processedSheet) team NONE 3).
  - vm_compute. reflexivity.
  - vm_compute. reflexivity.
Defined.

(** The filter scenario of the specification: the row of key 7, found in the
    duplicate table, is not in the final sheet. *)
Example duplicate_filter_scenario :
  assignAndGenerateExcel processedSheet team NONE
  = inr {| finalSheetData :=
             [ [CStr "Screener"; CStr "Order"; CStr "Info_VLOOKUP"; CStr "Dup_VLOOKUP"];
               [CStr "Alice"; CNum (Fin 1 0); CStr "cn-x"; CStr "#N/A"];
               [CStr "Bob"; CNum (Fin 3 0); CStr "Cn/Jp"; CStr "#N/A"];
               [CStr "Alice"; CNum (Fin 8 0); CStr "China CN"; CStr "#N/A"];
               [CStr "UNASSIGNED_JP"; CNum (Fin 2 0); CStr "jp"; CStr "#N/A"];
               [CStr "alice"; CNum (Fin 9 0); CStr "#N/A"; CStr "#N/A"] ];
           pivotData :=
             [("alice", 1%nat); ("Alice", 2%nat); ("Bob", 1%nat);
              ("UNASSIGNED_JP", 1%nat)] |}.
Proof. vm_compute. reflexivity. Qed.

(** ** The Aggregator *)

Lemma mapGetCount_mapSet m k v k' :
  mapGetCount (mapSet m k v) k'
  = if decide (k = k') then Some v else mapGetCount m k'.
Proof.
  induction m as [|[k0 v0] m IH]; simpl.
  - destruct (decide (k = k')); done.
  - destruct (decide (k0 = k)) as [->|Hne]; simpl.
    + destruct (decide (k = k')); done.
    + rewrite IH. destruct (decide (k0 = k')) as [->|]; [|done].
      by rewrite decide_False.
Qed.

Lemma mapSet_keys m k v k' :
  k' ∈ map fst (mapSet m k v) ↔ k' = k ∨ k' ∈ map fst m.
Proof.
  induction m as [|[k0 v0] m IH]; simpl.
  - rewrite list_elem_of_singleton, elem_of_nil. tauto.
  - destruct (decide (k0 = k)) as [->|Hne]; simpl.
    + rewrite !elem_of_cons. tauto.
    + rewrite !elem_of_cons, IH. tauto.
Qed.

Lemma mapSet_NoDup m k v :
  NoDup (map fst m) → NoDup (map fst (mapSet m k v)).
Proof.
  induction m as [|[k0 v0] m IH]; simpl.
  - intros _. apply NoDup_singleton.
  - rewrite NoDup_cons. intros [Hk0 Hnd].
    destruct (decide (k0 = k)) as [->|Hne]; simpl.
    + by apply NoDup_cons.
    + apply NoDup_cons. split; [|by apply IH].
      rewrite mapSet_keys. intros [?|?]; done.
Qed.

Lemma mapSet_total m k v :
  (sum_list (map snd (mapSet m k v)) + getCount m k
   = sum_list (map snd m) + v)%nat.
Proof.
  unfold getCount. induction m as [|[k0 v0] m IH]; simpl; [lia|].
  destruct (decide (k0 = k)) as [->|Hne]; simpl; lia.
Qed.

Lemma mapGetCount_elem m k n :
  NoDup (map fst m) → (k, n) ∈ m ↔ mapGetCount m k = Some n.
Proof.
  induction m as [|[k0 v0] m IH]; simpl.
  - intros _. rewrite elem_of_nil. split; done.
  - rewrite NoDup_cons. intros [Hk0 Hnd]. rewrite elem_of_cons.
    destruct (decide (k0 = k)) as [->|Hne].
    + split; [|intros [= ->]; by left].
      intros [[= ->]|Hin]; [done|]. exfalso. apply Hk0.
      apply list_elem_of_fmap. by exists (k, n).
    + rewrite <- IH by done. split; [|by right].
      intros [[= -> ->]|?]; done.
Qed.

Lemma tallyStep_count m row k :
  getCount (tallyStep m row) k
  = (getCount m k + if decide (asString (at_ row 0) = k) then 1 else 0)%nat.
Proof.
  unfold tallyStep, getCount. rewrite mapGetCount_mapSet.
  destruct (decide (asString (at_ row 0) = k)) as [->|]; simpl; lia.
Qed.

Lemma tallyStep_some m row k :
  is_Some (mapGetCount (tallyStep m row) k)
  ↔ is_Some (mapGetCount m k) ∨ asString (at_ row 0) = k.
Proof.
  unfold tallyStep. rewrite mapGetCount_mapSet.
  destruct (decide (asString (at_ row 0) = k)) as [->|].
  - split; [by right|eauto].
  - tauto.
Qed.

Lemma tallyStep_total m row :
  sum_list (map snd (tallyStep m row)) = (sum_list (map snd m) + 1)%nat.
Proof.
  unfold tallyStep.
  pose proof (mapSet_total m (asString (at_ row 0))
                (default 0%nat (mapGetCount m (asString (at_ row 0))) + 1)) as H.
  unfold getCount in H. lia.
Qed.

Lemma tallied_cons k row rest :
  tallied k (row :: rest)
  = ((if decide (asString (at_ row 0) = k) then 1 else 0) + tallied k rest)%nat.
Proof.
  unfold tallied. cbn [List.filter].
  destruct (decide (asString (at_ row 0) = k)) as [Heq|Hne].
  - by rewrite (bool_decide_eq_true_2 _ Heq).
  - by rewrite (bool_decide_eq_false_2 _ Hne).
Qed.

Lemma tally_spec rows : ∀ m,
  NoDup (map fst m) →
  NoDup (map fst (fold_left tallyStep rows m)) ∧
  (∀ k, getCount (fold_left tallyStep rows m) k = getCount m k + tallied k rows)%nat ∧
  (∀ k, is_Some (mapGetCount (fold_left tallyStep rows m) k)
        ↔ is_Some (mapGetCount m k) ∨ (0 < tallied k rows)%nat) ∧
  (sum_list (map snd (fold_left tallyStep rows m))
   = sum_list (map snd m) + length rows)%nat.
Proof.
  induction rows as [|row rest IH]; intros m Hnd.
  - simpl. split; [done|]. split; [intros; unfold tallied; simpl; lia|].
    split; [|lia]. intros k. unfold tallied. simpl. split; [by left|].
    intros [?|?]; [done|lia].
  - cbn [fold_left].
    destruct (IH (tallyStep m row)) as (H1 & H2 & H3 & H4).
    { by apply mapSet_NoDup. }
    split; [done|]. split; [|split].
    + intros k. rewrite H2, tallyStep_count, tallied_cons. lia.
    + intros k. rewrite H3, tallyStep_some, tallied_cons.
      destruct (decide (asString (at_ row 0) = k)); [|tauto].
      split; [intros _; right; lia|intros _; left; by right].
    + rewrite H4, tallyStep_total. simpl. lia.
Qed.

Lemma sum_list_perm (l1 l2 : list nat) :
  Permutation l1 l2 → sum_list l1 = sum_list l2.
Proof. induction 1; simpl; lia. Qed.

(** The tally before the sort: one entry per owner, with its count. *)
Lemma tally_entries rows name n :
  (name, n) ∈ fold_left tallyStep rows []
  ↔ n = tallied name rows ∧ (0 < n)%nat.
Proof.
  destruct (tally_spec rows []) as (Hnd & Hcnt & Hsome & _); [constructor|].
  rewrite mapGetCount_elem by done.
  specialize (Hcnt name). specialize (Hsome name).
  unfold getCount in Hcnt. simpl in Hcnt, Hsome. split.
  - intros Hget. rewrite Hget in Hcnt, Hsome. simpl in Hcnt.
    split; [done|]. destruct Hsome as [[[? ?]|?] _]; [eauto|done|lia].
  - intros [-> Hpos]. destruct Hsome as [_ [v Hv]]; [by right|].
    rewrite Hv in Hcnt. simpl in Hcnt. by rewrite Hv, Hcnt.
Qed.

Lemma assignNames_owned names sentinel rows :
  Forall owned (assignNames names sentinel rows).
Proof.
  unfold assignNames. destruct (0 <? length names)%nat eqn:Hlen.
  - apply Forall_lookup. intros i out (row & Hrow & ->)%list_lookup_imap_Some.
    destruct (nameAt_mod names i) as (name & _ & ->).
    + apply Nat.ltb_lt in Hlen. by destruct names; [simpl in Hlen; lia|].
    + by exists name, row.
  - apply Forall_map, Forall_forall. intros row _. by exists sentinel, row.
Qed.

Lemma processAndAssign_owned header a rows out :
  processAndAssign header a rows = inr out → Forall owned out.
Proof.
  unfold processAndAssign.
  destruct (findIndex (isLabel "Info_VLOOKUP") header); [|done].
  intros [= <-]. rewrite !Forall_app.
  repeat split; apply assignNames_owned.
Qed.

Lemma assigned_owner header a zf rows out :
  assignAll header a zf rows = inr out → Forall owned out.
Proof.
  unfold assignAll. destruct (decide (zf = ZOP)) as [_|_].
  - destruct (fold_left zraxStep rows ([], [])) as [z o].
    destruct (processAndAssign header a z) as [|o1] eqn:H1; [done|].
    destruct (processAndAssign header a o) as [|o2] eqn:H2; [done|].
    intros [= <-]. apply Forall_app.
    split; by eapply processAndAssign_owned.
  - apply processAndAssign_owned.
Qed.

Lemma ownedBy_cons name row rest :
  ownedBy name (row :: rest)
  = ((if decide (at_ row 0 = CStr name) then 1 else 0) + ownedBy name rest)%nat.
Proof.
  unfold ownedBy. cbn [List.filter].
  destruct (decide (at_ row 0 = CStr name)) as [Heq|Hne].
  - by rewrite (bool_decide_eq_true_2 _ Heq).
  - by rewrite (bool_decide_eq_false_2 _ Hne).
Qed.

Lemma tallied_final (final : Row → Row) name assigned :
  (final = id ∨ ∃ ctr, final = spliceOut (S ctr)) →
  Forall owned assigned →
  tallied name assigned = ownedBy name (map final assigned).
Proof.
  intros Hfinal Hall.
  induction Hall as [|row rest (o & r & ->) _ IH]; [done|].
  cbn [map]. rewrite tallied_cons, ownedBy_cons, IH.
  assert (at_ (final (CStr o :: r)) 0 = CStr o) as ->.
  { destruct Hfinal as [->|[ctr ->]]; reflexivity. }
  change (asString (at_ (CStr o :: r) 0)) with o.
  destruct (decide (o = name)) as [->|Hne].
  - by rewrite decide_True.
  - by rewrite decide_False by congruence.
Qed.

(** C6 (as amended). The pivot has exactly one (name, count) entry per
    owner name that received at least one row, sentinel names included,
    the count being the number of rows of that owner in the final sheet;
    the entries are in ascending order of name under the collation that
    [localeCompare] stands for, whichever total preorder on strings that
    is; the counts sum to the number of assigned rows. *)
Theorem pivot_counts_each_owner_once
    (collate : string → string → comparison)
    (processedData : Table) (a : Assignees) (zf : ZraxFilter) (out : Assigned) :
  (∀ x y, collate x y = Gt → collate y x ≠ Gt) →
  (∀ x y z, collate x y ≠ Gt → collate y z ≠ Gt → collate x z ≠ Gt) →
  assignAndGenerateExcelWith collate processedData a zf = inr out →
  NoDup (map fst (pivotData out)) ∧
  (∀ name n, (name, n) ∈ pivotData out
             ↔ n = ownedBy name (drop 1 (finalSheetData out)) ∧ (0 < n)%nat) ∧
  StronglySorted (λ x y, collate (fst x) (fst y) ≠ Gt) (pivotData out) ∧
  sum_list (map snd (pivotData out)) = length (drop 1 (finalSheetData out)).
Proof.
  intros Htotal Htrans Hrun.
  apply assign_inversion_with in Hrun
    as [(_ & Hfin & Hpiv)|(dupIdx & assigned & hdr & final & _ & Hall & Hfin & Hpiv & Hfinal)];
    rewrite Hfin, Hpiv; simpl; rewrite ?drop_0.
  - split; [constructor|]. split; [|split; [constructor|done]].
    intros name n. rewrite elem_of_nil. unfold ownedBy. simpl. lia.
  - pose proof (JsFacts.sort_perm (byScreenerWith collate)
                  (fold_left tallyStep assigned [])) as Hperm.
    destruct (tally_spec assigned []) as (Hnd & _ & _ & Hsum); [constructor|].
    fold (pivotWith collate assigned) in Hperm.
    split; [|split; [|split]].
    + by rewrite (Permutation_map fst Hperm).
    + intros name n.
      rewrite <- (tallied_final final name assigned Hfinal (assigned_owner _ _ _ _ _ Hall)).
      rewrite <- tally_entries, !list_elem_of_In.
      apply (Permutation_in' (eq_refl (name, n)) Hperm).
    + apply (JsFacts.sort_sorted (byScreenerWith collate)).
      * intros x y. apply Htotal.
      * intros x y z. apply Htrans.
    + rewrite (sum_list_perm _ _ (Permutation_map snd Hperm)), Hsum.
      simpl. by rewrite length_map.
Qed.

Lemma pivot_counts_each_owner_once_witness :
  let out :=
    {| finalSheetData :=
         [ [CStr "Screener"; CStr "Order"; CStr "Info_VLOOKUP"; CStr "Dup_VLOOKUP"];
           [CStr "Alice"; CNum (Fin 1 0); CStr "cn-x"; CStr "#N/A"];
           [CStr "Bob"; CNum (Fin 3 0); CStr "Cn/Jp"; CStr "#N/A"];
           [CStr "Alice"; CNum (Fin 8 0); CStr "China CN"; CStr "#N/A"];
           [CStr "UNASSIGNED_JP"; CNum (Fin 2 0); CStr "jp"; CStr "#N/A"];
           [CStr "alice"; CNum (Fin 9 0); CStr "#N/A"; CStr "#N/A"] ];
       pivotData :=
         [("alice", 1%nat); ("Alice", 2%nat); ("Bob", 1%nat);
          ("UNASSIGNED_JP", 1%nat)] |} in
  NoDup (map fst (pivotData out)) ∧
  (∀ name n, (name, n) ∈ pivotData out
             ↔ n = ownedBy name (drop 1 (finalSheetData out)) ∧ (0 < n)%nat) ∧
  StronglySorted (λ x y, localeCompare (fst x) (fst y) ≠ Gt) (pivotData out) ∧
  sum_list (map snd (pivotData out)) = length (drop 1 (finalSheetData out)).
Proof.
  apply (pivot_counts_each_owner_once localeCompare processedSheet team NONE).
  - apply JsFacts.localeCompare_total.
  - apply JsFacts.localeCompare_trans.
  - vm_compute. reflexivity.
Defined.

(** C6 (as stated) fails: with the names "alice" and "Bob" the pivot lists
    "alice" before "Bob", while under ordinary lexicographic comparison of
    the strings "Bob" comes first. *)
Lemma pivot_is_not_in_lexicographic_order :
  let names := {| cnAssignees := ["Bob"; "alice"]; jpAssignees := [];
                  specialAssignees := []; generalAssignees := [] |} in
  let sheet := [ [CStr "Order"; CStr "Info_VLOOKUP"; CStr "Dup_VLOOKUP"];
                 [CNum (Fin 1 0); CStr "CN"; CStr "#N/A"];
                 [CNum (Fin 2 0); CStr "CN"; CStr "#N/A"] ] in
  ∃ out, assignAndGenerateExcel sheet names NONE = inr out ∧
         pivotData out = [("alice", 1%nat); ("Bob", 1%nat)] ∧
         String.compare "alice" "Bob" = Gt ∧
         ¬ Sorted (λ x y, String.compare (fst x) (fst y) ≠ Gt) (pivotData out).
Proof.
  simpl. eexists. split; [vm_compute; reflexivity|]. simpl.
  split; [reflexivity|]. split; [reflexivity|].
  intros H. inversion H as [|x l _ Hhd]; subst.
  inversion Hhd as [|y l' Hxy]; subst. apply Hxy. reflexivity.
Qed.

End AssignmentFacts.


(* ===================================================================== *)
(** * The assignment step and its input                                   *)
(* ===================================================================== *)

Module HeapFacts.
Import Js Pipeline Spec Samples Heap.

Section Frame.
Variable h0 : store.

Lemma keeps_ret {A} (x : A) (Q : A → Prop) : Q x → keeps h0 (ret x) Q.
Proof. intros HQ h Hh. split; [done|]. by intros y [= <-]. Qed.

Lemma keeps_throw {A} (e : Error) (Q : A → Prop) : keeps h0 (throw e) Q.
Proof. intros h Hh. split; [done|]. intros y H. discriminate H. Qed.

Lemma keeps_bind {A B} (m : M A) (f : A → M B) (P : A → Prop) (Q : B → Prop) :
  keeps h0 m P → (∀ x, P x → keeps h0 (f x) Q) → keeps h0 (bind m f) Q.
Proof.
  intros Hm Hf h Hh. unfold bind.
  destruct (Hm h Hh) as [Hsub HP]. destruct (m h) as [[e|x] h']; simpl in *.
  - split; [done|]. intros y H. discriminate H.
  - apply (Hf x (HP x eq_refl) h' Hsub).
Qed.

Lemma keeps_weaken {A} (m : M A) (P Q : A → Prop) :
  keeps h0 m P → (∀ x, P x → Q x) → keeps h0 m Q.
Proof.
  intros Hm HPQ h Hh. destruct (Hm h Hh) as [Hsub HP].
  split; [done|]. intros x Hx. by apply HPQ, HP.
Qed.

Lemma keeps_readRow l : keeps h0 (readRow l) (λ _, True).
Proof. intros h Hh. by split. Qed.

Lemma keeps_alloc cells : keeps h0 (alloc cells) (madeAfter h0).
Proof.
  intros h Hh. unfold alloc. simpl.
  pose proof (is_fresh (dom h)) as Hfresh. split.
  - etrans; [exact Hh|]. apply insert_subseteq. by apply not_elem_of_dom.
  - intros l [= <-]. unfold madeAfter. intros Hin. apply Hfresh.
    by apply (subseteq_dom h0 h Hh).
Qed.

Lemma keeps_alter (f : Row → Row) l :
  madeAfter h0 l → keeps h0 (λ h, (inr tt, alter f l h)) (λ _, True).
Proof.
  intros Hl h Hh. simpl. split; [|done].
  apply map_subseteq_spec. intros i x Hi.
  rewrite lookup_alter_ne.
  - by apply (lookup_weaken h0 h).
  - intros ->. apply Hl. apply elem_of_dom. eauto.
Qed.

Lemma keeps_unshift l c : madeAfter h0 l → keeps h0 (unshift l c) (λ _, True).
Proof. apply keeps_alter. Qed.

Lemma keeps_splice l i : madeAfter h0 l → keeps h0 (splice l i) (λ _, True).
Proof. apply keeps_alter. Qed.

Lemma keeps_forEachFrom {A} (f : nat → A → M unit) (l : list A) : ∀ i,
  (∀ j x, x ∈ l → keeps h0 (f j x) (λ _, True)) →
  keeps h0 (forEachFrom f i l) (λ _, True).
Proof.
  induction l as [|x l IH]; intros i Hf; simpl.
  - by apply keeps_ret.
  - eapply keeps_bind.
    + apply Hf. apply list_elem_of_here.
    + intros _ _. apply IH. intros j y Hy. apply Hf. by apply list_elem_of_further.
Qed.

Lemma keeps_forEach {A} (f : nat → A → M unit) (l : list A) :
  (∀ j x, x ∈ l → keeps h0 (f j x) (λ _, True)) →
  keeps h0 (forEach f l) (λ _, True).
Proof. apply keeps_forEachFrom. Qed.

Lemma keeps_foldM {A S} (f : S → A → M S) (I : S → Prop) (l : list A) : ∀ s,
  I s → (∀ s x, I s → keeps h0 (f s x) I) → keeps h0 (foldM f l s) I.
Proof.
  induction l as [|x l IH]; intros s Hs Hf; simpl.
  - by apply keeps_ret.
  - eapply keeps_bind; [by apply Hf|]. intros s' Hs'. by apply IH.
Qed.

Lemma keeps_filterM {A} (p : A → M bool) (l : list A) :
  (∀ x, keeps h0 (p x) (λ _, True)) → keeps h0 (filterM p l) (λ _, True).
Proof.
  intros Hp. induction l as [|x l IH]; simpl.
  - by apply keeps_ret.
  - eapply keeps_bind; [apply Hp|]. intros keep _.
    eapply keeps_bind; [apply IH|]. intros rest _. by apply keeps_ret.
Qed.

(** ** The processor that copies *)

Lemma push_made codes b infoValue l :
  allMade h0 b → madeAfter h0 l → allMade h0 (push codes b infoValue l).
Proof.
  intros (H1 & H2 & H3 & H4) Hl. unfold push, allMade.
  assert (Hsnoc : ∀ ls, Forall (madeAfter h0) ls → Forall (madeAfter h0) (ls ++ [l])).
  { intros ls Hls. apply Forall_app. split; [done|]. by constructor. }
  destruct (includes infoValue "CN"); simpl; [auto|].
  destruct (includes infoValue "JP"); simpl; [auto|].
  destruct (existsb _ codes); simpl; auto.
Qed.

Lemma keeps_assignNames names sentinel rows :
  Forall (madeAfter h0) rows →
  keeps h0 (assignNames names sentinel rows) (λ _, True).
Proof.
  intros Hrows. rewrite Forall_forall in Hrows. unfold assignNames.
  destruct (0 <? length names)%nat; apply keeps_forEach;
    intros j l Hl; by apply keeps_unshift, Hrows.
Qed.

Lemma keeps_assignBuckets a b :
  allMade h0 b → keeps h0 (assignBuckets a b) (Forall (madeAfter h0)).
Proof.
  intros (H1 & H2 & H3 & H4). unfold assignBuckets.
  eapply keeps_bind; [by apply keeps_assignNames|]. intros _ _.
  eapply keeps_bind; [by apply keeps_assignNames|]. intros _ _.
  eapply keeps_bind; [by apply keeps_assignNames|]. intros _ _.
  eapply keeps_bind; [by apply keeps_assignNames|]. intros _ _.
  apply keeps_ret. by rewrite !Forall_app.
Qed.

Lemma keeps_processAndAssign header a rows :
  keeps h0 (Copying.processAndAssign header a rows) (Forall (madeAfter h0)).
Proof.
  unfold Copying.processAndAssign.
  eapply keeps_bind; [apply keeps_readRow|]. intros hdr _.
  destruct (findIndex (isLabel "Info_VLOOKUP") hdr) as [idx|];
    [|apply keeps_throw].
  eapply keeps_bind; [|intros b Hb; by apply keeps_assignBuckets].
  apply (keeps_foldM _ (allMade h0)).
  - unfold allMade, noRows. simpl. by repeat split.
  - intros b row Hb. unfold Copying.categorizeStep.
    eapply keeps_bind; [apply keeps_readRow|]. intros cells _.
    eapply keeps_bind; [apply keeps_alloc|]. intros copy Hcopy.
    apply keeps_ret. by apply push_made.
Qed.

Lemma keeps_assignAll header a zf rows :
  keeps h0 (Copying.assignAll header a zf rows) (Forall (madeAfter h0)).
Proof.
  unfold Copying.assignAll. destruct (decide (zf = ZOP)) as [_|_];
    [|apply keeps_processAndAssign].
  eapply keeps_bind.
  { apply (keeps_foldM _ (λ _, True)); [done|].
    intros st row _. unfold Copying.zraxStep.
    eapply keeps_bind; [apply keeps_readRow|]. intros cells _. by apply keeps_ret. }
  intros split _.
  eapply keeps_bind; [apply keeps_processAndAssign|]. intros z Hz.
  eapply keeps_bind; [apply keeps_processAndAssign|]. intros o Ho.
  apply keeps_ret. by apply Forall_app.
Qed.

Lemma keeps_tally rows : keeps h0 (Copying.tally rows) (λ _, True).
Proof.
  unfold Copying.tally. apply (keeps_foldM _ (λ _, True)); [done|].
  intros m row _. eapply keeps_bind; [apply keeps_readRow|].
  intros cells _. by apply keeps_ret.
Qed.

Lemma keeps_removeCTR header rows :
  madeAfter h0 header → Forall (madeAfter h0) rows →
  keeps h0 (Copying.removeCTR header rows) (λ _, True).
Proof.
  intros Hh Hrows. rewrite Forall_forall in Hrows. unfold Copying.removeCTR.
  eapply keeps_bind; [apply keeps_readRow|]. intros hdr _.
  destruct (findIndex (isLabel "CTR") hdr) as [ctr|]; [|by apply keeps_ret].
  eapply keeps_bind; [by apply keeps_splice|]. intros _ _.
  apply keeps_forEach. intros j l Hl. by apply keeps_splice, Hrows.
Qed.

Lemma keeps_assign processedData a zf :
  keeps h0 (Copying.assignAndGenerateExcel processedData a zf) (λ _, True).
Proof.
  unfold Copying.assignAndGenerateExcel.
  eapply (keeps_bind _ _ (madeAfter h0)).
  { destruct processedData as [|h rest]; [apply keeps_alloc|].
    eapply keeps_bind; [apply keeps_readRow|]. intros cells _. apply keeps_alloc. }
  intros header Hheader.
  destruct (length processedData <? 2)%nat; [by apply keeps_ret|].
  eapply keeps_bind; [apply keeps_readRow|]. intros hdr _.
  destruct (findIndex (isLabel "Dup_VLOOKUP") hdr) as [dupIdx|];
    [|apply keeps_throw].
  eapply keeps_bind.
  { apply keeps_filterM. intros row.
    eapply keeps_bind; [apply keeps_readRow|]. intros cells _. by apply keeps_ret. }
  intros filteredRows _.
  eapply keeps_bind; [apply keeps_assignAll|]. intros final Hfinal.
  eapply keeps_bind; [apply keeps_tally|]. intros counts _.
  eapply keeps_bind; [by apply keeps_removeCTR|]. intros _ _.
  eapply keeps_bind; [by apply keeps_unshift|]. intros _ _.
  by apply keeps_ret.
Qed.
End Frame.

(** The processor that copies (the header by [[...processedData[0]]],
    every row by [[...row]] as it is pushed) does not change its input:
    whatever the store, the table and the names, every object of the
    store before the call is the same after it. *)
Theorem copying_assign_leaves_the_input_unchanged
    (h : store) (processedData : list loc) (a : Assignees) (zf : ZraxFilter) :
  h ⊆ snd (Copying.assignAndGenerateExcel processedData a zf h) ∧
  readBack (snd (Copying.assignAndGenerateExcel processedData a zf h))
    (List.filter (λ l, bool_decide (l ∈ dom h)) processedData)
  = readBack h (List.filter (λ l, bool_decide (l ∈ dom h)) processedData).
Proof.
  destruct (keeps_assign h processedData a zf h) as [Hsub _]; [done|].
  split; [done|]. unfold readBack. apply map_ext_in.
  intros l [_ Hl%bool_decide_eq_true]%filter_In.
  apply elem_of_dom in Hl as [cells Hcells]. unfold cellsAt.
  by rewrite (lookup_weaken _ _ _ _ Hcells Hsub), Hcells.
Qed.

(** On the sample sheet the step over the store returns what the step on
    values returns, and the sheet it was given reads back as before. *)
Example copying_assign_scenario :
  let '(ls, h) := layout processedSheet in
  let '(r, h') := Copying.assignAndGenerateExcel ls team NONE h in
  (match r with
   | inr (final, pivot) =>
       Some {| finalSheetData := readBack h' final; pivotData := pivot |}
   | inl _ => None
   end
   = match Pipeline.assignAndGenerateExcel processedSheet team NONE with
     | inr out => Some out
     | inl _ => None
     end) ∧
  readBack h' ls = processedSheet.
Proof. vm_compute. split; reflexivity. Qed.

(** C8.  The assignment step is to leave the table it is given as it
    was.  The earlier processor of [services/excelProcessor.ts] does not:
    after the call the header of the table has gained the cell "Screener"
    and the rows that were retained have gained their owner. *)
Theorem aliasing_assign_changes_its_input :
  let '(ls, h) := layout processedSheet in
  let '(r, h') := Aliasing.assignAndGenerateExcel ls team h in
  readBack h ls = processedSheet ∧
  readBack h' ls
  = [ [CStr "Screener"; CStr "Order"; CStr "CTR"; CStr "Info_VLOOKUP"; CStr "Dup_VLOOKUP"];
      [CStr "Alice"; CNum (Fin 1 0); CStr "c1"; CStr "cn-x"; CStr "#N/A"];
      [CStr "UNASSIGNED_JP"; CNum (Fin 2 0); CStr "c2"; CStr "jp"; CStr "#N/A"];
      [CStr "Bob"; CNum (Fin 3 0); CStr "c3"; CStr "Cn/Jp"; CStr "#N/A"];
      [CNum (Fin 7 0); CStr "c7"; CStr "CN"; CNum (Fin 7 0)];
      [CStr "Alice"; CNum (Fin 8 0); CStr "c8"; CStr "China CN"; CStr "#N/A"];
      [CStr "alice"; CNum (Fin 9 0); CStr "c9"; CStr "#N/A"; CStr "#N/A"] ] ∧
  readBack h' ls ≠ readBack h ls.
Proof. vm_compute. split; [reflexivity|]. split; [reflexivity|]. discriminate. Qed.

End HeapFacts.

(* ===================================================================== *)
(** * The step over the store computes the step on values                 *)
(* ===================================================================== *)

Module RefinementFacts.
Import Js Pipeline Spec Samples Heap AssignmentFacts.

Lemma bind_run {A B} (m : M A) (f : A → M B) h x h' :
  m h = (inr x, h') → bind m f h = f x h'.
Proof. intros H. unfold bind. by rewrite H. Qed.

Lemma bind_fail {A B} (m : M A) (f : A → M B) h e h' :
  m h = (inl e, h') → bind m f h = (inl e, h').
Proof. intros H. unfold bind. by rewrite H. Qed.

(** ** Loops that only read *)

Lemma filterM_pure {A} (p : A → M bool) (q : A → bool) l h :
  (∀ x, p x h = (inr (q x), h)) →
  filterM p l h = (inr (List.filter q l), h).
Proof.
  intros Hp. induction l as [|x l IH]; simpl; [done|].
  rewrite (bind_run _ _ _ _ _ (Hp x)), (bind_run _ _ _ _ _ IH).
  unfold ret. by destruct (q x).
Qed.

Lemma foldM_pure {A S} (f : S → A → M S) (g : S → A → S) l h :
  (∀ s x, f s x h = (inr (g s x), h)) →
  ∀ s, foldM f l s h = (inr (fold_left g l s), h).
Proof.
  intros Hf. induction l as [|x l IH]; intros s; simpl; [done|].
  by rewrite (bind_run _ _ _ _ _ (Hf s x)), IH.
Qed.

Lemma filter_map_comm {A B} (f : A → B) (q : B → bool) (l : list A) :
  map f (List.filter (λ x, q (f x)) l) = List.filter q (map f l).
Proof.
  induction l as [|x l IH]; simpl; [done|].
  destruct (q (f x)); simpl; by rewrite IH.
Qed.

Lemma fold_left_map {A B S} (f : A → B) (g : S → B → S) (l : list A) : ∀ s,
  fold_left (λ s x, g s (f x)) l s = fold_left g (map f l) s.
Proof. induction l as [|x l IH]; intros s; simpl; [done|]. apply IH. Qed.

Lemma keepUnresolved_run dupIdx ls h :
  ∃ kept,
    keepUnresolved dupIdx ls h = (inr kept, h) ∧
    (∀ l, l ∈ kept → l ∈ ls) ∧
    readBack h kept
    = List.filter (λ row, strictEq (at_ row dupIdx) (CStr "#N/A")) (readBack h ls).
Proof.
  exists (List.filter (λ l, strictEq (at_ (cellsAt h l) dupIdx) (CStr "#N/A")) ls).
  split; [|split].
  - unfold keepUnresolved. by apply filterM_pure.
  - intros l. rewrite !list_elem_of_In, filter_In. tauto.
  - unfold readBack.
    apply (filter_map_comm (cellsAt h)
             (λ row, strictEq (at_ row dupIdx) (CStr "#N/A"))).
Qed.

Lemma split_fold {A} (p : A → bool) (l : list A) : ∀ z o,
  fold_left (λ st x, if p x then (fst st ++ [x], snd st)
                     else (fst st, snd st ++ [x])) l (z, o)
  = (z ++ List.filter p l, o ++ List.filter (λ x, negb (p x)) l).
Proof.
  induction l as [|x l IH]; intros z o; simpl.
  - by rewrite !app_nil_r.
  - destruct (p x); simpl; rewrite IH; by rewrite <- app_assoc.
Qed.

Lemma zrax_run ls h :
  ∃ z o,
    foldM Copying.zraxStep ls ([], []) h = (inr (z, o), h) ∧
    (∀ l, l ∈ z → l ∈ ls) ∧ (∀ l, l ∈ o → l ∈ ls) ∧
    fold_left Pipeline.zraxStep (readBack h ls) ([], [])
    = (readBack h z, readBack h o).
Proof.
  exists (List.filter (λ l, isZrax (cellsAt h l)) ls),
         (List.filter (λ l, negb (isZrax (cellsAt h l))) ls).
  split; [|split; [|split]].
  - rewrite (foldM_pure _ (λ st l, if isZrax (cellsAt h l)
                                    then (fst st ++ [l], snd st)
                                    else (fst st, snd st ++ [l])) ls h);
      [|done].
    by rewrite split_fold.
  - intros l. rewrite !list_elem_of_In, filter_In. tauto.
  - intros l. rewrite !list_elem_of_In, filter_In. tauto.
  - rewrite zrax_fold. simpl. unfold readBack.
    by rewrite (filter_map_comm (cellsAt h) isZrax),
               (filter_map_comm (cellsAt h) (λ row, negb (isZrax row))).
Qed.

Lemma tally_run ls h :
  Copying.tally ls h = (inr (fold_left tallyStep (readBack h ls) []), h).
Proof.
  unfold Copying.tally.
  rewrite (foldM_pure _ (λ m l, tallyStep m (cellsAt h l)) ls h); [|done].
  by rewrite (fold_left_map (cellsAt h) tallyStep).
Qed.

(** ** Loops that write each row once *)

Lemma forEachFrom_alter (g : nat → Row → Row) rows : ∀ i h,
  forEachFrom (λ j l h', (inr tt, alter (g j) l h')) i rows h
  = (inr tt, alterAll g i rows h).
Proof.
  induction rows as [|l rest IH]; intros i h; simpl; [done|].
  unfold bind. apply IH.
Qed.

Lemma alterAll_other g rows : ∀ i h l,
  l ∉ rows → alterAll g i rows h !! l = h !! l.
Proof.
  induction rows as [|l0 rest IH]; intros i h l Hl; simpl; [done|].
  rewrite not_elem_of_cons in Hl. destruct Hl as [Hne Hl].
  rewrite IH by done. by rewrite lookup_alter_ne.
Qed.

Lemma alterAll_dom g rows : ∀ i h, dom (alterAll g i rows h) = dom h.
Proof.
  induction rows as [|l0 rest IH]; intros i h; simpl; [done|].
  rewrite IH. apply dom_alter_L.
Qed.

Lemma readBack_other g i rows h ls :
  (∀ l, l ∈ ls → l ∉ rows) →
  readBack (alterAll g i rows h) ls = readBack h ls.
Proof.
  intros Hdisj. unfold readBack. apply map_ext_in. intros l Hl%list_elem_of_In.
  unfold cellsAt. by rewrite alterAll_other by by apply Hdisj.
Qed.

Lemma alterAll_readBack g rows : ∀ i h,
  NoDup rows → Forall (λ l, l ∈ dom h) rows →
  readBack (alterAll g i rows h) rows
  = imap (λ k, g (i + k)%nat) (readBack h rows).
Proof.
  induction rows as [|l rest IH]; intros i h Hnd Hdom; [done|].
  apply NoDup_cons in Hnd as [Hl Hnd]. apply Forall_cons in Hdom as [Hin Hdom].
  cbn [alterAll readBack map]. rewrite imap_cons. f_equal.
  - unfold cellsAt. rewrite alterAll_other by done. rewrite lookup_alter_eq.
    apply elem_of_dom in Hin as [cells ->]. simpl. by rewrite Nat.add_0_r.
  - fold (readBack (alterAll g (S i) rest (alter (g i) l h)) rest).
    rewrite IH; [|done|].
    + fold (readBack h rest).
      assert (readBack (alter (g i) l h) rest = readBack h rest) as ->.
      { unfold readBack. apply map_ext_in. intros l' Hl'%list_elem_of_In.
        unfold cellsAt. rewrite lookup_alter_ne; [done|]. by intros ->. }
      apply imap_ext. intros k row _. simpl. f_equal. lia.
    + eapply Forall_impl; [exact Hdom|]. intros l'. by rewrite dom_alter_L.
Qed.

Lemma readBack_agree (h h' : store) (ls : list loc) :
  (∀ l, l ∈ ls → h' !! l = h !! l) → readBack h' ls = readBack h ls.
Proof.
  intros H. unfold readBack. apply map_ext_in. intros l Hl%list_elem_of_In.
  unfold cellsAt. by rewrite H.
Qed.

Lemma readBack_app h ls1 ls2 :
  readBack h (ls1 ++ ls2) = readBack h ls1 ++ readBack h ls2.
Proof. apply map_app. Qed.

Lemma assignNames_run names sentinel rows h :
  NoDup rows → Forall (λ l, l ∈ dom h) rows →
  ∃ h', Heap.assignNames names sentinel rows h = (inr tt, h') ∧
        dom h' = dom h ∧
        (∀ l, l ∉ rows → h' !! l = h !! l) ∧
        readBack h' rows = Pipeline.assignNames names sentinel (readBack h rows).
Proof.
  intros Hnd Hdom. unfold Heap.assignNames, Pipeline.assignNames.
  destruct (0 <? length names)%nat.
  - exists (alterAll (λ j, cons (nameAt names (j mod length names))) 0 rows h).
    split; [apply (forEachFrom_alter (λ j, cons (nameAt names (j mod length names))))|].
    split; [apply alterAll_dom|]. split; [intros l Hl; by apply alterAll_other|].
    by rewrite alterAll_readBack.
  - exists (alterAll (λ _, cons (CStr sentinel)) 0 rows h).
    split; [apply (forEachFrom_alter (λ _, cons (CStr sentinel)))|].
    split; [apply alterAll_dom|]. split; [intros l Hl; by apply alterAll_other|].
    rewrite alterAll_readBack by done.
    apply (imap_const (cons (CStr sentinel))).
Qed.

Lemma assignBuckets_run a cn jp sp ge h :
  NoDup (cn ++ jp ++ sp ++ ge) →
  Forall (λ l, l ∈ dom h) (cn ++ jp ++ sp ++ ge) →
  ∃ h',
    assignBuckets a {| cnRows := cn; jpRows := jp; specialRows := sp;
                       generalRows := ge |} h
    = (inr (cn ++ jp ++ sp ++ ge), h') ∧
    dom h' = dom h ∧
    (∀ l, l ∉ cn ++ jp ++ sp ++ ge → h' !! l = h !! l) ∧
    readBack h' (cn ++ jp ++ sp ++ ge)
    = Pipeline.assignNames (cnAssignees a) "UNASSIGNED_CN" (readBack h cn)
      ++ Pipeline.assignNames (jpAssignees a) "UNASSIGNED_JP" (readBack h jp)
      ++ Pipeline.assignNames (specialAssignees a) "UNASSIGNED_SPECIAL" (readBack h sp)
      ++ Pipeline.assignNames (generalAssignees a) "UNASSIGNED_GENERAL" (readBack h ge).
Proof.
  intros Hnd Hdom.
  apply NoDup_app in Hnd as (Hcn & Hcn' & Hnd).
  apply NoDup_app in Hnd as (Hjp & Hjp' & Hnd).
  apply NoDup_app in Hnd as (Hsp & Hsp' & Hge).
  rewrite !Forall_app in Hdom. destruct Hdom as (Dcn & Djp & Dsp & Dge).
  destruct (assignNames_run (cnAssignees a) "UNASSIGNED_CN" cn h Hcn Dcn)
    as (h1 & R1 & E1 & O1 & B1).
  assert (Djp1 : Forall (λ l, l ∈ dom h1) jp) by by rewrite E1.
  destruct (assignNames_run (jpAssignees a) "UNASSIGNED_JP" jp h1 Hjp Djp1)
    as (h2 & R2 & E2 & O2 & B2).
  assert (Dsp2 : Forall (λ l, l ∈ dom h2) sp) by by rewrite E2, E1.
  destruct (assignNames_run (specialAssignees a) "UNASSIGNED_SPECIAL" sp h2 Hsp Dsp2)
    as (h3 & R3 & E3 & O3 & B3).
  assert (Dge3 : Forall (λ l, l ∈ dom h3) ge) by by rewrite E3, E2, E1.
  destruct (assignNames_run (generalAssignees a) "UNASSIGNED_GENERAL" ge h3 Hge Dge3)
    as (h4 & R4 & E4 & O4 & B4).
  exists h4. split; [|split; [|split]].
  - unfold assignBuckets. cbn [cnRows jpRows specialRows generalRows].
    rewrite (bind_run _ _ _ _ _ R1), (bind_run _ _ _ _ _ R2),
            (bind_run _ _ _ _ _ R3), (bind_run _ _ _ _ _ R4). done.
  - by rewrite E4, E3, E2, E1.
  - intros l Hl. rewrite !elem_of_app in Hl.
    rewrite O4, O3, O2, O1; [done|tauto..].
  - rewrite !readBack_app. f_equal; [|f_equal; [|f_equal]].
    + rewrite <- B1. etrans; [|apply (readBack_agree h1)].
      * apply readBack_agree. intros l Hl. rewrite O4, O3; [done|..].
        -- intros ?. apply (Hcn' l Hl). rewrite !elem_of_app. tauto.
        -- intros ?. apply (Hcn' l Hl). rewrite !elem_of_app. tauto.
      * intros l Hl. rewrite O2; [done|].
        intros ?. apply (Hcn' l Hl). rewrite !elem_of_app. tauto.
    + rewrite (readBack_agree h h1 jp) in B2.
      2:{ intros l Hl. apply O1. intros ?. apply (Hcn' l); [done|].
          rewrite !elem_of_app. tauto. }
      rewrite <- B2. apply readBack_agree. intros l Hl. rewrite O4, O3; [done|..].
      * intros ?. apply (Hjp' l Hl). rewrite !elem_of_app. tauto.
      * intros ?. apply (Hjp' l Hl). rewrite !elem_of_app. tauto.
    + rewrite (readBack_agree h h2 sp) in B3.
      2:{ intros l Hl. rewrite O2, O1; [done|..].
          - intros ?. apply (Hcn' l); [done|]. rewrite !elem_of_app. tauto.
          - intros ?. apply (Hjp' l); [done|]. rewrite !elem_of_app. tauto. }
      rewrite <- B3. apply readBack_agree. intros l Hl. rewrite O4; [done|].
      intros ?. by apply (Hsp' l Hl).
    + rewrite (readBack_agree h h3 ge) in B4; [done|].
      intros l Hl. rewrite O3, O2, O1; [done|..].
      * intros ?. apply (Hcn' l); [done|]. rewrite !elem_of_app. tauto.
      * intros ?. apply (Hjp' l); [done|]. rewrite !elem_of_app. tauto.
      * intros ?. by apply (Hsp' l).
Qed.

(** ** The categorizing loop: one new array per row *)

Lemma push_branch codes b idx cells c :
  push codes b (infoValueOf idx cells) c =
  match branchOf codes idx cells with
  | CN => {| cnRows := cnRows b ++ [c]; jpRows := jpRows b;
             specialRows := specialRows b; generalRows := generalRows b |}
  | JP => {| cnRows := cnRows b; jpRows := jpRows b ++ [c];
             specialRows := specialRows b; generalRows := generalRows b |}
  | SPECIAL => {| cnRows := cnRows b; jpRows := jpRows b;
                  specialRows := specialRows b ++ [c];
                  generalRows := generalRows b |}
  | GENERAL => {| cnRows := cnRows b; jpRows := jpRows b;
                  specialRows := specialRows b;
                  generalRows := generalRows b ++ [c] |}
  end.
Proof.
  unfold push, branchOf.
  destruct (includes (infoValueOf idx cells) "CN"); [done|].
  destruct (includes (infoValueOf idx cells) "JP"); [done|].
  by destruct (existsb (λ code, includes (infoValueOf idx cells) code) codes).
Qed.

Lemma alloc_run cells h :
  alloc cells h = (inr (fresh (dom h)), <[ fresh (dom h) := cells ]> h).
Proof. reflexivity. Qed.

Lemma fresh_not_in (h : store) : fresh (dom h) ∉ dom h.
Proof. apply is_fresh. Qed.

Lemma readBack_insert_fresh (h : store) cells ls :
  Forall (λ l, l ∈ dom h) ls →
  readBack (<[ fresh (dom h) := cells ]> h) ls = readBack h ls.
Proof.
  intros Hdom. apply readBack_agree. intros l Hl.
  rewrite Forall_forall in Hdom. rewrite lookup_insert_ne; [done|].
  intros <-. by apply (fresh_not_in h), Hdom.
Qed.

Lemma categorize_run idx ls : ∀ h b,
  Forall (λ l, l ∈ dom h) ls →
  ∃ h' cn jp sp ge,
    foldM (Copying.categorizeStep idx) ls b h
    = (inr {| cnRows := cnRows b ++ cn; jpRows := jpRows b ++ jp;
              specialRows := specialRows b ++ sp;
              generalRows := generalRows b ++ ge |}, h') ∧
    h ⊆ h' ∧
    NoDup (cn ++ jp ++ sp ++ ge) ∧
    Forall (λ l, l ∉ dom h) (cn ++ jp ++ sp ++ ge) ∧
    Forall (λ l, l ∈ dom h') (cn ++ jp ++ sp ++ ge) ∧
    readBack h' cn = only specialCodes idx CN (readBack h ls) ∧
    readBack h' jp = only specialCodes idx JP (readBack h ls) ∧
    readBack h' sp = only specialCodes idx SPECIAL (readBack h ls) ∧
    readBack h' ge = only specialCodes idx GENERAL (readBack h ls).
Proof.
  induction ls as [|l ls IH]; intros h b Hdom.
  - exists h, [], [], [], []. simpl. rewrite !app_nil_r.
    destruct b. repeat split; try done; constructor.
  - apply Forall_cons in Hdom as [Hl Hdom].
    set (c := fresh (dom h)). set (h1 := <[ c := cellsAt h l ]> h).
    assert (Hc : c ∉ dom h) by apply fresh_not_in.
    assert (Hsub1 : h ⊆ h1) by (apply insert_subseteq; by apply not_elem_of_dom).
    assert (Hdom1 : Forall (λ l, l ∈ dom h1) ls).
    { eapply Forall_impl; [exact Hdom|]. intros l' Hl'.
      by apply (subseteq_dom h h1 Hsub1). }
    assert (Hstep : foldM (Copying.categorizeStep idx) (l :: ls) b h
                    = foldM (Copying.categorizeStep idx) ls
                        (push specialCodes b (infoValueOf idx (cellsAt h l)) c) h1)
      by reflexivity.
    rewrite Hstep, push_branch. clear Hstep.
    assert (Hback : readBack h1 ls = readBack h ls)
      by by apply readBack_insert_fresh.
    assert (Hcells : ∀ h', h1 ⊆ h' → cellsAt h' c = cellsAt h l).
    { intros h' Hsub. unfold cellsAt.
      rewrite (lookup_weaken h1 h' c (default [] (h !! l))); [done| |done].
      apply lookup_insert_eq. }
    assert (Hnew : ∀ h' (all : list loc),
              h1 ⊆ h' → NoDup all → Forall (λ l, l ∉ dom h1) all →
              Forall (λ l, l ∈ dom h') all →
              NoDup (c :: all) ∧ Forall (λ l, l ∉ dom h) (c :: all) ∧
              Forall (λ l, l ∈ dom h') (c :: all)).
    { intros h' all Hsub Hnd Hout Hin. rewrite Forall_forall in Hout.
      split; [|split].
      - apply NoDup_cons. split; [|done]. intros Hcin.
        apply (Hout c Hcin). apply elem_of_dom. exists (cellsAt h l).
        apply lookup_insert_eq.
      - constructor; [done|]. apply Forall_forall. intros l' Hl' Hin'.
        apply (Hout l' Hl'). by apply (subseteq_dom h h1 Hsub1).
      - constructor; [|done]. apply (subseteq_dom h1 h' Hsub).
        apply elem_of_dom. exists (cellsAt h l). apply lookup_insert_eq. }
    cbn [readBack map]. fold (readBack h ls). rewrite !only_cons.
    destruct (branchOf specialCodes idx (cellsAt h l)) eqn:Hbr;
      match goal with
      | |- context [foldM _ ls ?b1 h1] =>
          destruct (IH h1 b1 Hdom1)
            as (h' & cn & jp & sp & ge & Hrun & Hsub & Hnd & Hout & Hin
                & Rcn & Rjp & Rsp & Rge)
      end;
      rewrite Hrun; cbn [cnRows jpRows specialRows generalRows];
      rewrite <- ?app_assoc; cbn [app];
      rewrite Hback in Rcn, Rjp, Rsp, Rge;
      destruct (Hnew h' _ Hsub Hnd Hout Hin) as (N1 & N2 & N3);
      simpl bool_decide; cbv iota.
    + exists h', (c :: cn), jp, sp, ge. split; [done|].
      split; [by etrans|]. split; [done|]. split; [done|]. split; [done|].
      cbn [readBack map]. rewrite (Hcells h' Hsub). fold (readBack h' cn).
      by rewrite Rcn.
    + exists h', cn, (c :: jp), sp, ge. split; [done|].
      split; [by etrans|].
      assert (Hp : cn ++ (c :: jp) ++ sp ++ ge ≡ₚ c :: cn ++ jp ++ sp ++ ge)
        by (symmetry; apply Permutation_middle).
      rewrite !Hp. split; [done|]. split; [done|]. split; [done|].
      cbn [readBack map]. rewrite (Hcells h' Hsub). fold (readBack h' jp).
      by rewrite Rjp.
    + exists h', cn, jp, (c :: sp), ge. split; [done|].
      split; [by etrans|].
      assert (Hp : cn ++ jp ++ (c :: sp) ++ ge ≡ₚ c :: cn ++ jp ++ sp ++ ge).
      { rewrite (app_assoc cn jp), (app_assoc cn jp (sp ++ ge)).
        symmetry. apply Permutation_middle. }
      rewrite !Hp. split; [done|]. split; [done|]. split; [done|].
      cbn [readBack map]. rewrite (Hcells h' Hsub). fold (readBack h' sp).
      by rewrite Rsp.
    + exists h', cn, jp, sp, (c :: ge). split; [done|].
      split; [by etrans|].
      assert (Hp : cn ++ jp ++ sp ++ c :: ge ≡ₚ c :: cn ++ jp ++ sp ++ ge).
      { rewrite (app_assoc cn jp), (app_assoc (cn ++ jp) sp),
          (app_assoc cn jp (sp ++ ge)), (app_assoc (cn ++ jp) sp ge).
        symmetry. apply Permutation_middle. }
      rewrite !Hp. split; [done|]. split; [done|]. split; [done|].
      cbn [readBack map]. rewrite (Hcells h' Hsub). fold (readBack h' ge).
      by rewrite Rge.
Qed.

Lemma readBack_weaken (h h' : store) ls :
  h ⊆ h' → Forall (λ l, l ∈ dom h) ls → readBack h' ls = readBack h ls.
Proof.
  intros Hsub Hdom. apply readBack_agree. intros l Hl.
  rewrite Forall_forall in Hdom. apply Hdom in Hl.
  apply elem_of_dom in Hl as [cells Hcells].
  by rewrite (lookup_weaken _ _ _ _ Hcells Hsub).
Qed.

Lemma cellsAt_weaken (h h' : store) l :
  h ⊆ h' → l ∈ dom h → cellsAt h' l = cellsAt h l.
Proof.
  intros Hsub [cells Hcells]%elem_of_dom. unfold cellsAt.
  by rewrite (lookup_weaken _ _ _ _ Hcells Hsub), Hcells.
Qed.

Lemma processAndAssign_run header a ls h :
  Forall (λ l, l ∈ dom h) ls →
  ∃ r h', Copying.processAndAssign header a ls h = (r, h') ∧ h ⊆ h' ∧
          agrees h h' r (Pipeline.processAndAssign (cellsAt h header) a (readBack h ls)).
Proof.
  intros Hdom. unfold Copying.processAndAssign, Pipeline.processAndAssign.
  rewrite (bind_run (readRow header) _ h (cellsAt h header) h eq_refl).
  destruct (findIndex (isLabel "Info_VLOOKUP") (cellsAt h header)) as [idx|].
  2:{ exists (inl InfoColumnNotFound), h. by repeat split. }
  destruct (categorize_run idx ls h noRows Hdom)
    as (h1 & cn & jp & sp & ge & Hrun & Hsub & Hnd & Hout & Hin
        & Rcn & Rjp & Rsp & Rge).
  simpl in Hrun.
  destruct (assignBuckets_run a cn jp sp ge h1 Hnd Hin)
    as (h2 & Hrun2 & Hdom2 & Hother & Hback).
  exists (inr (cn ++ jp ++ sp ++ ge)), h2.
  split; [by rewrite (bind_run _ _ _ _ _ Hrun)|]. split.
  - apply map_subseteq_spec. intros i x Hi. rewrite Hother.
    + by apply (lookup_weaken h h1).
    + intros Hin'. rewrite Forall_forall in Hout. apply (Hout i Hin').
      apply elem_of_dom. eauto.
  - exists (cn ++ jp ++ sp ++ ge). split; [done|]. split; [|split; [done|split; [done|]]].
    + rewrite Hback, Rcn, Rjp, Rsp, Rge. unfold categorize.
      by rewrite categorize_fold.
    + by rewrite Hdom2.
Qed.

Lemma assignAll_run header a zf ls h :
  header ∈ dom h → Forall (λ l, l ∈ dom h) ls →
  ∃ r h', Copying.assignAll header a zf ls h = (r, h') ∧ h ⊆ h' ∧
          agrees h h' r (Pipeline.assignAll (cellsAt h header) a zf (readBack h ls)).
Proof.
  intros Hheader Hdom. unfold Copying.assignAll, Pipeline.assignAll.
  destruct (decide (zf = ZOP)) as [_|_]; [|by apply processAndAssign_run].
  destruct (zrax_run ls h) as (z & o & Hsplit & Hz & Ho & ->).
  rewrite (bind_run _ _ _ _ _ Hsplit). simpl fst. simpl snd.
  assert (Dz : Forall (λ l, l ∈ dom h) z).
  { rewrite Forall_forall in Hdom |- *. auto. }
  assert (Do : Forall (λ l, l ∈ dom h) o).
  { rewrite Forall_forall in Hdom |- *. auto. }
  destruct (processAndAssign_run header a z h Dz) as (r1 & h1 & Hrun1 & Hsub1 & Hag1).
  destruct (Pipeline.processAndAssign (cellsAt h header) a (readBack h z))
    as [e1|out1]; simpl in Hag1.
  { subst r1. exists (inl e1), h1. by rewrite (bind_fail _ _ _ _ _ Hrun1). }
  destruct Hag1 as (final1 & -> & Hb1 & Hnd1 & Hout1 & Hin1).
  rewrite (bind_run _ _ _ _ _ Hrun1).
  assert (Do1 : Forall (λ l, l ∈ dom h1) o).
  { eapply Forall_impl; [exact Do|]. intros l. apply (subseteq_dom h h1 Hsub1). }
  destruct (processAndAssign_run header a o h1 Do1) as (r2 & h2 & Hrun2 & Hsub2 & Hag2).
  rewrite (cellsAt_weaken h h1 header Hsub1 Hheader) in Hag2.
  rewrite (readBack_weaken h h1 o Hsub1 Do) in Hag2.
  destruct (Pipeline.processAndAssign (cellsAt h header) a (readBack h o))
    as [e2|out2]; simpl in Hag2.
  { subst r2. exists (inl e2), h2. rewrite (bind_fail _ _ _ _ _ Hrun2).
    split; [done|]. split; [by etrans|done]. }
  destruct Hag2 as (final2 & -> & Hb2 & Hnd2 & Hout2 & Hin2).
  rewrite (bind_run _ _ _ _ _ Hrun2).
  exists (inr (final1 ++ final2)), h2. split; [done|]. split; [by etrans|].
  exists (final1 ++ final2). split; [done|].
  rewrite Forall_forall in Hout2.
  split; [|split; [|split]].
  - rewrite readBack_app, Hb2. f_equal. rewrite <- Hb1.
    by apply readBack_weaken.
  - apply NoDup_app. split; [done|]. split; [|done].
    intros l Hl1 Hl2. apply (Hout2 l Hl2).
    rewrite Forall_forall in Hin1. by apply Hin1.
  - apply Forall_app. split; [done|]. apply Forall_forall. intros l Hl Hin'.
    apply (Hout2 l Hl). by apply (subseteq_dom h h1 Hsub1).
  - apply Forall_app. split; [|done].
    eapply Forall_impl; [exact Hin1|]. intros l. apply (subseteq_dom h1 h2 Hsub2).
Qed.

Lemma removeCTR_run header final h hdr :
  cellsAt h header = hdr → header ∈ dom h → header ∉ final →
  NoDup final → Forall (λ l, l ∈ dom h) final →
  ∃ h', Copying.removeCTR header final h = (inr tt, h') ∧
        dom h' = dom h ∧
        match findIndex (isLabel "CTR") hdr with
        | Some ctrIndex =>
            cellsAt h' header = spliceOut ctrIndex hdr ∧
            readBack h' final = map (spliceOut (ctrIndex + 1)) (readBack h final)
        | None => cellsAt h' header = hdr ∧ readBack h' final = readBack h final
        end.
Proof.
  intros Hhdr Hheader Hnotin Hnd Hdom. unfold Copying.removeCTR.
  rewrite (bind_run (readRow header) _ h (cellsAt h header) h eq_refl), Hhdr.
  destruct (findIndex (isLabel "CTR") hdr) as [ctr|].
  2:{ exists h. by repeat split. }
  set (h1 := alter (spliceOut ctr) header h).
  exists (alterAll (λ _, spliceOut (ctr + 1)) 0 final h1).
  split; [|split; [|split]].
  - rewrite (bind_run (splice header ctr) _ h tt h1 eq_refl).
    apply (forEachFrom_alter (λ _, spliceOut (ctr + 1))).
  - rewrite alterAll_dom. apply dom_alter_L.
  - unfold cellsAt. rewrite alterAll_other by done. unfold h1.
    rewrite lookup_alter_eq. apply elem_of_dom in Hheader as [cells Hcells].
    rewrite <- Hhdr. unfold cellsAt. by rewrite Hcells.
  - rewrite alterAll_readBack; [|done|].
    + assert (readBack h1 final = readBack h final) as ->.
      { apply readBack_agree. intros l Hl. unfold h1.
        rewrite lookup_alter_ne; [done|]. by intros ->. }
      apply (imap_const (spliceOut (ctr + 1))).
    + eapply Forall_impl; [exact Hdom|]. intros l. unfold h1. by rewrite dom_alter_L.
Qed.

Lemma headerOf_readBack h ls :
  headerOf (readBack h ls) = match ls with l :: _ => cellsAt h l | [] => [] end.
Proof. by destruct ls. Qed.

(** For every store and every table of references into it, the step over
    the store ends like [assignAndGenerateExcel] on the values the table
    holds: with the same error, or with a sheet that reads back as the
    sheet computed on values, and the same pivot. *)
Theorem copying_assign_computes_the_step_on_values
    (h : store) (ls : list loc) (a : Assignees) (zf : ZraxFilter) :
  Forall (λ l, l ∈ dom h) ls →
  match Pipeline.assignAndGenerateExcel (readBack h ls) a zf,
        Copying.assignAndGenerateExcel ls a zf h with
  | inl e, (inl e', _) => e = e'
  | inr out, (inr (final, pivot), h') =>
      readBack h' final = finalSheetData out ∧ pivot = pivotData out
  | _, _ => False
  end.
Proof.
  intros Hdom.
  unfold Copying.assignAndGenerateExcel, Pipeline.assignAndGenerateExcel.
  set (c := fresh (dom h)). set (hdr := headerOf (readBack h ls)).
  set (h1 := <[ c := hdr ]> h).
  assert (Hc : c ∉ dom h) by apply fresh_not_in.
  assert (Hsub1 : h ⊆ h1) by (apply insert_subseteq; by apply not_elem_of_dom).
  assert (Hc1 : c ∈ dom h1) by (apply elem_of_dom; exists hdr; apply lookup_insert_eq).
  assert (Hhdr1 : cellsAt h1 c = hdr) by (unfold cellsAt, h1; by rewrite lookup_insert_eq).
  assert (Halloc : (match ls with
                    | l :: _ => bind (readRow l) (λ cells, alloc cells)
                    | [] => alloc []
                    end) h = (inr c, h1)).
  { unfold h1, hdr. rewrite headerOf_readBack. by destruct ls. }
  rewrite (bind_run _ _ _ _ _ Halloc).
  assert (length (readBack h ls) = length ls) as -> by apply length_map.
  destruct (length ls <? 2)%nat.
  { unfold ret. split; [|done]. cbn [readBack map]. by rewrite Hhdr1. }
  rewrite (bind_run (readRow c) _ h1 (cellsAt h1 c) h1 eq_refl), Hhdr1.
  destruct (findIndex (isLabel "Dup_VLOOKUP") hdr) as [dupIdx|]; [|done].
  destruct (keepUnresolved_run dupIdx (drop 1 ls) h1) as (kept & Hkeep & Hsubset & Hback).
  rewrite (bind_run _ _ _ _ _ Hkeep).
  assert (Dkept : Forall (λ l, l ∈ dom h) kept).
  { rewrite Forall_forall in Hdom |- *. intros l Hl. apply Hdom.
    by apply (subseteq_drop 1 ls), Hsubset. }
  assert (Dkept1 : Forall (λ l, l ∈ dom h1) kept).
  { eapply Forall_impl; [exact Dkept|]. intros l. apply (subseteq_dom h h1 Hsub1). }
  assert (Hfiltered :
    List.filter (λ row, strictEq (at_ row dupIdx) (CStr "#N/A")) (drop 1 (readBack h ls))
    = readBack h1 kept).
  { rewrite Hback. f_equal. unfold readBack. rewrite <- skipn_map.
    f_equal. symmetry. apply (readBack_weaken h h1 ls Hsub1 Hdom). }
  rewrite Hfiltered.
  destruct (assignAll_run c a zf kept h1 Hc1 Dkept1) as (r & h2 & Hrun & Hsub2 & Hag).
  rewrite Hhdr1 in Hag.
  destruct (Pipeline.assignAll hdr a zf (readBack h1 kept)) as [e|out]; simpl in Hag.
  { subst r. by rewrite (bind_fail _ _ _ _ _ Hrun). }
  destruct Hag as (final & -> & Hb & Hnd & Hout & Hin).
  rewrite (bind_run _ _ _ _ _ Hrun).
  rewrite (bind_run _ _ _ _ _ (tally_run final h2)), Hb.
  assert (Hcfinal : c ∉ final).
  { intros Hcin. rewrite Forall_forall in Hout. by apply (Hout c Hcin). }
  assert (Hc2 : c ∈ dom h2) by by apply (subseteq_dom h1 h2 Hsub2).
  assert (Hhdr2 : cellsAt h2 c = hdr) by by rewrite (cellsAt_weaken h1 h2 c Hsub2 Hc1).
  destruct (removeCTR_run c final h2 hdr Hhdr2 Hc2 Hcfinal Hnd Hin)
    as (h3 & Hrem & Hdom3 & Hctr).
  rewrite (bind_run _ _ _ _ _ Hrem).
  rewrite (bind_run (unshift c (CStr "Screener")) _ h3 tt
             (alter (cons (CStr "Screener")) c h3) eq_refl).
  unfold ret. fold (pivotOf out).
  assert (Hfinal : ∀ hdr' rows',
            cellsAt h3 c = hdr' → readBack h3 final = rows' →
            readBack (alter (cons (CStr "Screener")) c h3) (c :: final)
            = (CStr "Screener" :: hdr') :: rows').
  { intros hdr' rows' H1 H2. cbn [readBack map]. f_equal.
    - unfold cellsAt in *. rewrite lookup_alter_eq.
      assert (c ∈ dom h3) as [cells Hcells]%elem_of_dom by by rewrite Hdom3.
      rewrite Hcells in H1 |- *. simpl in *. by subst.
    - rewrite <- H2. apply readBack_agree. intros l Hl.
      rewrite lookup_alter_ne; [done|]. by intros ->. }
  destruct (findIndex (isLabel "CTR") hdr) as [ctr|]; destruct Hctr as [H1 H2];
    simpl; split; try done.
  - apply Hfinal; [done|]. by rewrite H2, Hb.
  - apply Hfinal; [done|]. by rewrite H2, Hb.
Qed.

Lemma copying_assign_computes_the_step_on_values_witness :
  match Pipeline.assignAndGenerateExcel
          (readBack (snd (layout processedSheet)) (fst (layout processedSheet)))
          team NONE,
        Copying.assignAndGenerateExcel (fst (layout processedSheet)) team NONE
          (snd (layout processedSheet)) with
  | inl e, (inl e', _) => e = e'
  | inr out, (inr (final, pivot), h') =>
      readBack h' final = finalSheetData out ∧ pivot = pivotData out
  | _, _ => False
  end.
Proof.
  apply (copying_assign_computes_the_step_on_values
           (snd (layout processedSheet)) (fst (layout processedSheet)) team NONE).
  repeat constructor; apply elem_of_dom; eexists; reflexivity.
Defined.

(** ** The earlier processor writes into the table it is given *)

Lemma aliasing_categorize_run idx ls h : ∀ b,
  ∃ b', foldM (Aliasing.categorizeStep idx) ls b h = (inr b', h) ∧
        ∀ l, l ∈ cnRows b' ++ jpRows b' ++ specialRows b' ++ generalRows b' →
             l ∈ cnRows b ++ jpRows b ++ specialRows b ++ generalRows b ∨ l ∈ ls.
Proof.
  induction ls as [|l0 ls IH]; intros b.
  - exists b. split; [done|]. by left.
  - destruct (IH (push Aliasing.specialCodes b (infoValueOf idx (cellsAt h l0)) l0))
      as (b' & Hrun & Hin).
    exists b'. split; [exact Hrun|].
    intros l Hl. destruct (Hin l Hl) as [Hpush|Hls]; [|right; by right].
    rewrite push_branch in Hpush.
    destruct (branchOf Aliasing.specialCodes idx (cellsAt h l0));
      cbn [cnRows jpRows specialRows generalRows] in Hpush;
      rewrite !elem_of_app, ?list_elem_of_singleton in Hpush;
      rewrite !elem_of_app, elem_of_cons; intuition.
Qed.

Lemma assignNames_other names sentinel rows h l :
  l ∉ rows →
  ∃ h', Heap.assignNames names sentinel rows h = (inr tt, h') ∧ h' !! l = h !! l.
Proof.
  intros Hl. unfold Heap.assignNames. destruct (0 <? length names)%nat.
  - exists (alterAll (λ j, cons (nameAt names (j mod length names))) 0 rows h).
    split; [apply (forEachFrom_alter (λ j, cons (nameAt names (j mod length names))))|].
    by apply alterAll_other.
  - exists (alterAll (λ _, cons (CStr sentinel)) 0 rows h).
    split; [apply (forEachFrom_alter (λ _, cons (CStr sentinel)))|].
    by apply alterAll_other.
Qed.

Lemma assignBuckets_other a b h l :
  l ∉ cnRows b ++ jpRows b ++ specialRows b ++ generalRows b →
  ∃ h', assignBuckets a b h
        = (inr (cnRows b ++ jpRows b ++ specialRows b ++ generalRows b), h') ∧
        h' !! l = h !! l.
Proof.
  rewrite !elem_of_app. intros Hl. unfold assignBuckets.
  destruct (assignNames_other (cnAssignees a) "UNASSIGNED_CN" (cnRows b) h l)
    as (h1 & R1 & E1); [tauto|].
  destruct (assignNames_other (jpAssignees a) "UNASSIGNED_JP" (jpRows b) h1 l)
    as (h2 & R2 & E2); [tauto|].
  destruct (assignNames_other (specialAssignees a) "UNASSIGNED_SPECIAL"
              (specialRows b) h2 l) as (h3 & R3 & E3); [tauto|].
  destruct (assignNames_other (generalAssignees a) "UNASSIGNED_GENERAL"
              (generalRows b) h3 l) as (h4 & R4 & E4); [tauto|].
  exists h4.
  rewrite (bind_run _ _ _ _ _ R1), (bind_run _ _ _ _ _ R2),
          (bind_run _ _ _ _ _ R3), (bind_run _ _ _ _ _ R4).
  split; [done|]. by rewrite E4, E3, E2, E1.
Qed.

(** Whenever the earlier step gets as far as assigning, the header array
    of its input has gained the cell "Screener". *)
Lemma aliasing_assign_changes_the_header
    (h : store) (header row : loc) (rows : list loc) (a : Assignees)
    (hdr : Row) (dupIdx infoIdx : nat) :
  h !! header = Some hdr →
  header ∉ row :: rows →
  findIndex (isLabel "Dup_VLOOKUP") hdr = Some dupIdx →
  findIndex (isLabel "Info_VLOOKUP") hdr = Some infoIdx →
  ∃ final h',
    Aliasing.assignAndGenerateExcel (header :: row :: rows) a h
    = (inr (header :: final), h') ∧
    h' !! header = Some (CStr "Screener" :: hdr).
Proof.
  intros Hhdr Hnotin Hdup Hinfo. unfold Aliasing.assignAndGenerateExcel.
  assert (Hcells : cellsAt h header = hdr) by (unfold cellsAt; by rewrite Hhdr).
  rewrite (bind_run (readRow header) _ h (cellsAt h header) h eq_refl), Hcells, Hdup.
  destruct (keepUnresolved_run dupIdx (row :: rows) h) as (kept & Hkeep & Hsubset & _).
  rewrite (bind_run _ _ _ _ _ Hkeep), Hinfo.
  set (h1 := alter (cons (CStr "Screener")) header h).
  rewrite (bind_run (unshift header (CStr "Screener")) _ h tt h1 eq_refl).
  destruct (aliasing_categorize_run infoIdx kept h1 noRows) as (b & Hcat & Hb).
  rewrite (bind_run _ _ _ _ _ Hcat).
  destruct (assignBuckets_other a b h1 header) as (h2 & Hassign & Hsame).
  { intros Hin. destruct (Hb header Hin) as [Hnil|Hkept].
    - simpl in Hnil. by apply elem_of_nil in Hnil.
    - by apply Hnotin, Hsubset. }
  rewrite (bind_run _ _ _ _ _ Hassign).
  eexists _, h2. split; [reflexivity|].
  rewrite Hsame. unfold h1. by rewrite lookup_alter_eq, Hhdr.
Qed.

Lemma aliasing_assign_changes_the_header_witness :
  ∃ final h',
    Aliasing.assignAndGenerateExcel
      (1%positive :: 2%positive
       :: [3%positive; 4%positive; 5%positive; 6%positive; 7%positive]) team
      (snd (layout processedSheet))
    = (inr (1%positive :: final), h') ∧
    h' !! 1%positive = Some (CStr "Screener" :: headerOf processedSheet).
Proof.
  apply (aliasing_assign_changes_the_header (snd (layout processedSheet))
           1%positive 2%positive
           [3%positive; 4%positive; 5%positive; 6%positive; 7%positive] team
           (headerOf processedSheet) 3 2).
  - vm_compute. reflexivity.
  - intros Hin. repeat (apply elem_of_cons in Hin as [Hin|Hin]; [discriminate|]).
    by apply elem_of_nil in Hin.
  - reflexivity.
  - reflexivity.
Defined.

End RefinementFacts.

(* ===================================================================== *)
(** * The categorizer                                                    *)
(* ===================================================================== *)

Module CategorizerFacts.
Import Js Pipeline Spec Samples AssignmentFacts.

(** ** The loop, for any case mapping and any set of codes *)

Lemma infoValue_judged upper idx row :
  infoValueOfWith upper idx row = judged upper (at_ row idx).
Proof.
  unfold infoValueOfWith, judged.
  destruct (at_ row idx) as [[|c s]|[| |m e]|[]| |]; try done.
  simpl. by destruct (m =? 0)%Z.
Qed.

Lemma categorizeStepWith_bucket upper codes idx b row :
  categorizeStepWith upper codes idx b row =
  match bucketWith upper codes idx row with
  | CN => {| cnRows := cnRows b ++ [row]; jpRows := jpRows b;
             specialRows := specialRows b; generalRows := generalRows b |}
  | JP => {| cnRows := cnRows b; jpRows := jpRows b ++ [row];
             specialRows := specialRows b; generalRows := generalRows b |}
  | SPECIAL => {| cnRows := cnRows b; jpRows := jpRows b;
                  specialRows := specialRows b ++ [row];
                  generalRows := generalRows b |}
  | GENERAL => {| cnRows := cnRows b; jpRows := jpRows b;
                  specialRows := specialRows b;
                  generalRows := generalRows b ++ [row] |}
  end.
Proof.
  unfold categorizeStepWith, bucketWith, firstMatch. rewrite infoValue_judged.
  destruct (includes (judged upper (at_ row idx)) "CN"); [done|].
  destruct (includes (judged upper (at_ row idx)) "JP"); [done|].
  by destruct (existsb _ codes).
Qed.

Lemma rowsOf_cons upper codes idx c row rest :
  rowsOf upper codes idx c (row :: rest)
  = if bool_decide (bucketWith upper codes idx row = c)
    then row :: rowsOf upper codes idx c rest
    else rowsOf upper codes idx c rest.
Proof. reflexivity. Qed.

Lemma categorizeWith_fold upper codes idx rows : ∀ b,
  fold_left (categorizeStepWith upper codes idx) rows b
  = {| cnRows := cnRows b ++ rowsOf upper codes idx CN rows;
       jpRows := jpRows b ++ rowsOf upper codes idx JP rows;
       specialRows := specialRows b ++ rowsOf upper codes idx SPECIAL rows;
       generalRows := generalRows b ++ rowsOf upper codes idx GENERAL rows |}.
Proof.
  induction rows as [|row rest IH]; intros [cn jp sp ge].
  - simpl. by rewrite !app_nil_r.
  - cbn [fold_left]. rewrite IH, categorizeStepWith_bucket, !rowsOf_cons.
    destruct (bucketWith upper codes idx row); simpl; by rewrite <- app_assoc.
Qed.

Lemma rowsOf_length upper codes idx rows :
  (length (rowsOf upper codes idx CN rows) + length (rowsOf upper codes idx JP rows)
   + length (rowsOf upper codes idx SPECIAL rows)
   + length (rowsOf upper codes idx GENERAL rows)
   = length rows)%nat.
Proof.
  induction rows as [|row rest IH]; [done|]. rewrite !rowsOf_cons.
  destruct (bucketWith upper codes idx row); simpl; lia.
Qed.

(** ** The ASCII case mapping, letter by letter *)

Lemma upperChar_meets_all :
  forallb (λ nu,
    forallb (λ nc,
      implb (negb (isLower (ascii_of_nat nu)))
        (Bool.eqb (bool_decide (ascii_of_nat nu = upperChar (ascii_of_nat nc)))
                  (meets (ascii_of_nat nu) (ascii_of_nat nc))))
      (seq 0 256)) (seq 0 256) = true.
Proof. vm_compute. reflexivity. Qed.

Lemma upperChar_meets u c :
  isLower u = false → bool_decide (u = upperChar c) = meets u c.
Proof.
  intros Hu. pose proof upperChar_meets_all as Hall.
  rewrite forallb_forall in Hall.
  specialize (Hall (nat_of_ascii u)). rewrite in_seq in Hall.
  pose proof (nat_ascii_bounded u) as Hbu. specialize (Hall ltac:(lia)).
  rewrite forallb_forall in Hall.
  specialize (Hall (nat_of_ascii c)). rewrite in_seq in Hall.
  pose proof (nat_ascii_bounded c) as Hbc. specialize (Hall ltac:(lia)).
  rewrite !ascii_nat_embedding, Hu in Hall. simpl in Hall.
  by apply Bool.eqb_prop in Hall.
Qed.

Lemma startsWith_upper code s :
  Forall (λ u, isLower u = false) code →
  startsWith code (map upperChar s) = beginsWith code s.
Proof.
  intros Hcode. revert s. induction Hcode as [|u code Hu _ IH]; intros s.
  - by destruct s.
  - destruct s as [|c s]; [done|]. cbn [map startsWith beginsWith].
    rewrite <- (upperChar_meets u c Hu), <- IH.
    destruct (decide (u = upperChar c)) as [E|E].
    + by rewrite (bool_decide_eq_true_2 _ E).
    + by rewrite (bool_decide_eq_false_2 _ E).
Qed.

Lemma includes_upper v code :
  Forall (λ u, isLower u = false) (chars code) →
  includes (toUpperCase v) code = occursIn (chars code) (chars v).
Proof.
  intros Hcode. unfold includes, toUpperCase.
  assert (chars (string_of_list_ascii (map upperChar (chars v)))
          = map upperChar (chars v)) as ->
    by apply list_ascii_of_string_of_list_ascii.
  induction (chars v) as [|c s IH].
  - simpl. by rewrite <- (startsWith_upper _ [] Hcode).
  - cbn [map includesL occursIn]. rewrite IH.
    by rewrite <- (startsWith_upper _ (c :: s) Hcode).
Qed.

Lemma firstMatch_upper codes v :
  Forall (λ code, Forall (λ u, isLower u = false) (chars code)) codes →
  firstMatch codes (toUpperCase v) = firstMatchAnyCase codes v.
Proof.
  intros Hcodes. unfold firstMatch, firstMatchAnyCase.
  rewrite !includes_upper by (repeat constructor).
  assert (existsb (λ code, includes (toUpperCase v) code) codes
          = existsb (λ code, occursIn (chars code) (chars v)) codes) as ->; [|done].
  induction Hcodes as [|code codes Hcode _ IH]; [done|].
  simpl. by rewrite IH, includes_upper.
Qed.

Lemma capital_codes codes :
  codes = specialCodes ∨ codes = Heap.Aliasing.specialCodes →
  Forall (λ code, Forall (λ u, isLower u = false) (chars code)) codes.
Proof. intros [->| ->]; repeat constructor. Qed.

(** A cell that is not truthy has a text without any code, so the guard
    [row[i] ? ... : ''] does not change the bucket. *)
Lemma judged_any_case codes (c : Cell) :
  codes = specialCodes ∨ codes = Heap.Aliasing.specialCodes →
  firstMatch codes (judged toUpperCase c) = firstMatchAnyCase codes (ToString c).
Proof.
  intros Hcodes. pose proof (capital_codes codes Hcodes) as Hcap.
  destruct c as [[|a s]|[| |m e]|[]| |]; cbn [judged];
    try (by apply firstMatch_upper); try (by destruct Hcodes as [->| ->]).
  destruct (m =? 0)%Z eqn:Hm; [|by apply firstMatch_upper].
  apply Z.eqb_eq in Hm. subst m. by destruct Hcodes as [->| ->].
Qed.

(** ** The earlier processor, over the store *)

Lemma push_bucket codes b idx cells (l : Heap.loc) :
  Heap.push codes b (infoValueOf idx cells) l =
  match bucketWith toUpperCase codes idx cells with
  | CN => {| Heap.cnRows := Heap.cnRows b ++ [l]; Heap.jpRows := Heap.jpRows b;
             Heap.specialRows := Heap.specialRows b;
             Heap.generalRows := Heap.generalRows b |}
  | JP => {| Heap.cnRows := Heap.cnRows b; Heap.jpRows := Heap.jpRows b ++ [l];
             Heap.specialRows := Heap.specialRows b;
             Heap.generalRows := Heap.generalRows b |}
  | SPECIAL => {| Heap.cnRows := Heap.cnRows b; Heap.jpRows := Heap.jpRows b;
                  Heap.specialRows := Heap.specialRows b ++ [l];
                  Heap.generalRows := Heap.generalRows b |}
  | GENERAL => {| Heap.cnRows := Heap.cnRows b; Heap.jpRows := Heap.jpRows b;
                  Heap.specialRows := Heap.specialRows b;
                  Heap.generalRows := Heap.generalRows b ++ [l] |}
  end.
Proof.
  unfold Heap.push, bucketWith, firstMatch. rewrite infoValue_judged.
  destruct (includes (judged toUpperCase (at_ cells idx)) "CN"); [done|].
  destruct (includes (judged toUpperCase (at_ cells idx)) "JP"); [done|].
  by destruct (existsb _ codes).
Qed.

Lemma push_fold codes idx (h : Heap.store) (ls : list Heap.loc) : ∀ b,
  fold_left (λ b l, Heap.push codes b (infoValueOf idx (Heap.cellsAt h l)) l) ls b
  = {| Heap.cnRows := Heap.cnRows b ++
         List.filter (λ l, bool_decide (bucketWith toUpperCase codes idx
                                          (Heap.cellsAt h l) = CN)) ls;
       Heap.jpRows := Heap.jpRows b ++
         List.filter (λ l, bool_decide (bucketWith toUpperCase codes idx
                                          (Heap.cellsAt h l) = JP)) ls;
       Heap.specialRows := Heap.specialRows b ++
         List.filter (λ l, bool_decide (bucketWith toUpperCase codes idx
                                          (Heap.cellsAt h l) = SPECIAL)) ls;
       Heap.generalRows := Heap.generalRows b ++
         List.filter (λ l, bool_decide (bucketWith toUpperCase codes idx
                                          (Heap.cellsAt h l) = GENERAL)) ls |}.
Proof.
  induction ls as [|l ls IH]; intros [cn jp sp ge].
  - simpl. by rewrite !app_nil_r.
  - cbn [fold_left List.filter]. rewrite IH, push_bucket.
    destruct (bucketWith toUpperCase codes idx (Heap.cellsAt h l)); simpl;
      by rewrite <- app_assoc.
Qed.

Lemma aliasing_buckets idx (h : Heap.store) (ls : list Heap.loc) (c : Bucket) :
  Heap.readBack h
    (List.filter (λ l, bool_decide (bucketWith toUpperCase Heap.Aliasing.specialCodes
                                      idx (Heap.cellsAt h l) = c)) ls)
  = rowsOf toUpperCase Heap.Aliasing.specialCodes idx c (Heap.readBack h ls).
Proof.
  unfold Heap.readBack, rowsOf. induction ls as [|l ls IH]; [done|].
  cbn [map List.filter].
  destruct (bool_decide (bucketWith toUpperCase Heap.Aliasing.specialCodes idx
                           (Heap.cellsAt h l) = c)); simpl; by rewrite IH.
Qed.

(** C2 (as stated) fails on the earlier processor, which knows five codes:
    the row with the value "Cuba", which contains the code CU, is handed
    to the general list ("alice"), not to the special one ("Zed"); the
    row with "Peru" is special for both. *)
Lemma earlier_processor_sends_cuba_to_general :
  let sheet := [ [CStr "Order"; CStr "Info_VLOOKUP"; CStr "Dup_VLOOKUP"];
                 [CNum (Fin 1 0); CStr "Cuba"; CStr "#N/A"];
                 [CNum (Fin 2 0); CStr "Peru"; CStr "#N/A"] ] in
  includes (toUpperCase "Cuba") "CU" = true ∧
  fst (Heap.Aliasing.assignAndGenerateExcel (fst (Heap.layout sheet)) team
         (snd (Heap.layout sheet)))
  = inr [1%positive; 3%positive; 2%positive] ∧
  Heap.readBack
    (snd (Heap.Aliasing.assignAndGenerateExcel (fst (Heap.layout sheet)) team
            (snd (Heap.layout sheet))))
    [1%positive; 3%positive; 2%positive]
  = [ [CStr "Screener"; CStr "Order"; CStr "Info_VLOOKUP"; CStr "Dup_VLOOKUP"];
      [CStr "Zed"; CNum (Fin 2 0); CStr "Peru"; CStr "#N/A"];
      [CStr "alice"; CNum (Fin 1 0); CStr "Cuba"; CStr "#N/A"] ] ∧
  categorize specialCodes 1 (drop 1 sheet)
  = {| cnRows := []; jpRows := []; specialRows := drop 1 sheet; generalRows := [] |}.
Proof. vm_compute. repeat split; reflexivity. Qed.

(** C2 (as amended). Every row that survives the duplicate filter goes to
    exactly one of the four buckets, by first match over its upper-cased
    Info_VLOOKUP value: CN, else JP, else one of the special codes of the
    processor, else GENERAL; the four bucket sizes sum to the number of
    filtered rows.  The codes are the nine RU, UA, NI, VE, BY, CU, IR, KP,
    SY in the current processor and the five RU, UA, NI, VE, BY in the
    earlier ones.  The loop is the same for every case mapping; with the
    ASCII one, an ASCII value is judged without regard to case. *)
Theorem categorizer_is_a_first_match_partition
    (upper : string → string) (codes : list string) (idx : nat) (rows : list Row) :
  let b := categorizeWith upper codes idx rows in
  cnRows b = rowsOf upper codes idx CN rows ∧
  jpRows b = rowsOf upper codes idx JP rows ∧
  specialRows b = rowsOf upper codes idx SPECIAL rows ∧
  generalRows b = rowsOf upper codes idx GENERAL rows ∧
  (∀ row c c', row ∈ rowsOf upper codes idx c rows →
               row ∈ rowsOf upper codes idx c' rows → c = c') ∧
  (∀ row, row ∈ rows → ∃ c, row ∈ rowsOf upper codes idx c rows) ∧
  (length (cnRows b) + length (jpRows b) + length (specialRows b)
   + length (generalRows b) = length rows)%nat ∧
  specialCodes = ["RU"; "UA"; "NI"; "VE"; "BY"; "CU"; "IR"; "KP"; "SY"] ∧
  Heap.Aliasing.specialCodes = ["RU"; "UA"; "NI"; "VE"; "BY"] ∧
  Middle.specialCodes = ["RU"; "UA"; "NI"; "VE"; "BY"] ∧
  (∀ (h : Heap.store) (ls : list Heap.loc),
     ∃ b', Heap.foldM (Heap.Aliasing.categorizeStep idx) ls Heap.noRows h = (inr b', h) ∧
           ∀ c, Heap.readBack h
                  (match c with
                   | CN => Heap.cnRows b' | JP => Heap.jpRows b'
                   | SPECIAL => Heap.specialRows b' | GENERAL => Heap.generalRows b'
                   end)
                = rowsOf toUpperCase Heap.Aliasing.specialCodes idx c
                    (Heap.readBack h ls)) ∧
  (∀ known row,
     known = specialCodes ∨ known = Heap.Aliasing.specialCodes →
     ascii7 (ToString (at_ row idx)) →
     bucketWith toUpperCase known idx row
     = firstMatchAnyCase known (ToString (at_ row idx))).
Proof.
  cbv zeta. unfold categorizeWith. rewrite categorizeWith_fold. simpl.
  repeat split.
  - intros row c c'. unfold rowsOf.
    rewrite !list_elem_of_In, !filter_In.
    intros [_ H1%bool_decide_eq_true] [_ H2%bool_decide_eq_true]. congruence.
  - intros row Hrow. exists (bucketWith upper codes idx row). unfold rowsOf.
    rewrite list_elem_of_In, filter_In. split; [by apply list_elem_of_In|].
    by apply bool_decide_eq_true.
  - apply rowsOf_length.
  - intros h ls. eexists. split.
    + apply (RefinementFacts.foldM_pure _
               (λ b l, Heap.push Heap.Aliasing.specialCodes b
                         (infoValueOf idx (Heap.cellsAt h l)) l)).
      reflexivity.
    + intros c. rewrite push_fold. destruct c; simpl; apply aliasing_buckets.
  - intros known row Hknown _. unfold bucketWith. by apply judged_any_case.
Qed.

End CategorizerFacts.


(* ===================================================================== *)
(** * More on the Normalizer                                              *)
(* ===================================================================== *)

Module NormalizerMore.
Import Js Pipeline Spec Samples MoreSpec NormalizerFacts.

Lemma key_coerced row : isNaN (key row) = false → key (coerced row) = key row.
Proof. intros _. unfold coerced, key. by destruct row. Qed.

Lemma firstCell_coerced row : firstCell (coerced row) = CNum (key row).
Proof. unfold firstCell, coerced. by destruct row. Qed.

Lemma firstCell_pruned row : firstCell (pruneColumns row) = firstCell row.
Proof. reflexivity. Qed.

(** The first cells of the kept rows: the numeric keys of the rows that
    were not seen before, each once. *)
Lemma keptRows_keys rows : ∀ seen,
  NoDup (map firstCell (keptRows seen rows)) ∧
  ∀ k, CNum k ∈ map firstCell (keptRows seen rows)
       ↔ isNaN k = false ∧ (k ∉ seen) ∧ ∃ src, src ∈ rows ∧ key src = k.
Proof.
  induction rows as [|row rest IH]; intros seen.
  - simpl. split; [constructor|]. intros k. rewrite elem_of_nil. split; [done|].
    intros (_ & _ & src & Hsrc & _). by apply elem_of_nil in Hsrc.
  - cbn [keptRows].
    destruct (isNaN (key row)) eqn:Hnan; cbn [negb andb].
    { destruct (IH seen) as [Hnd Hiff]. split; [done|]. intros k.
      rewrite Hiff. split.
      - intros (? & ? & src & ? & ?). split; [done|]. split; [done|].
        exists src. split; [by apply list_elem_of_further|done].
      - intros (Hk & ? & src & Hsrc & Hkey). split; [done|]. split; [done|].
        apply elem_of_cons in Hsrc as [->|Hsrc]; [congruence|]. eauto. }
    destruct (bool_decide (key row ∈ seen)) eqn:Hin; cbn [negb].
    { apply bool_decide_eq_true in Hin.
      destruct (IH seen) as [Hnd Hiff]. split; [done|]. intros k.
      rewrite Hiff. split.
      - intros (? & ? & src & ? & ?). split; [done|]. split; [done|].
        exists src. split; [by apply list_elem_of_further|done].
      - intros (Hk & Hseen & src & Hsrc & Hkey). split; [done|]. split; [done|].
        apply elem_of_cons in Hsrc as [->|Hsrc]; [congruence|]. eauto. }
    apply bool_decide_eq_false in Hin.
    destruct (IH ({[ key row ]} ∪ seen)) as [Hnd Hiff].
    cbn [map]. rewrite firstCell_coerced. split.
    + apply NoDup_cons. split; [|done]. rewrite Hiff.
      intros (_ & Hnot & _). apply Hnot. apply elem_of_union. left.
      by apply elem_of_singleton.
    + intros k. rewrite elem_of_cons, Hiff, elem_of_union, elem_of_singleton.
      split.
      * intros [[= ->]|(Hk & Hnot & src & Hsrc & Hkey)].
        -- split; [done|]. split; [done|]. exists row.
           split; [apply list_elem_of_here|done].
        -- split; [done|]. split; [tauto|]. exists src.
           split; [by apply list_elem_of_further|done].
      * intros (Hk & Hnot & src & Hsrc & Hkey).
        destruct (decide (k = key row)) as [->|Hne]; [by left|]. right.
        split; [done|]. split; [tauto|].
        apply elem_of_cons in Hsrc as [->|Hsrc]; [congruence|]. eauto.
Qed.

Lemma normalize_data_rows zf rawData :
  map firstCell (drop 1 (normalize zf rawData))
  = map firstCell
      (keptRows ∅ (drop 1 (if decide (zf = OZ) then onlyZrax rawData else rawData))).
Proof.
  unfold normalize. rewrite drop1_renameCTR, dedupe_unfold. simpl. rewrite drop_0.
  rewrite map_map. by apply map_ext.
Qed.

(** The Normalizer establishes the key invariant: the first cells of the
    data rows of its output are exactly the numeric keys found in column A
    of the raw data rows, each of them once. *)
Theorem normalized_keys_are_the_numeric_keys_once (rawData : Table) :
  NoDup (map firstCell (drop 1 (normalize NONE rawData))) ∧
  ∀ c, c ∈ map firstCell (drop 1 (normalize NONE rawData))
       ↔ ∃ k, c = CNum k ∧ isNaN k = false ∧
              ∃ src, src ∈ drop 1 rawData ∧ key src = k.
Proof.
  rewrite normalize_data_rows. simpl.
  destruct (keptRows_keys (drop 1 rawData) ∅) as [Hnd Hiff].
  split; [done|]. intros c. split.
  - intros Hc. pose proof Hc as (out & -> & Hout)%list_elem_of_fmap.
    pose proof (keptRows_origin (drop 1 rawData) ∅) as Hall.
    rewrite Forall_forall in Hall.
    destruct (Hall out Hout) as (src & Hsrc & Hn & _ & ->).
    exists (key src). rewrite firstCell_coerced. eauto.
  - intros (k & -> & Hk & src & Hsrc & Hkey). apply Hiff.
    split; [done|]. split; [set_solver|]. eauto.
Qed.

Lemma keptRows_fixed rows : ∀ seen,
  Forall (λ row, ∃ k, firstCell row = CNum k ∧ isNaN k = false ∧ (k ∉ seen)) rows →
  NoDup (map firstCell rows) →
  keptRows seen rows = rows.
Proof.
  induction rows as [|row rest IH]; intros seen Hall Hnd; [done|].
  apply Forall_cons in Hall as [(k & Hcell & Hk & Hseen) Hall].
  cbn [map] in Hnd. apply NoDup_cons in Hnd as [Hfresh Hnd].
  assert (Hkey : key row = k) by (unfold key; fold (firstCell row); by rewrite Hcell).
  cbn [keptRows]. rewrite Hkey, Hk. cbn [negb andb].
  rewrite (bool_decide_eq_false_2 _ Hseen). cbn [negb].
  assert (coerced row = row) as ->.
  { unfold coerced. rewrite Hkey. unfold firstCell, at_ in Hcell.
    destruct row as [|c r]; [done|]. simpl in Hcell. by subst c. }
  f_equal. apply IH; [|done].
  rewrite Forall_forall in Hall |- *. intros r Hr.
  destruct (Hall r Hr) as (k' & Hcell' & Hk' & Hseen').
  exists k'. split; [done|]. split; [done|].
  rewrite elem_of_union, elem_of_singleton. intros [->|?]; [|done].
  apply Hfresh. rewrite Hcell, <- Hcell'. apply list_elem_of_fmap. eauto.
Qed.

(** The key loop is idempotent: run on its own output it drops nothing
    and changes nothing. *)
Theorem dedupe_is_idempotent (rawData : Table) :
  dedupe (dedupe rawData) = dedupe rawData.
Proof.
  rewrite (dedupe_unfold rawData), dedupe_cons. f_equal.
  destruct (keptRows_keys (drop 1 rawData) ∅) as [Hnd Hiff].
  apply keptRows_fixed; [|done].
  pose proof (keptRows_origin (drop 1 rawData) ∅) as Hall.
  eapply Forall_impl; [exact Hall|].
  intros out (src & _ & Hn & _ & ->). exists (key src).
  rewrite firstCell_coerced. split; [done|]. split; [done|]. set_solver.
Qed.

(** With the "Only ZRAX" filter every data row of the Normalizer's output
    comes from a raw data row whose column Z (index 25) is the string
    "ZRAX" and whose first cell is numeric. *)
Theorem only_zrax_rows_pass_the_filter (rawData : Table) (out : Row) :
  out ∈ drop 1 (normalize OZ rawData) →
  ∃ src, src ∈ drop 1 rawData ∧ at_ src 25 = CStr "ZRAX" ∧
         isNaN (key src) = false ∧ out = pruneColumns (coerced src).
Proof.
  unfold normalize. simpl. rewrite drop1_renameCTR, dedupe_unfold. simpl.
  rewrite drop_0. intros (kept & -> & Hk)%list_elem_of_fmap.
  pose proof (keptRows_origin
                (List.filter (λ row, strictEq (at_ row 25) (CStr "ZRAX"))
                   (drop 1 rawData)) ∅) as Hall.
  rewrite Forall_forall in Hall.
  destruct (Hall kept Hk) as (src & Hsrc & Hn & _ & ->).
  apply list_elem_of_In, filter_In in Hsrc as [Hsrc Hz].
  exists src. split; [by apply list_elem_of_In|]. split; [|done].
  rewrite AssignmentFacts.strictEq_string in Hz. by apply bool_decide_eq_true in Hz.
Qed.

Lemma only_zrax_rows_pass_the_filter_witness :
  ∃ src,
    src ∈ drop 1 [ CStr "Order" :: replicate 25 (CStr "h");
                   CStr "7" :: replicate 24 (CStr "") ++ [CStr "ZRAX"];
                   CStr "8" :: replicate 25 (CStr "") ] ∧
    at_ src 25 = CStr "ZRAX" ∧ isNaN (key src) = false ∧
    CNum (Fin 7 0) :: replicate 18 (CStr "") ++ [CStr "ZRAX"]
    = pruneColumns (coerced src).
Proof.
  apply (only_zrax_rows_pass_the_filter
           [ CStr "Order" :: replicate 25 (CStr "h");
             CStr "7" :: replicate 24 (CStr "") ++ [CStr "ZRAX"];
             CStr "8" :: replicate 25 (CStr "") ]
           (CNum (Fin 7 0) :: replicate 18 (CStr "") ++ [CStr "ZRAX"])).
  vm_compute. apply list_elem_of_here.
Defined.

(** The header row passes the ZRAX filter and the key loop as it is, its
    first cell neither tested nor coerced; the pruning keeps its column A
    and what follows column G, and the cell that was in column H, when
    there is one, is overwritten with "CTR" whatever it held. *)
Theorem normalized_header_is_pruned_and_relabelled (zf : ZraxFilter) (rawData : Table) :
  headerOf (normalize zf rawData)
  = if (8 <=? length (headerOf rawData))%nat
    then at_ (headerOf rawData) 0 :: CStr "CTR" :: drop 8 (headerOf rawData)
    else [at_ (headerOf rawData) 0].
Proof.
  destruct (normalize_rows zf rawData) as (t & Ht & ->).
  assert (headerOf t = headerOf rawData) as -> by (by destruct Ht as [->|[_ ->]]).
  unfold renameCTR, pruneColumns. cbn [length]. rewrite length_drop.
  destruct (Nat.leb_spec 8 (length (headerOf rawData))) as [Hwide|Hnarrow].
  - replace (1 <? S (length (headerOf rawData) - 7))%nat with true
      by (symmetry; apply Nat.ltb_lt; lia).
    cbn [headerOf].
    destruct (lookup_lt_is_Some_2 (headerOf rawData) 7 ltac:(lia)) as [h Hh].
    by rewrite (drop_S _ _ _ Hh).
  - replace (1 <? S (length (headerOf rawData) - 7))%nat with false
      by (symmetry; apply Nat.ltb_ge; lia).
    cbn [headerOf]. by rewrite drop_ge by lia.
Qed.

End NormalizerMore.

(* ===================================================================== *)
(** * More on the two steps and their composition                        *)
(* ===================================================================== *)

Module PipelineMore.
Import Js Pipeline Spec Samples MoreSpec NormalizerFacts EnricherFacts AssignmentFacts.

(** ** Column Z before and after the pruning *)

Lemma at_pruned row i : at_ (pruneColumns row) (S i) = at_ row (7 + i).
Proof. unfold at_. unfold pruneColumns at 1. rewrite lookup_cons_ne_0 by done. simpl. by rewrite lookup_drop. Qed.

Lemma length_pruned row : length (pruneColumns row) = S (length row - 7).
Proof. unfold pruneColumns. cbn [length]. by rewrite length_drop. Qed.

Lemma coerced_rest src :
  src ≠ [] → length (coerced src) = length src ∧
             ∀ i, at_ (coerced src) (S i) = at_ src (S i).
Proof. by destruct src. Qed.

Lemma numeric_key_nonempty src : isNaN (key src) = false → src ≠ [].
Proof. by intros H ->. Qed.

(** The "Only ZRAX" filter reads column Z of the raw row (index 25), the
    "ZRAX on priority" split reads index 19 of the processed row.  For a
    raw row that reaches column Z the two tests agree. *)
Theorem zrax_flag_is_the_same_before_and_after_pruning
    (infoLookup : gmap JsNum Cell) (dupLookup : gset JsNum) (n : nat) (src : Row) :
  (26 ≤ length src)%nat →
  isZrax (enrichRow infoLookup dupLookup (S n) (pruneColumns (coerced src)))
  = strictEq (at_ src 25) (CStr "ZRAX").
Proof.
  intros Hlen.
  assert (Hne : src ≠ []) by (intros ->; simpl in Hlen; lia).
  destruct (coerced_rest src Hne) as [Hl Hat].
  unfold isZrax, enrichRow, zColIndex.
  rewrite length_app, length_pruned, Hl.
  replace (19 <? S (length src - 7) + length _)%nat with true
    by (symmetry; apply Nat.ltb_lt; simpl; lia).
  cbn [andb]. f_equal. unfold at_ at 1.
  rewrite lookup_app_l by (rewrite length_pruned, Hl; lia).
  fold (at_ (pruneColumns (coerced src)) 19). rewrite at_pruned. exact (Hat 24%nat).
Qed.

Lemma zrax_flag_is_the_same_before_and_after_pruning_witness :
  isZrax (enrichRow ∅ ∅ 1 (pruneColumns
            (coerced (CNum (Fin 7 0) :: replicate 24 (CStr "") ++ [CStr "ZRAX"]))))
  = strictEq (at_ (CNum (Fin 7 0) :: replicate 24 (CStr "") ++ [CStr "ZRAX"]) 25)
      (CStr "ZRAX").
Proof.
  apply (zrax_flag_is_the_same_before_and_after_pruning ∅ ∅ 0
           (CNum (Fin 7 0) :: replicate 24 (CStr "") ++ [CStr "ZRAX"])).
  simpl. lia.
Defined.

(** ** When the assignment step fails *)

Lemma findIndex_None {A} (p : A → bool) (l : list A) :
  findIndex p l = None ↔ ∀ x, x ∈ l → p x = false.
Proof.
  induction l as [|x l IH]; simpl.
  - split; [|done]. intros _ y Hy. by apply elem_of_nil in Hy.
  - destruct (p x) eqn:E.
    + split; [done|]. intros H. specialize (H x (list_elem_of_here _ _)). congruence.
    + rewrite fmap_None, IH. split.
      * intros H y [->|Hy]%elem_of_cons; auto.
      * intros H y Hy. apply H. by apply list_elem_of_further.
Qed.

Lemma label_missing label (header : Row) :
  findIndex (isLabel label) header = None ↔ CStr label ∉ header.
Proof.
  rewrite findIndex_None. unfold isLabel. split.
  - intros H Hin. specialize (H _ Hin). rewrite strictEq_string in H.
    by apply bool_decide_eq_false in H.
  - intros H x Hx. rewrite strictEq_string. apply bool_decide_eq_false.
    by intros ->.
Qed.

Lemma label_found label (header : Row) i :
  findIndex (isLabel label) header = Some i → CStr label ∈ header.
Proof.
  intros Hi. destruct (decide (CStr label ∈ header)) as [|Hn]; [done|].
  apply label_missing in Hn. congruence.
Qed.

Lemma assignAll_outcome header a zf rows :
  match assignAll header a zf rows with
  | inl e => e = InfoColumnNotFound ∧ CStr "Info_VLOOKUP" ∉ header
  | inr _ => CStr "Info_VLOOKUP" ∈ header
  end.
Proof.
  unfold assignAll, processAndAssign.
  destruct (findIndex (isLabel "Info_VLOOKUP") header) as [idx|] eqn:E.
  - apply label_found in E.
    destruct (decide (zf = ZOP)); [|done]. by destruct (fold_left zraxStep rows ([], [])).
  - apply label_missing in E.
    destruct (decide (zf = ZOP)); [|done]. by destruct (fold_left zraxStep rows ([], [])).
Qed.

Lemma assign_succeeds processedData a zf :
  CStr "Dup_VLOOKUP" ∈ headerOf processedData →
  CStr "Info_VLOOKUP" ∈ headerOf processedData →
  ∃ out, assignAndGenerateExcel processedData a zf = inr out.
Proof.
  intros Hdup Hinfo. unfold assignAndGenerateExcel.
  destruct (length processedData <? 2)%nat; [eauto|].
  destruct (findIndex (isLabel "Dup_VLOOKUP") (headerOf processedData))
    as [dupIdx|] eqn:E; [|by apply label_missing in E].
  pose proof (assignAll_outcome (headerOf processedData) a zf
                (List.filter (λ row, strictEq (at_ row dupIdx) (CStr "#N/A"))
                   (drop 1 processedData))) as Hall.
  destruct (assignAll _ _ _ _) as [e|assigned]; [by destruct Hall|].
  destruct (findIndex (isLabel "CTR") (headerOf processedData)); eauto.
Qed.

(** The assignment step fails in two cases only, and in this order: the
    sheet has a data row but its header lacks the label "Dup_VLOOKUP";
    or it lacks the label "Info_VLOOKUP", even when no row is left to
    assign.  A sheet of fewer than two rows is returned as its header,
    whatever the header holds. *)
Theorem assign_fails_exactly_on_a_missing_label
    (processedData : Table) (a : Assignees) (zf : ZraxFilter) :
  match assignAndGenerateExcel processedData a zf with
  | inl e =>
      (2 ≤ length processedData)%nat ∧
      ((e = DupColumnNotFound ∧ CStr "Dup_VLOOKUP" ∉ headerOf processedData) ∨
       (e = InfoColumnNotFound ∧ CStr "Dup_VLOOKUP" ∈ headerOf processedData ∧
        CStr "Info_VLOOKUP" ∉ headerOf processedData))
  | inr out =>
      ((length processedData < 2)%nat ∧ finalSheetData out = [headerOf processedData] ∧
       pivotData out = []) ∨
      ((2 ≤ length processedData)%nat ∧ CStr "Dup_VLOOKUP" ∈ headerOf processedData ∧
       CStr "Info_VLOOKUP" ∈ headerOf processedData)
  end.
Proof.
  unfold assignAndGenerateExcel.
  destruct (length processedData <? 2)%nat eqn:Hlen.
  { apply Nat.ltb_lt in Hlen. by left. }
  apply Nat.ltb_ge in Hlen.
  destruct (findIndex (isLabel "Dup_VLOOKUP") (headerOf processedData))
    as [dupIdx|] eqn:Hdup.
  - apply label_found in Hdup.
    pose proof (assignAll_outcome (headerOf processedData) a zf
                  (List.filter (λ row, strictEq (at_ row dupIdx) (CStr "#N/A"))
                     (drop 1 processedData))) as Hall.
    destruct (assignAll _ _ _ _) as [e|assigned].
    + destruct Hall as [-> Hinfo]. split; [done|]. by right.
    + destruct (findIndex (isLabel "CTR") (headerOf processedData)); by right.
  - apply label_missing in Hdup. split; [done|]. by left.
Qed.

Lemma enriched_is_assignable infoLookup dupLookup zf rawData a zf' :
  ∃ out, assignAndGenerateExcel
           (enrich infoLookup dupLookup (normalize zf rawData)) a zf' = inr out.
Proof.
  destruct (normalize_nonempty zf rawData) as (header & rows & ->).
  rewrite enrich_cons.
  apply assign_succeeds; cbn [headerOf]; rewrite elem_of_app; right.
  - apply list_elem_of_further, list_elem_of_here.
  - apply list_elem_of_here.
Qed.

(** The two steps compose: whatever the three workbooks and the filter,
    a sheet that [runInitialProcessing] returns is accepted by
    [assignAndGenerateExcel]; neither of its two errors can occur. *)
Theorem processed_sheet_is_always_assignable
    (rawWb infoWb dupWb : Workbook) (zf : ZraxFilter) (processedData : Table)
    (a : Assignees) (zf' : ZraxFilter) :
  runInitialProcessing rawWb infoWb dupWb zf = inr processedData →
  ∃ out, assignAndGenerateExcel processedData a zf' = inr out.
Proof.
  unfold runInitialProcessing.
  destruct (sheet rawWb _) as [rawData|]; [|done].
  destruct (usableSheet infoWb _) as [infoData|]; [|done].
  destruct (usableSheet dupWb _) as [dupData|]; [|done].
  intros [= <-]. apply enriched_is_assignable.
Qed.

Lemma processed_sheet_is_always_assignable_witness :
  ∃ out, assignAndGenerateExcel
           (enrich (buildInfoLookup infoSheet) (buildDupLookup dupSheet)
              (normalize NONE rawSheet)) team ZOP = inr out.
Proof.
  apply (processed_sheet_is_always_assignable
           (book "Raw" rawSheet) (book "Sheet3" infoSheet)
           (book "Master Hold Report" dupSheet) NONE _ team ZOP).
  vm_compute. reflexivity.
Defined.

(** ** Which worksheet is read *)

Lemma find_first {A} (p : A → bool) (l : list A) (x : A) :
  List.find p l = Some x →
  ∃ i, l !! i = Some x ∧ p x = true ∧
       ∀ j y, (j < i)%nat → l !! j = Some y → p y = false.
Proof.
  induction l as [|z l IH]; simpl; [done|]. destruct (p z) eqn:E.
  - intros [= ->]. exists 0%nat. split; [done|]. split; [done|]. intros; lia.
  - intros (i & Hi & Hp & Hbefore)%IH. exists (S i). split; [done|]. split; [done|].
    intros [|j] y Hj Hy; simpl in Hy; [by injection Hy as <-|].
    apply (Hbefore j); [lia|done].
Qed.

Lemma matches_nonempty target name :
  target ≠ "" → matches target name = true → name ≠ "".
Proof. intros Ht Hm ->. by destruct target. Qed.

Lemma truthy_name name : name ≠ "" → truthy (CStr name) = true.
Proof. intros H. simpl. by rewrite bool_decide_eq_false_2. Qed.

Lemma usableSheet_choice wb target :
  target ≠ "" → wellFormed wb →
  usableSheet wb target
  = match List.find (matches target) (SheetNames wb) with
    | Some name => Sheets wb !! name
    | None => match SheetNames wb with
              | first :: _ => Sheets wb !! first
              | [] => None
              end
    end.
Proof.
  intros Ht [Hne Hsheets]. unfold usableSheet, sheetNameFor.
  change (List.find _ (SheetNames wb)) with (List.find (matches target) (SheetNames wb)).
  destruct (List.find (matches target) (SheetNames wb)) as [name|] eqn:Hfind.
  - apply find_some in Hfind as [_ Hm].
    by rewrite !(truthy_name name (matches_nonempty _ _ Ht Hm)).
  - destruct (SheetNames wb) as [|first rest]; [done|]. cbn [head].
    rewrite truthy_name; [done|]. intros ->. apply Hne, list_elem_of_here.
Qed.

Lemma usableSheet_None wb target :
  target ≠ "" → wellFormed wb →
  usableSheet wb target = None ↔ SheetNames wb = [].
Proof.
  intros Ht Hwf. rewrite (usableSheet_choice wb target Ht Hwf).
  destruct Hwf as [_ Hsheets].
  destruct (List.find (matches target) (SheetNames wb)) as [name|] eqn:Hfind.
  - apply find_some in Hfind as [Hin _]. apply list_elem_of_In in Hin.
    pose proof Hin as [t Ht']%Hsheets. rewrite Ht'. split; [done|].
    intros E. rewrite E in Hin. by apply elem_of_nil in Hin.
  - destruct (SheetNames wb) as [|first rest]; [done|].
    destruct (proj2 (Hsheets first) (list_elem_of_here _ _)) as [t Ht'].
    by rewrite Ht'.
Qed.

Lemma firstSheet_None wb :
  wellFormed wb → sheet wb (head (SheetNames wb)) = None ↔ SheetNames wb = [].
Proof.
  intros [_ Hsheets]. unfold sheet.
  destruct (SheetNames wb) as [|first rest]; simpl.
  - split; [done|]. intros _. apply eq_None_not_Some. rewrite Hsheets.
    apply not_elem_of_nil.
  - split; [|done]. intros Hnone.
    destruct (proj2 (Hsheets first) (list_elem_of_here _ _)) as [t Ht']. congruence.
Qed.

Lemma book_wellFormed name t : name ≠ "" → wellFormed (book name t).
Proof.
  intros Hne. split; simpl.
  - rewrite list_elem_of_singleton. congruence.
  - intros n. rewrite list_elem_of_singleton.
    destruct (decide (n = name)) as [->|Hn].
    + rewrite lookup_singleton_eq. split; eauto.
    + rewrite lookup_singleton_ne by congruence. split; [by intros ?%is_Some_None|done].
Qed.

(** The info and the duplicate worksheet: the first sheet whose name, in
    lower case, contains the target; when no name does, the first sheet
    of the workbook.  The choice fails only for a workbook without
    sheets. *)
Theorem worksheet_is_the_first_match_or_the_first_sheet
    (wb : Workbook) (target : string) :
  target ≠ "" → wellFormed wb →
  (usableSheet wb target = None ↔ SheetNames wb = []) ∧
  ∀ t, usableSheet wb target = Some t →
    ∃ i name,
      SheetNames wb !! i = Some name ∧ Sheets wb !! name = Some t ∧
      ((matches target name = true ∧
        ∀ j other, (j < i)%nat → SheetNames wb !! j = Some other →
                   matches target other = false)
       ∨ (i = 0%nat ∧ ∀ other, other ∈ SheetNames wb → matches target other = false)).
Proof.
  intros Ht Hwf. split; [by apply usableSheet_None|].
  intros t. rewrite (usableSheet_choice wb target Ht Hwf).
  destruct (List.find (matches target) (SheetNames wb)) as [name|] eqn:Hfind.
  - intros Hsheet. destruct (find_first _ _ _ Hfind) as (i & Hi & Hm & Hbefore).
    exists i, name. split; [done|]. split; [done|]. left. by split.
  - destruct (SheetNames wb) as [|first rest] eqn:E; [done|]. intros Hsheet.
    exists 0%nat, first. split; [done|]. split; [done|]. right. split; [done|].
    intros other Hin. apply (find_none _ _ Hfind). by apply list_elem_of_In.
Qed.

Lemma worksheet_is_the_first_match_or_the_first_sheet_witness :
  (usableSheet (book "Sheet3" infoSheet) "sheet3" = None
   ↔ SheetNames (book "Sheet3" infoSheet) = []) ∧
  ∀ t, usableSheet (book "Sheet3" infoSheet) "sheet3" = Some t →
    ∃ i name,
      SheetNames (book "Sheet3" infoSheet) !! i = Some name ∧
      Sheets (book "Sheet3" infoSheet) !! name = Some t ∧
      ((matches "sheet3" name = true ∧
        ∀ j other, (j < i)%nat → SheetNames (book "Sheet3" infoSheet) !! j = Some other →
                   matches "sheet3" other = false)
       ∨ (i = 0%nat ∧ ∀ other, other ∈ SheetNames (book "Sheet3" infoSheet) →
                               matches "sheet3" other = false)).
Proof.
  apply (worksheet_is_the_first_match_or_the_first_sheet (book "Sheet3" infoSheet) "sheet3").
  - discriminate.
  - apply book_wellFormed. discriminate.
Defined.

(** [runInitialProcessing] on workbooks as the reader returns them fails
    only when one of them has no sheet, and reports the first such file
    in the order raw, information, duplicate; otherwise it returns a
    sheet with a header row. *)
Theorem initial_processing_fails_only_on_a_workbook_without_sheets
    (rawWb infoWb dupWb : Workbook) (zf : ZraxFilter) :
  wellFormed rawWb → wellFormed infoWb → wellFormed dupWb →
  match runInitialProcessing rawWb infoWb dupWb zf with
  | inl e =>
      (e = RawEmptyOrCorrupted ∧ SheetNames rawWb = []) ∨
      (e = NoInfoWorksheet ∧ SheetNames rawWb ≠ [] ∧ SheetNames infoWb = []) ∨
      (e = NoDupWorksheet ∧ SheetNames rawWb ≠ [] ∧ SheetNames infoWb ≠ [] ∧
       SheetNames dupWb = [])
  | inr processedData =>
      SheetNames rawWb ≠ [] ∧ SheetNames infoWb ≠ [] ∧ SheetNames dupWb ≠ [] ∧
      ∃ header rows, processedData = header :: rows
  end.
Proof.
  intros Hraw Hinfo Hdup. unfold runInitialProcessing.
  pose proof (firstSheet_None rawWb Hraw) as H1.
  pose proof (usableSheet_None infoWb "sheet3" ltac:(discriminate) Hinfo) as H2.
  pose proof (usableSheet_None dupWb "master hold report" ltac:(discriminate) Hdup) as H3.
  destruct (sheet rawWb _) as [rawData|]; [|left; split; [done|]; by apply H1].
  assert (SheetNames rawWb ≠ []) by (intros E; by apply H1 in E).
  destruct (usableSheet infoWb _) as [infoData|];
    [|right; left; split; [done|]; split; [done|]; by apply H2].
  assert (SheetNames infoWb ≠ []) by (intros E; by apply H2 in E).
  destruct (usableSheet dupWb _) as [dupData|];
    [|right; right; split; [done|]; split; [done|]; split; [done|]; by apply H3].
  assert (SheetNames dupWb ≠ []) by (intros E; by apply H3 in E).
  split; [done|]. split; [done|]. split; [done|].
  destruct (normalize_nonempty zf rawData) as (header & rows & ->).
  rewrite enrich_cons. eauto.
Qed.

Lemma initial_processing_fails_only_on_a_workbook_without_sheets_witness :
  match runInitialProcessing (book "Raw" rawSheet) (book "Sheet3" infoSheet)
          {| SheetNames := []; Sheets := ∅ |} OZ with
  | inl e =>
      (e = RawEmptyOrCorrupted ∧ SheetNames (book "Raw" rawSheet) = []) ∨
      (e = NoInfoWorksheet ∧ SheetNames (book "Raw" rawSheet) ≠ [] ∧
       SheetNames (book "Sheet3" infoSheet) = []) ∨
      (e = NoDupWorksheet ∧ SheetNames (book "Raw" rawSheet) ≠ [] ∧
       SheetNames (book "Sheet3" infoSheet) ≠ [] ∧
       SheetNames {| SheetNames := []; Sheets := ∅ |} = [])
  | inr processedData =>
      SheetNames (book "Raw" rawSheet) ≠ [] ∧ SheetNames (book "Sheet3" infoSheet) ≠ [] ∧
      SheetNames {| SheetNames := []; Sheets := ∅ |} ≠ [] ∧
      ∃ header rows, processedData = header :: rows
  end.
Proof.
  apply (initial_processing_fails_only_on_a_workbook_without_sheets
           (book "Raw" rawSheet) (book "Sheet3" infoSheet)
           {| SheetNames := []; Sheets := ∅ |} OZ).
  - apply book_wellFormed. discriminate.
  - apply book_wellFormed. discriminate.
  - split; simpl; [apply not_elem_of_nil|].
    intros name. rewrite lookup_empty. split; [by intros ?%is_Some_None|].
    by intros ?%elem_of_nil.
Defined.

(** ** From the three files to the final sheet *)

Lemma normalize_shape zf rawData :
  uniform rawData → CStr "Dup_VLOOKUP" ∉ headerOf rawData →
  ∃ header rows,
    normalize zf rawData = header :: rows ∧ (CStr "Dup_VLOOKUP" ∉ header) ∧
    Forall (λ row : Row, length row = length header ∧ ∃ k, at_ row 0 = CNum k) rows.
Proof.
  intros Hunif Hfree. destruct (normalize_rows zf rawData) as (t & Ht & ->).
  assert (Hhdr : headerOf t = headerOf rawData) by (by destruct Ht as [->|[_ ->]]).
  assert (Hsub : ∀ row, row ∈ drop 1 t → row ∈ rawData).
  { intros row Hrow. apply (subseteq_drop 1 rawData).
    destruct Ht as [->|[_ ->]]; [done|]. by apply onlyZrax_rows. }
  rewrite Hhdr.
  assert (Hph : CStr "Dup_VLOOKUP" ∉ pruneColumns (headerOf rawData)).
  { unfold pruneColumns. rewrite not_elem_of_cons. split.
    - unfold at_. destruct (headerOf rawData !! 0%nat) as [c|] eqn:E; [|done].
      intros <-. apply Hfree. by apply list_elem_of_lookup_2 in E.
    - intros Hin. by apply Hfree, (subseteq_drop 7). }
  assert (Hrows : Forall (λ row : Row,
            length row = length (pruneColumns (headerOf rawData)) ∧
            ∃ k, at_ row 0 = CNum k)
            (map pruneColumns (keptRows ∅ (drop 1 t)))).
  { apply Forall_forall. intros row (out & -> & Hout)%list_elem_of_fmap.
    pose proof (keptRows_origin (drop 1 t) ∅) as Hall. rewrite Forall_forall in Hall.
    destruct (Hall out Hout) as (src & Hsrc & Hn & _ & ->).
    destruct (coerced_rest src (numeric_key_nonempty src Hn)) as [Hl _].
    unfold uniform in Hunif. rewrite Forall_forall in Hunif.
    rewrite !length_pruned, Hl, (Hunif src (Hsub src Hsrc)). split; [done|].
    exists (key src). unfold coerced. by destruct src. }
  unfold renameCTR.
  destruct (1 <? length (pruneColumns (headerOf rawData)))%nat; [|eauto].
  eexists _, _. split; [done|]. split.
  - intros (j & Hj)%list_elem_of_lookup.
    apply list_lookup_insert_Some in Hj as [(_ & [=] & _)|[_ Hj]].
    apply Hph. by apply list_elem_of_lookup_2 in Hj.
  - by rewrite length_insert.
Qed.

Lemma dup_index_of_enriched (header : Row) :
  CStr "Dup_VLOOKUP" ∉ header →
  findIndex (isLabel "Dup_VLOOKUP") (header ++ [CStr "Info_VLOOKUP"; CStr "Dup_VLOOKUP"])
  = Some (length header + 1)%nat.
Proof.
  induction header as [|c header IH]; intros Hfree; [done|].
  apply not_elem_of_cons in Hfree as [Hc Hfree]. cbn [app findIndex].
  unfold isLabel at 1. rewrite strictEq_string, bool_decide_eq_false_2 by congruence.
  by rewrite IH.
Qed.

Lemma enriched_dup_cell infoLookup dupData (width : nat) (row : Row) k :
  length row = width → at_ row 0 = CNum k →
  bool_decide (at_ (enrichRow infoLookup (buildDupLookup dupData) 1 row) (width + 1)
               = CStr "#N/A")
  = negb (inDuplicatesb dupData (key (enrichRow infoLookup (buildDupLookup dupData) 1 row))).
Proof.
  intros Hlen Hk. unfold enrichRow. rewrite Hk. cbn [setHas].
  rewrite inDuplicatesb_spec.
  assert (key (row ++ [nullish (mapGet infoLookup (CNum k)) (CStr "#N/A");
                       if inDuplicatesb dupData k then CNum k else CStr "#N/A"]) = k)
    as ->.
  { unfold key, at_ in *. destruct row as [|c r]; [done|]. simpl in *. by subst c. }
  unfold at_. rewrite lookup_app_r by lia.
  replace (width + 1 - length row)%nat with 1%nat by lia. simpl.
  by destruct (inDuplicatesb dupData k).
Qed.

(** End to end.  For a raw sheet whose rows are as wide as its header and
    whose header does not already carry the label "Dup_VLOOKUP", the two
    steps in sequence always succeed, and the rows of the final sheet are,
    up to their order, exactly the processed rows whose key is not among
    the numbers of column G of the duplicate sheet. *)
Theorem known_duplicates_never_reach_the_final_sheet
    (rawWb infoWb dupWb : Workbook) (zf : ZraxFilter)
    (rawData dupData processedData : Table) (a : Assignees) (zf' : ZraxFilter) :
  sheet rawWb (head (SheetNames rawWb)) = Some rawData →
  usableSheet dupWb "master hold report" = Some dupData →
  uniform rawData →
  CStr "Dup_VLOOKUP" ∉ headerOf rawData →
  runInitialProcessing rawWb infoWb dupWb zf = inr processedData →
  ∃ out assigned final,
    assignAndGenerateExcel processedData a zf' = inr out ∧
    drop 1 (finalSheetData out) = map final assigned ∧
    (final = id ∨ ∃ ctr, final = spliceOut (S ctr)) ∧
    Permutation (map (drop 1) assigned)
      (List.filter (λ row, negb (inDuplicatesb dupData (key row)))
         (drop 1 processedData)).
Proof.
  intros Hraw Hdup Hunif Hfree. unfold runInitialProcessing. rewrite Hraw.
  destruct (usableSheet infoWb _) as [infoData|]; [|done]. rewrite Hdup.
  intros [= <-].
  destruct (enriched_is_assignable (buildInfoLookup infoData) (buildDupLookup dupData)
              zf rawData a zf') as [out Hout].
  exists out.
  destruct (normalize_shape zf rawData Hunif Hfree) as (header & rows & Hn & Hh & Hrows).
  rewrite Hn, enrich_cons in Hout |- *. cbn [drop].
  destruct (assign_inversion _ _ _ _ Hout)
    as [(Hempty & Hfin & _)|(dupIdx & assigned & hdr & final & Hidx & Hall & Hfin & _ & Hfinal)].
  - exists [], id. cbn [drop] in Hempty. rewrite Hfin, Hempty.
    split; [done|]. split; [done|]. split; [by left|]. constructor.
  - exists assigned, final. rewrite Hfin. split; [done|]. split; [done|].
    split; [done|]. rewrite (assignAll_tails _ _ _ _ _ Hall). cbn [drop headerOf] in *.
    rewrite (dup_index_of_enriched header Hh) in Hidx. injection Hidx as <-.
    erewrite filter_ext_in; [reflexivity|].
    intros row (src & <- & Hsrc)%in_map_iff. apply list_elem_of_In in Hsrc.
    rewrite Forall_forall in Hrows. destruct (Hrows src Hsrc) as [Hlen [k Hk]].
    by apply (enriched_dup_cell _ _ _ _ k).
Qed.

Lemma known_duplicates_never_reach_the_final_sheet_witness :
  ∃ out assigned final,
    assignAndGenerateExcel
      (enrich (buildInfoLookup infoSheet) (buildDupLookup dupSheet)
         (normalize NONE rawSheet)) team NONE = inr out ∧
    drop 1 (finalSheetData out) = map final assigned ∧
    (final = id ∨ ∃ ctr, final = spliceOut (S ctr)) ∧
    Permutation (map (drop 1) assigned)
      (List.filter (λ row, negb (inDuplicatesb dupSheet (key row)))
         (drop 1 (enrich (buildInfoLookup infoSheet) (buildDupLookup dupSheet)
                    (normalize NONE rawSheet)))).
Proof.
  apply (known_duplicates_never_reach_the_final_sheet
           (book "Raw" rawSheet) (book "Sheet3" infoSheet)
           (book "Master Hold Report" dupSheet) NONE rawSheet dupSheet _ team NONE).
  - reflexivity.
  - vm_compute. reflexivity.
  - repeat constructor.
  - intros Hin. repeat (apply elem_of_cons in Hin as [Hin|Hin]; [discriminate|]).
    by apply elem_of_nil in Hin.
  - vm_compute. reflexivity.
Defined.

End PipelineMore.

(* ===================================================================== *)
(** * More on the assignment                                             *)
(* ===================================================================== *)

Module AssignmentMore.
Import Js Pipeline Spec Samples MoreSpec AssignmentFacts.

(** ** The share of each name *)

Lemma turns_S m j n :
  turns m j (S n) = (turns m j n + if (n mod m =? j)%nat then 1 else 0)%nat.
Proof.
  unfold turns. rewrite seq_S, List.filter_app, length_app. simpl.
  by destruct (n mod m =? j)%nat.
Qed.

Lemma turns_formula m j n :
  (j < m)%nat →
  turns m j n = (n / m + if (j <? n mod m)%nat then 1 else 0)%nat.
Proof.
  intros Hj. induction n as [|n IH].
  - rewrite Nat.Div0.div_0_l, Nat.Div0.mod_0_l. reflexivity.
  - rewrite turns_S, IH.
    pose proof (Nat.div_mod_eq n m) as Hn.
    pose proof (Nat.mod_upper_bound n m ltac:(lia)) as Hr.
    destruct (decide (S (n mod m) = m)) as [Hwrap|Hnext].
    + assert (S n / m = S (n / m))%nat as ->
        by (symmetry; apply (Nat.div_unique _ _ _ 0%nat); lia).
      assert (S n mod m = 0)%nat as ->
        by (symmetry; apply (Nat.mod_unique _ _ (S (n / m))); lia).
      destruct (Nat.eqb_spec (n mod m) j), (Nat.ltb_spec j (n mod m)),
        (Nat.ltb_spec j 0); lia.
    + assert (S n / m = n / m)%nat as ->
        by (symmetry; apply (Nat.div_unique _ _ _ (S (n mod m))); lia).
      assert (S n mod m = S (n mod m))%nat as ->
        by (symmetry; apply (Nat.mod_unique _ _ (n / m)); lia).
      destruct (Nat.eqb_spec (n mod m) j), (Nat.ltb_spec j (n mod m)),
        (Nat.ltb_spec j (S (n mod m))); lia.
Qed.

Lemma nameAt_is names j name i :
  NoDup names → names !! j = Some name → (i < length names)%nat →
  nameAt names i = CStr name ↔ i = j.
Proof.
  intros Hnd Hj Hi. unfold nameAt.
  destruct (lookup_lt_is_Some_2 names i Hi) as [n Hn]. rewrite Hn. split.
  - intros [= ->]. by apply (NoDup_lookup names i j name).
  - intros ->. congruence.
Qed.

Lemma ownedBy_from names j name (rows : list Row) : ∀ o,
  NoDup names → names !! j = Some name →
  ownedBy name
    (imap (λ i row, nameAt names ((o + i) mod length names) :: row) rows)
  = length (List.filter (λ i, (i mod length names =? j)%nat) (seq o (length rows))).
Proof.
  induction rows as [|row rest IH]; intros o Hnd Hj; [done|].
  assert (Hm : (0 < length names)%nat) by (apply lookup_lt_Some in Hj; lia).
  rewrite imap_cons, ownedBy_cons. cbn [length seq List.filter].
  rewrite (imap_ext _ (λ i row, nameAt names ((S o + i) mod length names) :: row))
    by (intros i x _; simpl; do 3 f_equal; lia).
  rewrite (IH (S o) Hnd Hj). rewrite Nat.add_0_r.
  change (at_ (nameAt names (o mod length names) :: row) 0)
    with (nameAt names (o mod length names)).
  pose proof (nameAt_is names j name (o mod length names) Hnd Hj
                (Nat.mod_upper_bound o (length names) ltac:(lia))) as Hiff.
  destruct (decide (nameAt names (o mod length names) = CStr name)) as [Hy|Hn].
  - apply Hiff in Hy. rewrite Hy, Nat.eqb_refl. reflexivity.
  - destruct (Nat.eqb_spec (o mod length names) j) as [E|_]; [|done].
    by apply Hiff in E.
Qed.

(** The round robin is fair: within one bucket of [n] rows and [m]
    distinct names the name at position [j] of the list gets [n / m] rows,
    and one more when [j < n mod m]; no two names differ by more than one
    row. *)
Theorem round_robin_share
    (names : list string) (sentinel : string) (rows : list Row)
    (j : nat) (name : string) :
  NoDup names → names !! j = Some name →
  ownedBy name (assignNames names sentinel rows)
  = (length rows / length names
     + if (j <? length rows mod length names)%nat then 1 else 0)%nat.
Proof.
  intros Hnd Hj. pose proof (lookup_lt_Some _ _ _ Hj) as Hlt.
  unfold assignNames.
  replace (0 <? length names)%nat with true by (symmetry; apply Nat.ltb_lt; lia).
  rewrite <- (turns_formula _ _ _ Hlt). unfold turns.
  by rewrite <- (ownedBy_from names j name rows 0%nat Hnd Hj).
Qed.

Lemma round_robin_share_witness :
  ownedBy "Alice" (assignNames ["Alice"; "Bob"] "UNASSIGNED_CN"
                     [ [CNum (Fin 1 0)]; [CNum (Fin 3 0)]; [CNum (Fin 8 0)] ])
  = (3 / 2 + if (0 <? 3 mod 2)%nat then 1 else 0)%nat.
Proof.
  apply (round_robin_share ["Alice"; "Bob"] "UNASSIGNED_CN"
           [ [CNum (Fin 1 0)]; [CNum (Fin 3 0)]; [CNum (Fin 8 0)] ] 0 "Alice").
  - apply NoDup_cons. split; [rewrite list_elem_of_singleton; discriminate|].
    apply NoDup_singleton.
  - reflexivity.
Defined.

(** ** "ZRAX on priority" *)

Lemma tails_satisfy (p : Row → bool) (assigned rows : list Row) :
  Permutation (map (drop 1) assigned) (List.filter p rows) →
  Forall (λ row, p (drop 1 row) = true) assigned.
Proof.
  intros Hperm. apply Forall_forall. intros row Hrow.
  assert (Hin : drop 1 row ∈ map (drop 1) assigned)
    by (apply list_elem_of_fmap; eauto).
  rewrite Hperm in Hin. by apply list_elem_of_In, filter_In in Hin as [_ ?].
Qed.

(** With "ZRAX on priority" the rows flagged ZRAX are partitioned and
    handed out on their own, then the other rows, each group starting
    again at the first name; in the result every flagged row stands
    before every other row. *)
Theorem zrax_rows_are_assigned_first
    (header : Row) (a : Assignees) (rows : list Row) (out : list Row) :
  assignAll header a ZOP rows = inr out →
  ∃ first second,
    out = first ++ second ∧
    processAndAssign header a (List.filter isZrax rows) = inr first ∧
    processAndAssign header a (List.filter (λ row, negb (isZrax row)) rows)
    = inr second ∧
    Forall (λ row, isZrax (drop 1 row) = true) first ∧
    Forall (λ row, isZrax (drop 1 row) = false) second.
Proof.
  unfold assignAll. destruct (decide (ZOP = ZOP)) as [_|]; [|done].
  rewrite zrax_fold. cbn [app].
  destruct (processAndAssign header a (List.filter isZrax rows))
    as [e|first] eqn:H1; [done|].
  destruct (processAndAssign header a (List.filter (λ row, negb (isZrax row)) rows))
    as [e|second] eqn:H2; [done|].
  intros [= <-]. exists first, second. split; [done|]. split; [done|]. split; [done|].
  split.
  - apply (tails_satisfy isZrax _ rows), (processAndAssign_tails _ _ _ _ H1).
  - eapply Forall_impl;
      [apply (tails_satisfy (λ row, negb (isZrax row)) _ rows),
         (processAndAssign_tails _ _ _ _ H2)|].
    intros row Hrow. by apply negb_true_iff in Hrow.
Qed.

Lemma zrax_rows_are_assigned_first_witness :
  ∃ first second,
    [ CStr "Alice" :: zrow 2 "cn" "ZRAX"; CStr "Bob" :: zrow 3 "cn" "ZRAX";
      CStr "Alice" :: zrow 1 "cn" ""; CStr "Bob" :: zrow 4 "cn" "" ]
    = first ++ second ∧
    processAndAssign zheader team (List.filter isZrax zrows) = inr first ∧
    processAndAssign zheader team (List.filter (λ row, negb (isZrax row)) zrows)
    = inr second ∧
    Forall (λ row, isZrax (drop 1 row) = true) first ∧
    Forall (λ row, isZrax (drop 1 row) = false) second.
Proof.
  apply (zrax_rows_are_assigned_first zheader team zrows).
  vm_compute. reflexivity.
Defined.

(** On that sheet: the two flagged rows come first and go to Alice and
    Bob, then the two others, again to Alice and Bob. *)
Example zrax_priority_scenario :
  List.filter isZrax zrows = [zrow 2 "cn" "ZRAX"; zrow 3 "cn" "ZRAX"] ∧
  assignAll zheader team ZOP zrows
  = inr [ CStr "Alice" :: zrow 2 "cn" "ZRAX"; CStr "Bob" :: zrow 3 "cn" "ZRAX";
          CStr "Alice" :: zrow 1 "cn" ""; CStr "Bob" :: zrow 4 "cn" "" ].
Proof. split; vm_compute; reflexivity. Qed.

(** ** The columns of the final sheet *)





(** On a header with two cells "CTR" the first column of that name goes,
    the second stays. *)
Example two_ctr_columns_scenario :
  assignAndGenerateExcel twoCtrSheet team NONE
  = inr {| finalSheetData :=
             [ [CStr "Screener"; CStr "Order"; CStr "Info_VLOOKUP";
                CStr "Dup_VLOOKUP"; CStr "CTR"];
               [CStr "Alice"; CNum (Fin 1 0); CStr "cn-x"; CStr "#N/A"; CStr "d1"];
               [CStr "UNASSIGNED_JP"; CNum (Fin 2 0); CStr "jp"; CStr "#N/A";
                CStr "d2"] ];
           pivotData := [("Alice", 1%nat); ("UNASSIGNED_JP", 1%nat)] |}.
Proof. vm_compute. reflexivity. Qed.

End AssignmentMore.

(* ===================================================================== *)
(** * The assignment dialog and the dashboard                            *)
(* ===================================================================== *)

Module UiFacts.
Import Js JsMore Pipeline Spec Ui MoreSpec AssignmentFacts.

Lemma chars_app a b : chars (String.append a b) = chars a ++ chars b.
Proof. induction a as [|c a IH]; [done|]. unfold chars in *. simpl. by rewrite IH. Qed.

Lemma chars_of_list l : chars (string_of_list_ascii l) = l.
Proof. apply list_ascii_of_string_of_list_ascii. Qed.

Lemma of_list_chars s : string_of_list_ascii (chars s) = s.
Proof. apply string_of_list_ascii_of_string. Qed.

Lemma chars_nil s : chars s = [] ↔ s = "".
Proof. by destruct s. Qed.

(** ** [split] *)

Lemma splitFrom_concat s : ∀ cur skipping,
  (skipping = true → cur = []) →
  concat (splitFrom cur skipping s)
  = rev cur ++ List.filter (λ c, negb (isSeparator c)) s.
Proof.
  induction s as [|c s IH]; intros cur skipping Hinv; simpl.
  - by rewrite !app_nil_r.
  - destruct (isSeparator c) eqn:Hc; cbn [negb].
    + destruct skipping.
      * rewrite (Hinv eq_refl). by apply IH.
      * simpl. by rewrite IH.
    + rewrite IH by done. simpl. by rewrite <- app_assoc.
Qed.

Lemma splitFrom_clean s : ∀ cur skipping,
  Forall (λ c, isSeparator c = false) cur →
  Forall (Forall (λ c, isSeparator c = false)) (splitFrom cur skipping s).
Proof.
  induction s as [|c s IH]; intros cur skipping Hcur; simpl.
  - constructor; [|constructor]. by apply Forall_rev.
  - destruct (isSeparator c) eqn:Hc.
    + destruct skipping; [by apply IH|].
      constructor; [by apply Forall_rev|]. by apply IH.
    + apply IH. by constructor.
Qed.

Lemma splitFrom_word w : ∀ cur rest,
  Forall (λ c, isSeparator c = false) w →
  splitFrom cur false (w ++ rest) = splitFrom (rev w ++ cur) false rest.
Proof.
  induction w as [|c w IH]; intros cur rest Hw; [done|].
  apply Forall_cons in Hw as [Hc Hw]. simpl. rewrite Hc, IH by done.
  by rewrite <- app_assoc.
Qed.

Lemma splitFrom_first_word w skipping rest :
  Forall (λ c, isSeparator c = false) w → w ≠ [] →
  splitFrom [] skipping (w ++ rest) = splitFrom (rev w) false rest.
Proof.
  destruct w as [|c w]; [done|]. intros [Hc Hw]%Forall_cons _. simpl.
  rewrite Hc. by apply splitFrom_word.
Qed.

(** ** [parseNames] *)

Lemma nonempty_pieces pieces :
  concat (map chars (List.filter (λ piece, truthy (CStr piece))
                       (map string_of_list_ascii pieces)))
  = concat pieces.
Proof.
  induction pieces as [|piece pieces IH]; [done|]. cbn [map List.filter].
  change (truthy (CStr (string_of_list_ascii piece)))
    with (negb (bool_decide (string_of_list_ascii piece = ""))).
  destruct (decide (string_of_list_ascii piece = "")) as [E|E].
  - rewrite (bool_decide_eq_true_2 _ E). cbn [negb concat].
    apply chars_nil in E. rewrite chars_of_list in E. by rewrite E, IH.
  - rewrite (bool_decide_eq_false_2 _ E). cbn [negb map concat].
    by rewrite chars_of_list, IH.
Qed.

(** What the dialog hands on: every name is non-empty and holds neither
    white space nor a comma, and the names in sequence are the characters
    typed with the separators left out; nothing else is lost or added. *)
Theorem parseNames_keeps_exactly_the_typed_characters (nameString : string) :
  Forall cleanName (parseNames nameString) ∧
  concat (map chars (parseNames nameString))
  = List.filter (λ c, negb (isSeparator c)) (chars nameString).
Proof.
  split.
  - apply Forall_forall. intros name Hname. unfold parseNames, split in Hname.
    apply list_elem_of_In, filter_In in Hname as [Hin Htruthy].
    apply in_map_iff in Hin as (piece & <- & Hpiece). split.
    + simpl in Htruthy. by apply negb_true_iff, bool_decide_eq_false in Htruthy.
    + rewrite chars_of_list.
      pose proof (splitFrom_clean (chars nameString) [] false ltac:(constructor)) as Hall.
      rewrite Forall_forall in Hall. by apply Hall, list_elem_of_In.
  - unfold parseNames, split. rewrite nonempty_pieces.
    by rewrite splitFrom_concat.
Qed.

Lemma parse_joined names : ∀ skipping,
  names ≠ [] → Forall cleanName names →
  List.filter (λ piece, truthy (CStr piece))
    (map string_of_list_ascii
       (splitFrom [] skipping (chars (String.concat ", " names))))
  = names.
Proof.
  induction names as [|name rest IH]; intros skipping _ Hall; [done|].
  apply Forall_cons in Hall as [[Hne Hclean] Hall].
  assert (Hchars : chars name ≠ []) by (by rewrite chars_nil).
  assert (Hkeep : truthy (CStr name) = true)
    by (simpl; by rewrite bool_decide_eq_false_2).
  destruct rest as [|next rest].
  - cbn [String.concat]. rewrite <- (app_nil_r (chars name)).
    rewrite splitFrom_first_word by done. cbn [splitFrom map List.filter].
    by rewrite rev_involutive, of_list_chars, Hkeep.
  - change (String.concat ", " (name :: next :: rest))
      with (String.append name (String.append ", " (String.concat ", " (next :: rest)))).
    rewrite !chars_app. rewrite splitFrom_first_word by done.
    change (chars ", ") with [","%char; " "%char].
    cbn [app splitFrom isSeparator isWhite code nat_of_ascii orb bool_decide].
    change (isSeparator ","%char) with true. change (isSeparator " "%char) with true.
    cbn [map List.filter].
    rewrite rev_involutive, of_list_chars, Hkeep. f_equal. by apply IH.
Qed.

(** Round trip: names that are non-empty and free of separators, typed
    one after the other with a comma and a space between them, are read
    back as they were. *)
Theorem parseNames_reads_back_a_typed_list (names : list string) :
  Forall cleanName names →
  parseNames (String.concat ", " names) = names.
Proof.
  intros Hall. destruct names as [|name rest]; [done|].
  by apply (parse_joined (name :: rest) false).
Qed.

Lemma parseNames_reads_back_a_typed_list_witness :
  parseNames (String.concat ", " ["Alice"; "Bob"]) = ["Alice"; "Bob"].
Proof.
  apply (parseNames_reads_back_a_typed_list ["Alice"; "Bob"]).
  repeat constructor; discriminate.
Defined.

(** ** [canAssign] *)

Lemma dropWhite_nil l : dropWhite l = [] → Forall (λ c, isWhite c = true) l.
Proof.
  induction l as [|c l IH]; simpl; [constructor|].
  destruct (isWhite c) eqn:E; [|done]. intros H. constructor; [done|by apply IH].
Qed.

Lemma dropWhite_split l :
  ∃ ws, l = ws ++ dropWhite l ∧ Forall (λ c, isWhite c = true) ws.
Proof.
  induction l as [|c l (ws & Hl & Hws)]; simpl; [by exists []|].
  destruct (isWhite c) eqn:E.
  - exists (c :: ws). split; [simpl; by rewrite <- Hl|by constructor].
  - by exists [].
Qed.

Lemma trim_nil l : trim l = [] → Forall (λ c, isWhite c = true) l.
Proof.
  unfold trim. intros H.
  assert (Hd : dropWhite (rev (dropWhite l)) = [])
    by (rewrite <- (rev_involutive (dropWhite _)), H; reflexivity).
  apply dropWhite_nil in Hd. apply Forall_rev in Hd. rewrite rev_involutive in Hd.
  destruct (dropWhite_split l) as (ws & Hl & Hws). rewrite Hl.
  by apply Forall_app.
Qed.

Lemma filter_none {A} (p : A → bool) (l : list A) :
  Forall (λ x, p x = false) l → List.filter p l = [].
Proof. induction 1 as [|x l Hx _ IH]; simpl; [done|]. by rewrite Hx. Qed.

Lemma splitFrom_blank s : ∀ skipping,
  Forall (λ c, isSeparator c = true) s →
  Forall (λ piece, piece = []) (splitFrom [] skipping s).
Proof.
  induction s as [|c s IH]; intros skipping Hs; simpl; [by repeat constructor|].
  apply Forall_cons in Hs as [Hc Hs]. rewrite Hc.
  destruct skipping; [by apply IH|]. constructor; [done|by apply IH].
Qed.

Lemma blank_field_has_no_names nameString :
  (0 <? String.length (trimString nameString))%nat = false →
  parseNames nameString = [].
Proof.
  intros Hlen. apply Nat.ltb_ge in Hlen.
  assert (Htrim : trim (chars nameString) = []).
  { unfold trimString in Hlen. destruct (trim (chars nameString)); [done|].
    simpl in Hlen. lia. }
  apply trim_nil in Htrim. unfold parseNames, split.
  apply filter_none. apply Forall_fmap.
  eapply Forall_impl; [apply (splitFrom_blank (chars nameString) false)|].
  - eapply Forall_impl; [exact Htrim|]. intros c Hc. unfold isSeparator.
    by rewrite Hc.
  - by intros piece ->.
Qed.

(** While the button of the dialog is disabled there is nothing to hand
    on: when the four fields hold white space only, each of the four
    lists is empty. *)
Theorem disabled_dialog_has_no_names (cnNames jpNames specialNames generalNames : string) :
  canAssign cnNames jpNames specialNames generalNames = false →
  handleAssign cnNames jpNames specialNames generalNames
  = {| cnAssignees := []; jpAssignees := []; specialAssignees := [];
       generalAssignees := [] |}.
Proof.
  unfold canAssign, handleAssign.
  intros [[[H1 H2]%orb_false_elim H3]%orb_false_elim H4]%orb_false_elim.
  by rewrite !blank_field_has_no_names.
Qed.

Lemma disabled_dialog_has_no_names_witness :
  handleAssign "  " "" (String (ascii_of_nat 10) "") " "
  = {| cnAssignees := []; jpAssignees := []; specialAssignees := [];
       generalAssignees := [] |}.
Proof.
  apply (disabled_dialog_has_no_names "  " "" (String (ascii_of_nat 10) "") " ").
  reflexivity.
Defined.

(** The button can be enabled with nothing to hand on: a field that holds
    only commas counts as filled, yet no name is read from it. *)
Example enabled_dialog_without_names :
  canAssign "," "" "" "" = true ∧ parseNames "," = [].
Proof. split; reflexivity. Qed.

(** ** The grand total of the dashboard *)

Lemma grandTotal_sum data : ∀ start,
  fold_left (λ sum (item : string * nat), (sum + snd item)%nat) data start
  = (start + sum_list (map snd data))%nat.
Proof.
  induction data as [|item data IH]; intros start; simpl; [lia|].
  rewrite IH. lia.
Qed.

(** The grand total shown on the dashboard is the number of data rows of
    the final sheet. *)
Theorem grand_total_is_the_number_of_assigned_rows
    (processedData : Table) (a : Assignees) (zf : ZraxFilter) (out : Assigned) :
  assignAndGenerateExcel processedData a zf = inr out →
  grandTotal (pivotData out) = length (drop 1 (finalSheetData out)).
Proof.
  intros Hrun. unfold grandTotal. rewrite grandTotal_sum. simpl.
  apply assign_inversion in Hrun
    as [(_ & Hfin & Hpiv)|(dupIdx & assigned & hdr & final & _ & Hall & Hfin & Hpiv & _)];
    rewrite Hfin, Hpiv; [done|].
  pose proof (JsFacts.sort_perm byScreener (fold_left tallyStep assigned [])) as Hperm.
  destruct (tally_spec assigned []) as (_ & _ & _ & Hsum); [constructor|].
  fold (pivotOf assigned) in Hperm.
  rewrite (sum_list_perm _ _ (Permutation_map snd Hperm)), Hsum.
  change (drop 1 (hdr :: map final assigned)) with (map final assigned).
  by rewrite length_map.
Qed.

Lemma grand_total_is_the_number_of_assigned_rows_witness :
  grandTotal [("alice", 1%nat); ("Alice", 2%nat); ("Bob", 1%nat); ("UNASSIGNED_JP", 1%nat)]
  = length (drop 1
      [ [CStr "Screener"; CStr "Order"; CStr "Info_VLOOKUP"; CStr "Dup_VLOOKUP"];
        [CStr "Alice"; CNum (Fin 1 0); CStr "cn-x"; CStr "#N/A"];
        [CStr "Bob"; CNum (Fin 3 0); CStr "Cn/Jp"; CStr "#N/A"];
        [CStr "Alice"; CNum (Fin 8 0); CStr "China CN"; CStr "#N/A"];
        [CStr "UNASSIGNED_JP"; CNum (Fin 2 0); CStr "jp"; CStr "#N/A"];
        [CStr "alice"; CNum (Fin 9 0); CStr "#N/A"; CStr "#N/A"] ]).
Proof.
  apply (grand_total_is_the_number_of_assigned_rows Samples.processedSheet Samples.team NONE
           {| finalSheetData :=
                [ [CStr "Screener"; CStr "Order"; CStr "Info_VLOOKUP"; CStr "Dup_VLOOKUP"];
                  [CStr "Alice"; CNum (Fin 1 0); CStr "cn-x"; CStr "#N/A"];
                  [CStr "Bob"; CNum (Fin 3 0); CStr "Cn/Jp"; CStr "#N/A"];
                  [CStr "Alice"; CNum (Fin 8 0); CStr "China CN"; CStr "#N/A"];
                  [CStr "UNASSIGNED_JP"; CNum (Fin 2 0); CStr "jp"; CStr "#N/A"];
                  [CStr "alice"; CNum (Fin 9 0); CStr "#N/A"; CStr "#N/A"] ];
              pivotData :=
                [("alice", 1%nat); ("Alice", 2%nat); ("Bob", 1%nat);
                 ("UNASSIGNED_JP", 1%nat)] |}).
  vm_compute. reflexivity.
Defined.

End UiFacts.

(* ===================================================================== *)
(** * The column-A extractor                                             *)
(* ===================================================================== *)

Module ColumnAFacts.
Import Js JsMore Pipeline Spec ColumnA MoreSpec.

(** ** The numeric order *)

Lemma finCompare_scaled E m1 e1 m2 e2 :
  (E ≤ e1)%Z → (E ≤ e2)%Z →
  finCompare m1 e1 m2 e2 = (scaled E m1 e1 ?= scaled E m2 e2)%Z.
Proof.
  intros H1 H2. unfold finCompare, scaled.
  replace (e1 - E)%Z with ((e1 - Z.min e1 e2) + (Z.min e1 e2 - E))%Z by lia.
  replace (e2 - E)%Z with ((e2 - Z.min e1 e2) + (Z.min e1 e2 - E))%Z by lia.
  rewrite !Z.pow_add_r by lia. rewrite !Z.mul_assoc.
  apply Zmult_compare_compat_r.
  assert (0 < 10 ^ (Z.min e1 e2 - E))%Z by (apply Z.pow_pos_nonneg; lia). lia.
Qed.

Lemma minus_flip a b :
  isNaN a = false → isNaN b = false → minus b a = CompOpp (minus a b).
Proof.
  destruct a as [|[]|m1 e1], b as [|[]|m2 e2]; try done. intros _ _. simpl.
  unfold finCompare. rewrite (Z.min_comm e2 e1). apply Z.compare_antisym.
Qed.

Lemma minus_total a b :
  isNaN a = false → isNaN b = false → minus a b = Gt → numLe b a.
Proof. intros Ha Hb H. unfold numLe. by rewrite (minus_flip a b), H. Qed.

Lemma numLe_trans a b c :
  isNaN a = false → isNaN b = false → isNaN c = false →
  numLe a b → numLe b c → numLe a c.
Proof.
  unfold numLe.
  destruct a as [|[]|m1 e1], b as [|[]|m2 e2], c as [|[]|m3 e3]; try done.
  intros _ _ _. simpl.
  rewrite (finCompare_scaled (Z.min (Z.min e1 e2) e3) m1 e1 m2 e2) by lia.
  rewrite (finCompare_scaled (Z.min (Z.min e1 e2) e3) m2 e2 m3 e3) by lia.
  rewrite (finCompare_scaled (Z.min (Z.min e1 e2) e3) m1 e1 m3 e3) by lia.
  apply Z.le_trans.
Qed.

(** ** Sorting a list whose elements the comparison orders *)

Section SortOn.
Context {A : Type} (cmp : A → A → comparison) (P : A → Prop).

Hypothesis total_on : ∀ x y, P x → P y → cmp x y = Gt → notAfter cmp y x.
Hypothesis trans_on : ∀ x y z, P x → P y → P z →
  notAfter cmp x y → notAfter cmp y z → notAfter cmp x z.

Lemma insertSorted_on x l :
  P x → Forall P l → StronglySorted (notAfter cmp) l →
  StronglySorted (notAfter cmp) (insertSorted cmp x l).
Proof.
  intros Hx Hl Hs. induction Hs as [|y l Hs IH Hy]; simpl.
  - by repeat constructor.
  - apply Forall_cons in Hl as [Py Hl].
    assert (Hbelow : notAfter cmp x y →
                     StronglySorted (notAfter cmp) (x :: y :: l)).
    { intros Hxy. constructor; [by constructor|]. constructor; [done|].
      rewrite Forall_forall in Hy, Hl |- *. intros z Hz.
      apply (trans_on x y z); auto. }
    destruct (cmp x y) eqn:E.
    + apply Hbelow. unfold notAfter. by rewrite E.
    + apply Hbelow. unfold notAfter. by rewrite E.
    + constructor; [by apply IH|].
      rewrite (JsFacts.insertSorted_perm cmp x l). constructor; [|done].
      by apply total_on.
Qed.

Lemma sort_on l :
  Forall P l → StronglySorted (notAfter cmp) (sort cmp l).
Proof.
  induction 1 as [|x l Hx Hl IH]; simpl; [constructor|].
  apply insertSorted_on; [done| |done].
  by rewrite (JsFacts.sort_perm cmp l).
Qed.
End SortOn.

(** ** The numbers collected *)

Lemma readable_test row :
  (0 <? length row)%nat && negb (strictEq (at_ row 0) CNull) = true ↔ readable row.
Proof.
  unfold readable. rewrite andb_true_iff, Nat.ltb_lt, negb_true_iff. split.
  - intros [Hlen Hnull]. split; [by destruct row; [simpl in Hlen; lia|]|].
    intros E. rewrite E in Hnull. done.
  - intros [Hne Hnull]. split; [destruct row; simpl; [done|lia]|].
    destruct (at_ row 0) as [| [] | | |]; try done.
Qed.

Lemma setAdd_spec seen x :
  NoDup seen →
  NoDup (setAdd seen x) ∧ ∀ y, y ∈ setAdd seen x ↔ y ∈ seen ∨ y = x.
Proof.
  intros Hnd. unfold setAdd. destruct (decide (x ∈ seen)) as [Hin|Hout].
  - rewrite (bool_decide_eq_true_2 _ Hin). split; [done|].
    intros y. split; [by left|]. by intros [?| ->].
  - rewrite (bool_decide_eq_false_2 _ Hout). split.
    + apply NoDup_app. split; [done|]. split; [|apply NoDup_singleton].
      intros y Hy ->%list_elem_of_singleton. done.
    + intros y. by rewrite elem_of_app, list_elem_of_singleton.
Qed.

Lemma columnA_fold data : ∀ seen,
  NoDup seen →
  NoDup (fold_left columnAStep data seen) ∧
  ∀ x, x ∈ fold_left columnAStep data seen
       ↔ x ∈ seen ∨ (isNaN x = false ∧
                     ∃ row, row ∈ data ∧ readable row ∧ Number (at_ row 0) = x).
Proof.
  induction data as [|row data IH]; intros seen Hnd; simpl.
  - split; [done|]. intros x. split; [by left|].
    intros [?|(_ & row & Hrow & _)]; [done|]. by apply elem_of_nil in Hrow.
  - assert (Hskip : ∀ x,
      ¬ (readable row ∧ isNaN (Number (at_ row 0)) = false) →
      (x ∈ seen ∨ (isNaN x = false ∧
                   ∃ r, r ∈ data ∧ readable r ∧ Number (at_ r 0) = x))
      ↔ (x ∈ seen ∨ (isNaN x = false ∧
                     ∃ r, r ∈ row :: data ∧ readable r ∧ Number (at_ r 0) = x))).
    { intros x Hno. split.
      - intros [?|(Hx & r & Hr & Hrd & Hnum)]; [by left|]. right. split; [done|].
        exists r. split; [by apply list_elem_of_further|done].
      - intros [?|(Hx & r & Hr & Hrd & Hnum)]; [by left|].
        apply elem_of_cons in Hr as [->|Hr]; [|right; eauto].
        exfalso. apply Hno. split; [done|]. by rewrite Hnum. }
    unfold columnAStep at 2 4.
    destruct ((0 <? length row)%nat && negb (strictEq (at_ row 0) CNull)) eqn:Htest.
    + apply readable_test in Htest.
      destruct (isNaN (Number (at_ row 0))) eqn:Hnan; cbn [negb].
      * destruct (IH seen Hnd) as [Hnd' Hiff]. split; [done|]. intros x.
        rewrite Hiff. apply Hskip. intros [_ ?]. congruence.
      * destruct (setAdd_spec seen (Number (at_ row 0)) Hnd) as [Hnd1 Hin1].
        destruct (IH _ Hnd1) as [Hnd' Hiff]. split; [done|]. intros x.
        rewrite Hiff, Hin1. split.
        -- intros [[?| ->]|(Hx & r & Hr & Hrd & Hnum)].
           ++ by left.
           ++ right. split; [done|]. exists row. split; [apply list_elem_of_here|done].
           ++ right. split; [done|]. exists r. split; [by apply list_elem_of_further|done].
        -- intros [?|(Hx & r & Hr & Hrd & Hnum)]; [by left; left|].
           apply elem_of_cons in Hr as [->|Hr]; [by left; right|].
           right. eauto.
    + destruct (IH seen Hnd) as [Hnd' Hiff]. split; [done|]. intros x.
      rewrite Hiff. apply Hskip. intros [Hrd _]. apply readable_test in Hrd. congruence.
Qed.

(** The column-A extractor returns, for a workbook with a first sheet,
    the numbers that the first cells of the rows coerce to, the first row
    included; a row without cells and a [null] first cell are passed
    over.  Each number is listed once, in ascending order. *)
Theorem column_A_numbers_are_unique_and_ascending (wb : Workbook) (data : Table) :
  sheet wb (head (SheetNames wb)) = Some data →
  ∃ uniqueNumbers,
    processColumnA wb = inr uniqueNumbers ∧
    NoDup uniqueNumbers ∧
    StronglySorted numLe uniqueNumbers ∧
    ∀ x, x ∈ uniqueNumbers
         ↔ isNaN x = false ∧
           ∃ row, row ∈ data ∧ readable row ∧ Number (at_ row 0) = x.
Proof.
  intros Hsheet. unfold processColumnA. rewrite Hsheet. eexists. split; [done|].
  destruct (columnA_fold data [] (NoDup_nil_2 )) as [Hnd Hiff].
  pose proof (JsFacts.sort_perm minus (fold_left columnAStep data [])) as Hperm.
  split; [by rewrite Hperm|]. split.
  - apply (sort_on minus (λ x, isNaN x = false)).
    + intros x y Hx Hy. by apply minus_total.
    + intros x y z. apply numLe_trans.
    + apply Forall_forall. intros x Hx. apply Hiff in Hx as [Hx|[Hx _]]; [|done].
      by apply elem_of_nil in Hx.
  - intros x. rewrite Hperm, Hiff. split; [|by right].
    intros [Hx|?]; [|done]. by apply elem_of_nil in Hx.
Qed.

Lemma column_A_numbers_are_unique_and_ascending_witness :
  ∃ uniqueNumbers,
    processColumnA
      (Samples.book "Sheet1"
         [ [CNum (Fin 3 0)]; [CStr "3"]; [CStr "x"]; [CNum (Fin 15 (-1))]; [CNull]; [];
           [CStr ""] ])
    = inr uniqueNumbers ∧
    NoDup uniqueNumbers ∧
    StronglySorted numLe uniqueNumbers ∧
    ∀ x, x ∈ uniqueNumbers
         ↔ isNaN x = false ∧
           ∃ row, row ∈ [ [CNum (Fin 3 0)]; [CStr "3"]; [CStr "x"]; [CNum (Fin 15 (-1))];
                          [CNull]; []; [CStr ""] ]
                  ∧ readable row ∧ Number (at_ row 0) = x.
Proof.
  apply (column_A_numbers_are_unique_and_ascending
           (Samples.book "Sheet1"
              [ [CNum (Fin 3 0)]; [CStr "3"]; [CStr "x"]; [CNum (Fin 15 (-1))]; [CNull]; [];
                [CStr ""] ])).
  reflexivity.
Defined.

(** On that sheet: 3 is listed once, "x" and [null] leave nothing, the
    empty string counts as 0. *)
Example column_A_scenario :
  processColumnA
    (Samples.book "Sheet1"
       [ [CNum (Fin 3 0)]; [CStr "3"]; [CStr "x"]; [CNum (Fin 15 (-1))]; [CNull]; [];
         [CStr ""] ])
  = inr [Fin 0 0; Fin 15 (-1); Fin 3 0].
Proof. vm_compute. reflexivity. Qed.

End ColumnAFacts.

(* ===================================================================== *)
(** * The two copying versions of the assignment step                    *)
(* ===================================================================== *)

Module VersionFacts.
Import Js Pipeline Spec Samples MoreSpec AssignmentFacts.

Lemma later_codes : specialCodes = Middle.specialCodes ++ ["CU"; "IR"; "KP"; "SY"].
Proof. reflexivity. Qed.

Lemma same_branch idx row :
  (∀ code, code ∈ ["CU"; "IR"; "KP"; "SY"] → includes (infoValueOf idx row) code = false) →
  branchOf Middle.specialCodes idx row = branchOf specialCodes idx row.
Proof.
  intros Hnone. unfold branchOf. rewrite later_codes, existsb_app.
  assert (existsb (λ code, includes (infoValueOf idx row) code) ["CU"; "IR"; "KP"; "SY"]
          = false) as ->; [|by rewrite orb_false_r].
  simpl. rewrite !Hnone; [done|..]; repeat constructor.
Qed.

Lemma same_categories idx (rows : list Row) :
  Forall (λ row, branchOf Middle.specialCodes idx row = branchOf specialCodes idx row) rows →
  categorize Middle.specialCodes idx rows = categorize specialCodes idx rows.
Proof.
  intros Hsame. unfold categorize. rewrite !categorize_fold.
  assert (Honly : ∀ c, only Middle.specialCodes idx c rows = only specialCodes idx c rows).
  { intros c. unfold only. apply filter_ext_in. intros row Hrow%list_elem_of_In.
    rewrite Forall_forall in Hsame. by rewrite (Hsame row Hrow). }
  by rewrite !Honly.
Qed.

(** The later assignment step, run without a ZRAX filter, against the
    earlier copying one, on every sheet whose header has no cell "CTR"
    and whose Info_VLOOKUP values hold none of the four codes added since
    (CU, IR, KP, SY): both succeed with the same sheet and the same pivot,
    or both fail for the same missing column.  For a missing
    "Dup_VLOOKUP" the two messages are the same; for a missing
    "Info_VLOOKUP" the earlier message is the later one followed by
    " Cannot perform assignment.". *)
Theorem later_step_agrees_with_the_earlier_one (processedData : Table) (a : Assignees) :
  CStr "CTR" ∉ headerOf processedData →
  (∀ idx row code,
     findIndex (isLabel "Info_VLOOKUP") (headerOf processedData) = Some idx →
     row ∈ drop 1 processedData → code ∈ ["CU"; "IR"; "KP"; "SY"] →
     includes (infoValueOf idx row) code = false) →
  match Middle.assignAndGenerateExcel processedData a,
        assignAndGenerateExcel processedData a NONE with
  | inr earlier, inr later => earlier = later
  | inl earlier, inl later =>
      (earlier = Middle.NoDupColumn ∧ later = DupColumnNotFound ∧
       Middle.message earlier = message later)
      ∨ (earlier = Middle.NoInfoColumn ∧ later = InfoColumnNotFound ∧
         Middle.message earlier
         = String.append (message later) " Cannot perform assignment.")
  | _, _ => False
  end.
Proof.
  intros Hctr Hcodes.
  unfold Middle.assignAndGenerateExcel, assignAndGenerateExcel,
    assignAndGenerateExcelWith.
  destruct (length processedData <? 2)%nat; [done|].
  destruct (findIndex (isLabel "Dup_VLOOKUP") (headerOf processedData))
    as [dupIdx|]; [|by left].
  unfold assignAll, processAndAssign. destruct (decide (NONE = ZOP)) as [|_]; [done|].
  destruct (findIndex (isLabel "Info_VLOOKUP") (headerOf processedData))
    as [idx|] eqn:Hidx; [|by right].
  rewrite (proj2 (PipelineMore.label_missing "CTR" (headerOf processedData)) Hctr).
  rewrite same_categories; [done|].
  apply Forall_forall. intros row Hrow%list_elem_of_In%filter_In.
  destruct Hrow as [Hrow%list_elem_of_In _]. apply same_branch.
  intros code Hcode. by apply (Hcodes idx row code).
Qed.

Lemma later_step_agrees_with_the_earlier_one_witness :
  match Middle.assignAndGenerateExcel
          [ [CStr "Order"; CStr "Dup_VLOOKUP"];
            [CNum (Fin 1 0); CStr "#N/A"];
            [CNum (Fin 2 0); CStr "#N/A"] ] team,
        assignAndGenerateExcel
          [ [CStr "Order"; CStr "Dup_VLOOKUP"];
            [CNum (Fin 1 0); CStr "#N/A"];
            [CNum (Fin 2 0); CStr "#N/A"] ] team NONE with
  | inr earlier, inr later => earlier = later
  | inl earlier, inl later =>
      (earlier = Middle.NoDupColumn ∧ later = DupColumnNotFound ∧
       Middle.message earlier = message later)
      ∨ (earlier = Middle.NoInfoColumn ∧ later = InfoColumnNotFound ∧
         Middle.message earlier
         = String.append (message later) " Cannot perform assignment.")
  | _, _ => False
  end.
Proof.
  apply (later_step_agrees_with_the_earlier_one
           [ [CStr "Order"; CStr "Dup_VLOOKUP"];
             [CNum (Fin 1 0); CStr "#N/A"];
             [CNum (Fin 2 0); CStr "#N/A"] ] team).
  - intros Hin. repeat (apply elem_of_cons in Hin as [Hin|Hin]; [discriminate|]).
    by apply elem_of_nil in Hin.
  - intros idx row code [=].
Defined.

(** On the sheets of the two cases: with both labels the two steps return
    the same sheet; without "Info_VLOOKUP" both fail, each with its own
    message. *)
Example both_versions_scenario :
  Middle.assignAndGenerateExcel
    [ [CStr "Order"; CStr "Info_VLOOKUP"; CStr "Dup_VLOOKUP"];
      [CNum (Fin 1 0); CStr "cn"; CStr "#N/A"];
      [CNum (Fin 2 0); CStr "Peru"; CStr "#N/A"] ] team
  = inr {| finalSheetData :=
             [ [CStr "Screener"; CStr "Order"; CStr "Info_VLOOKUP"; CStr "Dup_VLOOKUP"];
               [CStr "Alice"; CNum (Fin 1 0); CStr "cn"; CStr "#N/A"];
               [CStr "Zed"; CNum (Fin 2 0); CStr "Peru"; CStr "#N/A"] ];
           pivotData := [("Alice", 1%nat); ("Zed", 1%nat)] |} ∧
  assignAndGenerateExcel
    [ [CStr "Order"; CStr "Info_VLOOKUP"; CStr "Dup_VLOOKUP"];
      [CNum (Fin 1 0); CStr "cn"; CStr "#N/A"];
      [CNum (Fin 2 0); CStr "Peru"; CStr "#N/A"] ] team NONE
  = inr {| finalSheetData :=
             [ [CStr "Screener"; CStr "Order"; CStr "Info_VLOOKUP"; CStr "Dup_VLOOKUP"];
               [CStr "Alice"; CNum (Fin 1 0); CStr "cn"; CStr "#N/A"];
               [CStr "Zed"; CNum (Fin 2 0); CStr "Peru"; CStr "#N/A"] ];
           pivotData := [("Alice", 1%nat); ("Zed", 1%nat)] |} ∧
  Middle.assignAndGenerateExcel
    [ [CStr "Order"; CStr "Dup_VLOOKUP"]; [CNum (Fin 1 0); CStr "#N/A"];
      [CNum (Fin 2 0); CStr "#N/A"] ] team
  = inl Middle.NoInfoColumn ∧
  assignAndGenerateExcel
    [ [CStr "Order"; CStr "Dup_VLOOKUP"]; [CNum (Fin 1 0); CStr "#N/A"];
      [CNum (Fin 2 0); CStr "#N/A"] ] team NONE
  = inl InfoColumnNotFound.
Proof. repeat split; vm_compute; reflexivity. Qed.

(** Where the two differ: a value with one of the added codes is special
    work for the later step and general work for the earlier one. *)
Example added_codes_change_the_bucket :
  branchOf specialCodes 0 [CStr "Syria"] = SPECIAL ∧
  branchOf Middle.specialCodes 0 [CStr "Syria"] = GENERAL.
Proof. split; reflexivity. Qed.

End VersionFacts.
